(** * Weather-map viewer: a shallow embedding of the glue code

    The repository composes a Leaflet map with the Windy weather engine
    inside a React application.  This development embeds the pieces of
    TypeScript that carry behaviour of their own: the environment reader
    ([config/env.ts]), the map context ([context/MapContext.tsx]), the
    weather-engine wrapper ([services/windyService.ts]), the mock data
    service and the data-fetching hook ([hooks/useDataFetching.ts]), and
    the script loader, initialisation effect, zoom handlers and render
    function of [components/Map/MapContainer.tsx]; further the hooks
    [hooks/useWindyInitializer.ts] and [hooks/useMapLayers.ts] and the
    marker bookkeeping of [components/Map/DataLayer.tsx].

    Conventions.
    - A JavaScript [number] is [NaN], an infinity or an exact rational;
      rounding to binary64 is not modelled, only comparisons are used.
    - A JavaScript object used as a dictionary is a [gmap string _];
      a missing key is [None] (JavaScript [undefined]).
    - Code that throws, catches and mutates is written in a small
      state-and-exception monad [M W], where [W] is the mutable world
      the code touches (React state, the DOM, the log of external calls).
    - A function value is compared by reference in JavaScript; a
      callback is therefore represented by its identity, a [nat]. *)

From Stdlib Require Import QArith Ascii String.
From stdpp Require Import base option list gmap strings.

Local Open Scope string_scope.
Local Open Scope list_scope.

(** ** JavaScript values *)

Module JS.

Inductive number : Type :=
| NaN
| Num (q : Q)
| Infinity (negative : bool).

(** [a > b] on numbers: every comparison with [NaN] is false. *)
Definition gt (a b : number) : bool :=
  match a, b with
  | NaN, _ | _, NaN => false
  | Infinity true, _ => false
  | Infinity false, Infinity false => false
  | Infinity false, _ => true
  | Num _, Infinity neg => neg
  | Num x, Num y => negb (Qle_bool x y)
  end.

Definition isNaN (a : number) : bool :=
  match a with NaN => true | _ => false end.

(** Truthiness of a string: only the empty string is falsy. *)
Definition truthy (s : string) : bool :=
  match s with EmptyString => false | String _ _ => true end.

(** What a [throw] carries: an [Error] object with its message, or any
    other value (for which [e instanceof Error] is false). *)
Inductive thrown : Type :=
| ErrorObj (message : string)
| NonError (description : string).

(** [err instanceof Error ? err : new Error(dflt)], reduced to the
    message of the resulting [Error]. *)
Definition asError (dflt : string) (e : thrown) : string :=
  match e with
  | ErrorObj m => m
  | NonError _ => dflt
  end.

Inductive outcome (A : Type) : Type :=
| Ok (a : A)
| Throw (e : thrown).
Arguments Ok {A} a.
Arguments Throw {A} e.

(** The monad of code running against a mutable world [W]. *)
Definition M (W A : Type) : Type := W → outcome A * W.

Definition ret {W A} (a : A) : M W A := λ w, (Ok a, w).

Definition bind {W A B} (c : M W A) (k : A → M W B) : M W B :=
  λ w, match c w with
       | (Ok a, w') => k a w'
       | (Throw e, w') => (Throw e, w')
       end.

Definition throw {W A} (e : thrown) : M W A := λ w, (Throw e, w).

(** [try { c } catch (e) { h e }] *)
Definition try_catch {W A} (c : M W A) (h : thrown → M W A) : M W A :=
  λ w, match c w with
       | (Ok a, w') => (Ok a, w')
       | (Throw e, w') => h e w'
       end.

Definition get {W} : M W W := λ w, (Ok w, w).
Definition modify {W} (f : W → W) : M W unit := λ w, (Ok tt, f w).

(** [xs.forEach(f)] *)
Fixpoint forEach {W A} (f : A → M W unit) (xs : list A) : M W unit :=
  match xs with
  | [] => ret tt
  | x :: xs' => bind (f x) (λ _, forEach f xs')
  end.

(** The world after running [c], whatever the outcome. *)
Definition exec {W A} (c : M W A) (w : W) : W := snd (c w).
Definition eval {W A} (c : M W A) (w : W) : outcome A := fst (c w).

End JS.

Import JS.

#[global] Instance M_ret {W} : MRet (M W) := λ A, @JS.ret W A.
#[global] Instance M_bind {W} : MBind (M W) := λ A B k c, @JS.bind W A B c k.

(** ** [types/map.ts] *)

Record GeoPoint : Type := { lat : number; lng : number }.

(** ** [context/MapContext.tsx]: the state held by [MapProvider] *)

Module MapContext.

(** The [useState] cells of [MapProvider] that the code below reads or
    writes; the map, engine and service instances are kept as presence
    flags. *)
Record state : Type := {
  leafletMap : bool;
  windyInstance : bool;
  windyService : bool;
  isMapLoading : bool;
  mapError : option string;
  selectedLayer : string;
  visibleLayers : list string;
  currentZoom : number;
}.

(** The initial values passed to [useState]. *)
Definition initial : state := {|
  leafletMap := false;
  windyInstance := false;
  windyService := false;
  isMapLoading := true;
  mapError := None;
  selectedLayer := "wind";
  visibleLayers := [];
  currentZoom := Num 9;
|}.

Definition setLeafletMap (v : bool) (s : state) : state :=
  {| leafletMap := v; windyInstance := windyInstance s;
     windyService := windyService s; isMapLoading := isMapLoading s;
     mapError := mapError s; selectedLayer := selectedLayer s;
     visibleLayers := visibleLayers s; currentZoom := currentZoom s |}.

Definition setWindyInstance (v : bool) (s : state) : state :=
  {| leafletMap := leafletMap s; windyInstance := v;
     windyService := windyService s; isMapLoading := isMapLoading s;
     mapError := mapError s; selectedLayer := selectedLayer s;
     visibleLayers := visibleLayers s; currentZoom := currentZoom s |}.

Definition setWindyService (v : bool) (s : state) : state :=
  {| leafletMap := leafletMap s; windyInstance := windyInstance s;
     windyService := v; isMapLoading := isMapLoading s;
     mapError := mapError s; selectedLayer := selectedLayer s;
     visibleLayers := visibleLayers s; currentZoom := currentZoom s |}.

Definition setIsMapLoading (v : bool) (s : state) : state :=
  {| leafletMap := leafletMap s; windyInstance := windyInstance s;
     windyService := windyService s; isMapLoading := v;
     mapError := mapError s; selectedLayer := selectedLayer s;
     visibleLayers := visibleLayers s; currentZoom := currentZoom s |}.

Definition setMapError (v : option string) (s : state) : state :=
  {| leafletMap := leafletMap s; windyInstance := windyInstance s;
     windyService := windyService s; isMapLoading := isMapLoading s;
     mapError := v; selectedLayer := selectedLayer s;
     visibleLayers := visibleLayers s; currentZoom := currentZoom s |}.

Definition setVisibleLayers (f : list string → list string) (s : state) : state :=
  {| leafletMap := leafletMap s; windyInstance := windyInstance s;
     windyService := windyService s; isMapLoading := isMapLoading s;
     mapError := mapError s; selectedLayer := selectedLayer s;
     visibleLayers := f (visibleLayers s); currentZoom := currentZoom s |}.

Definition setCurrentZoom (v : number) (s : state) : state :=
  {| leafletMap := leafletMap s; windyInstance := windyInstance s;
     windyService := windyService s; isMapLoading := isMapLoading s;
     mapError := mapError s; selectedLayer := selectedLayer s;
     visibleLayers := visibleLayers s; currentZoom := v |}.

(** [prev.includes(layerId) ? prev.filter(id => id !== layerId)
                            : [...prev, layerId]] *)
Definition toggle (layerId : string) (prev : list string) : list string :=
  if bool_decide (layerId ∈ prev)
  then filter (λ id, id ≠ layerId) prev
  else prev ++ [layerId].

Definition toggleLayerVisibility (layerId : string) : state → state :=
  setVisibleLayers (toggle layerId).

(** The placeholder exposed on the context value. *)
Definition calculateDistance (point1 point2 : GeoPoint) : number := Num 0.

(** [resetMapState] *)
Definition resetMapState (s : state) : state :=
  setIsMapLoading true (setMapError None s).

End MapContext.

(** ** [services/windyService.ts]: the wrapper around the weather engine *)

Module WindyService.

Record WindyLayer : Type := {
  id : string;
  name : string;
  overlayFunction : string;
}.

(** A change listener is a function; [cb !== callback] compares
    references, so a listener is its identity. *)
Definition listener : Type := nat.

(** The object handed to a listener: its fields and their values. *)
Definition payload : Type := list (string * string).

(** What the wrapper does to the outside, in order of occurrence. *)
Inductive call : Type :=
| StoreSet (key value : string)
| OverlayCall (overlayFunction : string)
| ListenerCall (cb : listener) (event : string) (data : payload)
| ConsoleError (msg : string).

#[global] Instance call_eq_dec : EqDecision call.
Proof. solve_decision. Defined.

(** The engine object [windyApi] as far as the wrapper looks at it, the
    private [changeListeners] array and the log of calls.
    - [store]: the contents of the key/value store, [None] when
      [windyApi.store] is missing (the code tests for it);
    - [overlays]: the names under which [windyApi.overlays] holds a
      function;
    - [faulty]: the external calls that throw when made. *)
Record world : Type := {
  store : option (gmap string string);
  overlays : gset string;
  faulty : call → bool;
  changeListeners : list listener;
  calls : list call;
}.

(** [new WindyService(windyApi, options)] over an engine with the given
    store, overlay functions and failing calls: no listener yet. *)
Definition construct (st : option (gmap string string)) (ov : gset string)
    (bad : call → bool) : world :=
  {| store := st; overlays := ov; faulty := bad; changeListeners := []; calls := [] |}.

Definition log (c : call) (w : world) : world :=
  {| store := store w; overlays := overlays w; faulty := faulty w;
     changeListeners := changeListeners w; calls := calls w ++ [c] |}.

Definition setListeners (f : list listener → list listener) (w : world) : world :=
  {| store := store w; overlays := overlays w; faulty := faulty w;
     changeListeners := f (changeListeners w); calls := calls w |}.

Definition writeStore (key value : string) (w : world) : world :=
  {| store := (λ m : gmap string string, <[key := value]> m) <$> store w;
     overlays := overlays w; faulty := faulty w;
     changeListeners := changeListeners w; calls := calls w |}.

(** An external call: logged, then it either returns or throws. *)
Definition external (c : call) : M world unit :=
  modify (log c) ;;
  w ← get ;
  if faulty w c then throw (ErrorObj "external call failed") else mret tt.

(** [this.windyApi.store.set(key, value)]: a [TypeError] when the store
    is missing. *)
Definition store_set (key value : string) : M world unit :=
  w ← get ;
  match store w with
  | None => throw (ErrorObj "TypeError: store is undefined")
  | Some _ => external (StoreSet key value) ;; modify (writeStore key value)
  end.

Definition console_error (msg : string) : M world unit :=
  modify (log (ConsoleError msg)).

Definition notifyListeners (event : string) (data : payload) : M world unit :=
  w ← get ;
  forEach (λ cb, try_catch (external (ListenerCall cb event data))
                           (λ _, console_error "Error in Windy listener:"))
          (changeListeners w).

Definition addChangeListener (callback : listener) : M world unit :=
  modify (setListeners (λ l, (l ++ [callback])%list)).

Definition removeChangeListener (callback : listener) : M world unit :=
  modify (setListeners (filter (λ cb, cb ≠ callback))).

Definition getAvailableLayers : list WindyLayer :=
  [ {| id := "wind"; name := "Wind Layer"; overlayFunction := "wind" |};
    {| id := "temp"; name := "Temperature"; overlayFunction := "temp" |};
    {| id := "clouds"; name := "Clouds"; overlayFunction := "clouds" |};
    {| id := "pressure"; name := "Pressure"; overlayFunction := "pressure" |};
    {| id := "rainClouds"; name := "Rain & Clouds"; overlayFunction := "rainClouds" |} ].

Definition setActiveLayer (layerId : string) : M world unit :=
  try_catch
    (store_set "overlay" layerId ;;
     w ← get ;
     match List.find (λ l, bool_decide (id l = layerId)) getAvailableLayers with
     | Some layer =>
         if bool_decide (overlayFunction layer ∈ overlays w)
         then external (OverlayCall (overlayFunction layer))
         else mret tt
     | None => mret tt
     end ;;
     notifyListeners "layerChange" [("layerId", layerId)])
    (λ _, console_error "Error setting active layer:").

Definition setAltitudeLevel (level : string) : M world unit :=
  w ← get ;
  match store w with
  | None => mret tt
  | Some _ =>
      store_set "level" level ;;
      notifyListeners "levelChange" [("level", level)]
  end.

Definition cleanup : M world unit :=
  modify (setListeners (λ _, [])).

(** The listeners a stretch of the log invoked. *)
Definition invoked (cs : list call) : list listener :=
  omap (λ c, match c with ListenerCall cb _ _ => Some cb | _ => None end) cs.

(** The ids of the layers the wrapper knows. *)
Definition knownLayer (layerId : string) : bool :=
  bool_decide (layerId ∈ id <$> getAvailableLayers).

(** The log entries one round of [notifyListeners] produces: every
    registered listener is called, in registration order, and a
    listener that throws is followed by the [console.error] of the
    [catch]. *)
Definition notified (w : world) (event : string) (data : payload) : list call :=
  cb ← changeListeners w ;
  ListenerCall cb event data ::
    (if faulty w (ListenerCall cb event data)
     then [ConsoleError "Error in Windy listener:"] else []).

(** The overlay function [setActiveLayer] calls, if any. *)
Definition overlayCalls (w : world) (layerId : string) : list call :=
  if knownLayer layerId && bool_decide (layerId ∈ overlays w)
  then [OverlayCall layerId] else [].

(** What can be done to a service once it is constructed: the public
    methods, and an engine event that [setupBroadcastListeners]
    forwards to [notifyListeners]. *)
Inductive op : Type :=
| AddChangeListener (cb : listener)
| RemoveChangeListener (cb : listener)
| SetActiveLayer (layerId : string)
| SetAltitudeLevel (level : string)
| Cleanup
| Forwarded (event : string) (data : payload).

Definition perform (o : op) : M world unit :=
  match o with
  | AddChangeListener cb => addChangeListener cb
  | RemoveChangeListener cb => removeChangeListener cb
  | SetActiveLayer layerId => setActiveLayer layerId
  | SetAltitudeLevel level => setAltitudeLevel level
  | Cleanup => cleanup
  | Forwarded event data => notifyListeners event data
  end.

Definition performAll (os : list op) (w : world) : world :=
  foldl (λ w o, exec (perform o) w) w os.

Definition logAll (cs : list call) (w : world) : world :=
  {| store := store w; overlays := overlays w; faulty := faulty w;
     changeListeners := changeListeners w; calls := calls w ++ cs |}.

(** A computation is quiet about [cb] when, started with [cb] not
    registered, it leaves [cb] unregistered and does not call it. *)
Definition quiet {A} (cb : listener) (c : M world A) : Prop :=
  ∀ w, cb ∉ changeListeners w →
    (cb ∉ changeListeners (exec c w))
    ∧ (∃ new, calls (exec c w) = calls w ++ new ∧ cb ∉ invoked new).

End WindyService.

(** ** [config/env.ts]: environment-driven configuration *)

Module Env.

(** Where configuration comes from: the optional runtime object
    [window._env_] and the build-time [process.env]. *)
Record sources : Type := {
  window_env : option (gmap string string);
  process_env : gmap string string;
}.

Definition varName (key : string) : string := "REACT_APP_" +:+ key.

(** The value of [window._env_ && window._env_[name]] when it is
    truthy: [window._env_] exists, has the key, and the string is not
    empty. *)
Definition runtimeValue (E : sources) (name : string) : option string :=
  we ← window_env E ;
  v ← we !! name ;
  if truthy v then Some v else None.

Definition getEnvVar (E : sources) (key : string) (fallback : string) : string :=
  match runtimeValue E (varName key) with
  | Some v => v
  | None =>
      match process_env E !! varName key with
      | Some envVar => envVar
      | None => fallback
      end
  end.

(** A reading of the built-in [parseFloat] on ASCII input, used to run
    the configuration on examples: leading white space is skipped, the
    longest prefix that is a decimal literal (sign, digits, fraction,
    exponent, or [Infinity]) is read, anything else gives [NaN].  The
    value is the exact decimal. *)
Definition digit (c : ascii) : option Z :=
  let n := Z.of_N (N_of_ascii c) in
  if ((48 <=? n) && (n <=? 57))%Z then Some (n - 48)%Z else None.

Fixpoint digits (s : string) (acc : Z) (n : nat) : Z * nat * string :=
  match s with
  | String c s' =>
      match digit c with
      | Some d => digits s' (10 * acc + d)%Z (S n)
      | None => (acc, n, s)
      end
  | EmptyString => (acc, n, s)
  end.

Definition isWhite (c : ascii) : bool :=
  let n := N_of_ascii c in
  ((9 <=? n) && (n <=? 13) || (n =? 32))%N.

Fixpoint skipWhite (s : string) : string :=
  match s with
  | String c s' => if isWhite c then skipWhite s' else s
  | EmptyString => s
  end.

Definition sign (s : string) : bool * string :=
  match s with
  | String "-" r => (true, r)
  | String "+" r => (false, r)
  | _ => (false, s)
  end.

Definition exponent (s : string) : Z :=
  match s with
  | String c r =>
      if bool_decide (c = "e"%char ∨ c = "E"%char) then
        let '(neg, r') := sign r in
        let '(ev, ne, _) := digits r' 0%Z 0%nat in
        if (ne =? 0)%nat then 0%Z else if neg then (- ev)%Z else ev
      else 0%Z
  | EmptyString => 0%Z
  end.

Definition scale (m e : Z) : Q :=
  if (0 <=? e)%Z then inject_Z (m * 10 ^ e)
  else Qmake m (Z.to_pos (10 ^ (- e))).

Definition parseFloat (value : string) : number :=
  let '(neg, s) := sign (skipWhite value) in
  if String.prefix "Infinity" s then Infinity neg else
  let '(ip, ni, s1) := digits s 0%Z 0%nat in
  let '(fp, nf, s2) :=
    match s1 with
    | String "." r => digits r 0%Z 0%nat
    | _ => (0%Z, 0%nat, s1)
    end in
  if (ni + nf =? 0)%nat then NaN else
  let m := (ip * 10 ^ Z.of_nat nf + fp)%Z in
  Num (scale (if neg then (- m)%Z else m) (exponent s2 - Z.of_nat nf)).

Record AppEnv : Type := {
  API_URL : string;
  WINDY_API_KEY : string;
  MAP_CENTER_LAT : number;
  MAP_CENTER_LNG : number;
  MAP_DEFAULT_ZOOM : number;
  DETAILED_TILES_URL : string;
}.

Section Config.

(** The built-in the numeric entries go through; the results below
    hold for whatever it computes. *)
Variable parseFloat : string → number.

Definition parseNumber (value : string) (fallback : number) : number :=
  let parsed := parseFloat value in
  if isNaN parsed then fallback else parsed.

Definition env (E : sources) : AppEnv := {|
  API_URL := getEnvVar E "API_URL" "http://localhost:3001/api";
  WINDY_API_KEY := getEnvVar E "WINDY_API_KEY" "";
  MAP_CENTER_LAT :=
    parseNumber (getEnvVar E "MAP_CENTER_LAT" "10.835") (Num (10835 # 1000));
  MAP_CENTER_LNG :=
    parseNumber (getEnvVar E "MAP_CENTER_LNG" "106.769") (Num (106769 # 1000));
  MAP_DEFAULT_ZOOM :=
    parseNumber (getEnvVar E "MAP_DEFAULT_ZOOM" "9") (Num 9);
  DETAILED_TILES_URL :=
    getEnvVar E "DETAILED_TILES_URL"
      "https://server.arcgisonline.com/ArcGIS/rest/services/World_Imagery/MapServer/tile/{z}/{y}/{x}";
|}.

End Config.

(** The hardcoded fallback of each configuration key, as written in
    [env]. *)
Definition fallbackOf (key : string) : string :=
  if bool_decide (key = "API_URL") then "http://localhost:3001/api"
  else if bool_decide (key = "MAP_CENTER_LAT") then "10.835"
  else if bool_decide (key = "MAP_CENTER_LNG") then "106.769"
  else if bool_decide (key = "MAP_DEFAULT_ZOOM") then "9"
  else if bool_decide (key = "DETAILED_TILES_URL") then
    "https://server.arcgisonline.com/ArcGIS/rest/services/World_Imagery/MapServer/tile/{z}/{y}/{x}"
  else "".

End Env.

(** ** [services/mockDataService.ts] *)

Module MockDataService.

Record DataPoint : Type := {
  id : string;
  lat : number;
  lng : number;
  value : number;
  name : string;
  description : string;
}.

Definition getDataPoints (dataset : string) : list DataPoint :=
  if bool_decide (dataset = "weather-stations") then
    [ {| id := "station1"; lat := Num (10835 # 1000); lng := Num (106769 # 1000);
         value := Num 75; name := "Station Alpha";
         description := "Weather monitoring station in central location" |};
      {| id := "station2"; lat := Num (10855 # 1000); lng := Num (106789 # 1000);
         value := Num 42; name := "Station Beta";
         description := "Urban environment station" |};
      {| id := "station3"; lat := Num (10815 # 1000); lng := Num (106749 # 1000);
         value := Num 88; name := "Station Gamma";
         description := "High precision weather station" |} ]
  else if bool_decide (dataset = "pollution-data") then
    [ {| id := "pollution1"; lat := Num (10835 # 1000); lng := Num (106769 # 1000);
         value := Num 65; name := "Air Quality Station 1";
         description := "PM2.5 concentration" |};
      {| id := "pollution2"; lat := Num (10855 # 1000); lng := Num (106789 # 1000);
         value := Num 35; name := "Air Quality Station 2";
         description := "PM2.5 concentration" |};
      {| id := "pollution3"; lat := Num (10815 # 1000); lng := Num (106749 # 1000);
         value := Num 82; name := "Air Quality Station 3";
         description := "PM2.5 concentration" |} ]
  else
    [ {| id := "point1"; lat := Num (10835 # 1000); lng := Num (106769 # 1000);
         value := Num 50; name := "Sample Point 1";
         description := "Generic data point" |};
      {| id := "point2"; lat := Num (10855 # 1000); lng := Num (106789 # 1000);
         value := Num 50; name := "Sample Point 2";
         description := "Generic data point" |} ].

End MockDataService.

(** ** [hooks/useDataFetching.ts] *)

Module useDataFetching.

Import MockDataService.

(** [const USE_MOCK_DATA = true;] *)
Definition USE_MOCK_DATA : bool := true.

Inductive httpMethod : Type := GET | POST | PUT | DELETE.

#[global] Instance httpMethod_eq_dec : EqDecision httpMethod.
Proof. solve_decision. Defined.

(** [FetchOptions]; an optional field that is left out is [None]. *)
Record FetchOptions : Type := {
  endpoint : string;
  method : option httpMethod;
  params : option (gmap string string);
  body : option string;
  headers : option (gmap string string);
  autoFetch : option bool;
}.

(** [Partial<FetchOptions>]: every field may be left out. *)
Record PartialOptions : Type := {
  endpoint' : option string;
  method' : option httpMethod;
  params' : option (gmap string string);
  body' : option string;
  headers' : option (gmap string string);
  autoFetch' : option bool;
}.

Definition override {A} (custom dflt : option A) : option A :=
  match custom with Some a => Some a | None => dflt end.

(** [{ ...options, ...customOptions }] *)
Definition merge (options : FetchOptions) (customOptions : option PartialOptions)
  : FetchOptions :=
  match customOptions with
  | None => options
  | Some c =>
      {| endpoint := default (endpoint options) (endpoint' c);
         method := override (method' c) (method options);
         params := override (params' c) (params options);
         body := override (body' c) (body options);
         headers := override (headers' c) (headers options);
         autoFetch := override (autoFetch' c) (autoFetch options) |}
  end.

(** [s.split(sep)] for a one-character separator: never empty. *)
Fixpoint split (sep : ascii) (s : string) : list string :=
  match s with
  | EmptyString => [EmptyString]
  | String c s' =>
      if bool_decide (c = sep) then EmptyString :: split sep s'
      else match split sep s' with
           | seg :: segs => String c seg :: segs
           | [] => [String c EmptyString]
           end
  end.

(** [endpoint.split('/').pop() || endpoint] *)
Definition datasetName (endpoint : string) : string :=
  match last (split "/" endpoint) with
  | Some seg => if truthy seg then seg else endpoint
  | None => endpoint
  end.

Definition getMockData (options : FetchOptions) : list DataPoint :=
  getDataPoints (datasetName (endpoint options)).

Section Hook.

(** The type of a decoded response body, and [env.API_URL]. *)
Variable J : Type.
Variable API_URL : string.

(** The hook's type parameter [T] at run time: mock records or a
    decoded response. *)
Inductive data : Type :=
| MockRecords (points : list DataPoint)
| ResponseData (json : J).

Record FetchState : Type := {
  fdata : option data;
  loading : bool;
  error : option string;
  timestamp : option Z;
}.

Record request : Type := {
  url : string;
  query : gmap string string;
  reqMethod : option httpMethod;
  reqHeaders : gmap string string;
  reqBody : option string;
}.

Record response : Type := {
  ok : bool;
  status : string;
  statusText : string;
  json : outcome J;
}.

Inductive effect : Type :=
| SetState (s : FetchState)
| SetTimeout (ms : Z)
| Fetch (r : request).

(** The hook's state cell, the clock read by [Date.now()], the
    outside ([new URL] accepting a string, the server answering a
    request) and the effects performed so far. *)
Record world : Type := {
  state : FetchState;
  now : Z;
  validUrl : string → bool;
  server : request → outcome response;
  effects : list effect;
}.

(** [useState] initial value. *)
Definition initialState (options : FetchOptions) : FetchState :=
  {| fdata := None; loading := default true (autoFetch options);
     error := None; timestamp := None |}.

Definition setState (f : FetchState → FetchState) : M world unit :=
  modify (λ w, {| state := f (state w); now := now w; validUrl := validUrl w;
                  server := server w;
                  effects := effects w ++ [SetState (f (state w))] |}).

(** [await new Promise(resolve => setTimeout(resolve, ms))]: the
    timer is started and the clock has advanced when the code
    resumes. *)
Definition delay (ms : Z) : M world unit :=
  modify (λ w, {| state := state w; now := (now w + ms)%Z; validUrl := validUrl w;
                  server := server w;
                  effects := effects w ++ [SetTimeout ms] |}).

Definition dateNow : M world Z := w ← get ; mret (now w).

(** [new URL(s)]: a [TypeError] on a string that is not a URL. *)
Definition newURL (s : string) : M world string :=
  w ← get ;
  if validUrl w s then mret s else throw (ErrorObj "TypeError: Invalid URL").

(** [await fetch(url, requestOptions)] *)
Definition fetch (r : request) : M world response :=
  modify (λ w, {| state := state w; now := now w; validUrl := validUrl w;
                  server := server w; effects := effects w ++ [Fetch r] |}) ;;
  w ← get ;
  match server w r with
  | Ok resp => mret resp
  | Throw e => throw e
  end.

Definition lift {A} (o : outcome A) : M world A :=
  match o with Ok a => mret a | Throw e => throw e end.

(** [buildUrl]: the hook's own endpoint and params. *)
Definition buildUrl (options : FetchOptions) : M world (string * gmap string string) :=
  u ← newURL (API_URL +:+ "/" +:+ endpoint options) ;
  mret (u, default ∅ (params options)).

Definition fetchData (options : FetchOptions) (customOptions : option PartialOptions)
  : M world data :=
  let mergedOptions := merge options customOptions in
  setState (λ prev, {| fdata := fdata prev; loading := true; error := None;
                       timestamp := timestamp prev |}) ;;
  if USE_MOCK_DATA then
    try_catch
      (delay 500 ;;
       let mockData := MockRecords (getMockData options) in
       t ← dateNow ;
       setState (λ _, {| fdata := Some mockData; loading := false; error := None;
                         timestamp := Some t |}) ;;
       mret mockData)
      (λ error,
         let errorObj := asError "Error getting mock data" error in
         t ← dateNow ;
         setState (λ prev, {| fdata := fdata prev; loading := false;
                              error := Some errorObj; timestamp := Some t |}) ;;
         throw (ErrorObj errorObj))
  else
    try_catch
      (let hdrs := default ∅ (headers mergedOptions)
                   ∪ {[ "Content-Type" := "application/json" ]} in
       let bdy := if bool_decide (method mergedOptions ≠ Some GET)
                  then body mergedOptions else None in
       '(u, q) ← match customOptions ≫= params' with
                 | Some _ =>
                     u ← newURL (API_URL +:+ "/" +:+ endpoint mergedOptions) ;
                     mret (u, ∅)
                 | None => buildUrl options
                 end ;
       resp ← fetch {| url := u; query := q; reqMethod := method mergedOptions;
                       reqHeaders := hdrs; reqBody := bdy |} ;
       (if ok resp then mret tt
        else throw (ErrorObj ("API error: " +:+ status resp +:+ " " +:+ statusText resp))) ;;
       responseData ← lift (json resp) ;
       t ← dateNow ;
       setState (λ _, {| fdata := Some (ResponseData responseData); loading := false;
                         error := None; timestamp := Some t |}) ;;
       mret (ResponseData responseData))
      (λ error,
         let errorObj := asError "Unknown error" error in
         t ← dateNow ;
         setState (λ prev, {| fdata := fdata prev; loading := false;
                              error := Some errorObj; timestamp := Some t |}) ;;
         throw (ErrorObj errorObj)).

Definition isFetch (e : effect) : bool :=
  match e with Fetch _ => true | _ => false end.

End Hook.

Arguments MockRecords {J} points.
Arguments ResponseData {J} json.
Arguments fdata {J} f.
Arguments loading {J} f.
Arguments error {J} f.
Arguments timestamp {J} f.
Arguments SetState {J} s.
Arguments SetTimeout {J} ms.
Arguments Fetch {J} r.
Arguments state {J} w.
Arguments now {J} w.
Arguments validUrl {J} w.
Arguments server {J} w.
Arguments effects {J} w.
Arguments initialState {J} options.
Arguments fetchData {J} API_URL options customOptions.
Arguments isFetch {J} e.

(** The last ['/']-separated segment of a string, as the specification
    words it. *)
Definition lastSegment (endpoint : string) : string :=
  default EmptyString (last (split "/" endpoint)).

End useDataFetching.

(** ** [components/Map/MapContainer.tsx] *)

Module MapContainer.

Inductive script : Type := Leaflet | Windy.

#[global] Instance script_eq_dec : EqDecision script.
Proof. solve_decision. Defined.

(** What the component does to the page and the engine, and what the
    page reports back, in order of occurrence. *)
Inductive event : Type :=
| AppendScript (s : script)
| AppendLeafletCss
| ScriptLoaded (s : script)
| ScriptFailed (s : script)
| CallWindyInit
| InvalidateSizeScheduled.

#[global] Instance event_eq_dec : EqDecision event.
Proof. solve_decision. Defined.

(** Where the asynchronous [loadScripts] currently stands: not called
    yet, suspended on the promise of one of the two scripts, or
    returned. *)
Inductive loader : Type := NotStarted | AwaitLeaflet | AwaitWindy | Returned.

(** - [window_L], [windyInit]: [window.L] is set, [typeof
      window.windyInit === 'function'];
    - [windyEl]: the container [<div id="windy">] when it is in the
      document, with its class list; it is the element
      [windyContainerRef.current] and [getElementById('windy')] give;
    - the component's own [useState]/[useRef] cells and the context;
    - [redrawHandler]: the ['redrawFinished'] handler once registered,
      with the truthiness of the [windyAPI.map] it closes over;
    - [callbackGiven]: the engine holds the callback of [windyInit]. *)
Record world : Type := {
  window_L : bool;
  windyInit : bool;
  windyEl : option (gset string);
  scriptsLoaded : bool;
  status : string;
  initAttemptedRef : bool;
  showBackupLayer : bool;
  ctx : MapContext.state;
  loadScriptsAt : loader;
  redrawHandler : option bool;
  callbackGiven : bool;
  events : list event;
}.

(** The component as first rendered inside a fresh [MapProvider]. *)
Definition mounted (L init : bool) (el : option (gset string)) : world := {|
  window_L := L;
  windyInit := init;
  windyEl := el;
  scriptsLoaded := false;
  status := "Initializing...";
  initAttemptedRef := false;
  showBackupLayer := gt (MapContext.currentZoom MapContext.initial) (Num 10);
  ctx := MapContext.initial;
  loadScriptsAt := NotStarted;
  redrawHandler := None;
  callbackGiven := false;
  events := [];
|}.

Definition setWindow (L init : bool) (w : world) : world :=
  {| window_L := L; windyInit := init; windyEl := windyEl w;
     scriptsLoaded := scriptsLoaded w; status := status w;
     initAttemptedRef := initAttemptedRef w; showBackupLayer := showBackupLayer w;
     ctx := ctx w; loadScriptsAt := loadScriptsAt w;
     redrawHandler := redrawHandler w; callbackGiven := callbackGiven w;
     events := events w |}.

Definition setClasses (f : gset string → gset string) (w : world) : world :=
  {| window_L := window_L w; windyInit := windyInit w; windyEl := f <$> windyEl w;
     scriptsLoaded := scriptsLoaded w; status := status w;
     initAttemptedRef := initAttemptedRef w; showBackupLayer := showBackupLayer w;
     ctx := ctx w; loadScriptsAt := loadScriptsAt w;
     redrawHandler := redrawHandler w; callbackGiven := callbackGiven w;
     events := events w |}.

Definition setScriptsLoaded (v : bool) (w : world) : world :=
  {| window_L := window_L w; windyInit := windyInit w; windyEl := windyEl w;
     scriptsLoaded := v; status := status w;
     initAttemptedRef := initAttemptedRef w; showBackupLayer := showBackupLayer w;
     ctx := ctx w; loadScriptsAt := loadScriptsAt w;
     redrawHandler := redrawHandler w; callbackGiven := callbackGiven w;
     events := events w |}.

Definition setStatus (v : string) (w : world) : world :=
  {| window_L := window_L w; windyInit := windyInit w; windyEl := windyEl w;
     scriptsLoaded := scriptsLoaded w; status := v;
     initAttemptedRef := initAttemptedRef w; showBackupLayer := showBackupLayer w;
     ctx := ctx w; loadScriptsAt := loadScriptsAt w;
     redrawHandler := redrawHandler w; callbackGiven := callbackGiven w;
     events := events w |}.

Definition setInitAttempted (v : bool) (w : world) : world :=
  {| window_L := window_L w; windyInit := windyInit w; windyEl := windyEl w;
     scriptsLoaded := scriptsLoaded w; status := status w;
     initAttemptedRef := v; showBackupLayer := showBackupLayer w;
     ctx := ctx w; loadScriptsAt := loadScriptsAt w;
     redrawHandler := redrawHandler w; callbackGiven := callbackGiven w;
     events := events w |}.

Definition setShowBackupLayer (v : bool) (w : world) : world :=
  {| window_L := window_L w; windyInit := windyInit w; windyEl := windyEl w;
     scriptsLoaded := scriptsLoaded w; status := status w;
     initAttemptedRef := initAttemptedRef w; showBackupLayer := v;
     ctx := ctx w; loadScriptsAt := loadScriptsAt w;
     redrawHandler := redrawHandler w; callbackGiven := callbackGiven w;
     events := events w |}.

Definition inContext (f : MapContext.state → MapContext.state) (w : world) : world :=
  {| window_L := window_L w; windyInit := windyInit w; windyEl := windyEl w;
     scriptsLoaded := scriptsLoaded w; status := status w;
     initAttemptedRef := initAttemptedRef w; showBackupLayer := showBackupLayer w;
     ctx := f (ctx w); loadScriptsAt := loadScriptsAt w;
     redrawHandler := redrawHandler w; callbackGiven := callbackGiven w;
     events := events w |}.

Definition suspendAt (v : loader) (w : world) : world :=
  {| window_L := window_L w; windyInit := windyInit w; windyEl := windyEl w;
     scriptsLoaded := scriptsLoaded w; status := status w;
     initAttemptedRef := initAttemptedRef w; showBackupLayer := showBackupLayer w;
     ctx := ctx w; loadScriptsAt := v;
     redrawHandler := redrawHandler w; callbackGiven := callbackGiven w;
     events := events w |}.

Definition setRedrawHandler (v : option bool) (w : world) : world :=
  {| window_L := window_L w; windyInit := windyInit w; windyEl := windyEl w;
     scriptsLoaded := scriptsLoaded w; status := status w;
     initAttemptedRef := initAttemptedRef w; showBackupLayer := showBackupLayer w;
     ctx := ctx w; loadScriptsAt := loadScriptsAt w;
     redrawHandler := v; callbackGiven := callbackGiven w;
     events := events w |}.

Definition setCallbackGiven (v : bool) (w : world) : world :=
  {| window_L := window_L w; windyInit := windyInit w; windyEl := windyEl w;
     scriptsLoaded := scriptsLoaded w; status := status w;
     initAttemptedRef := initAttemptedRef w; showBackupLayer := showBackupLayer w;
     ctx := ctx w; loadScriptsAt := loadScriptsAt w;
     redrawHandler := redrawHandler w; callbackGiven := v;
     events := events w |}.

Definition emit (e : event) (w : world) : world :=
  {| window_L := window_L w; windyInit := windyInit w; windyEl := windyEl w;
     scriptsLoaded := scriptsLoaded w; status := status w;
     initAttemptedRef := initAttemptedRef w; showBackupLayer := showBackupLayer w;
     ctx := ctx w; loadScriptsAt := loadScriptsAt w;
     redrawHandler := redrawHandler w; callbackGiven := callbackGiven w;
     events := events w ++ [e] |}.

(** *** Step 1: [loadScripts]

    The function is asynchronous: it runs until it awaits the promise
    of a script it appended, and resumes when the script's [onload] or
    [onerror] settles that promise.  A rejection is a [throw] inside
    the [try] block. *)

(** [catch (err) { ... }] *)
Definition loadScripts_catch (err : thrown) : M world unit :=
  modify (inContext
            (MapContext.setMapError (Some (asError "Unknown error loading scripts" err)))) ;;
  modify (setStatus "Failed to load scripts") ;;
  modify (suspendAt Returned).

(** After both scripts: [setScriptsLoaded(true)]. *)
Definition loadScripts_done : M world unit :=
  modify (setScriptsLoaded true) ;;
  modify (setStatus "Scripts loaded successfully") ;;
  modify (suspendAt Returned).

(** From [if (typeof window.windyInit !== 'function')] on. *)
Definition loadScripts_windy : M world unit :=
  w ← get ;
  if negb (windyInit w) then
    modify (setStatus "Loading Windy API...") ;;
    modify (emit (AppendScript Windy)) ;;
    modify (suspendAt AwaitWindy)
  else loadScripts_done.

(** From the top: [if (!window.L)]. *)
Definition loadScripts_top : M world unit :=
  w ← get ;
  if negb (window_L w) then
    modify (setStatus "Loading Leaflet...") ;;
    modify (emit (AppendScript Leaflet)) ;;
    modify (emit AppendLeafletCss) ;;
    modify (suspendAt AwaitLeaflet)
  else loadScripts_windy.

Definition loadScripts : M world unit :=
  try_catch loadScripts_top loadScripts_catch.

(** [script.onload]: the script has run and may have defined its
    global ([defines]); the awaited promise settles and [loadScripts]
    resumes. *)
Definition onload (s : script) (defines : bool) : M world unit :=
  w ← get ;
  match loadScriptsAt w, s with
  | AwaitLeaflet, Leaflet =>
      modify (emit (ScriptLoaded Leaflet)) ;;
      modify (setWindow (window_L w || defines) (windyInit w)) ;;
      try_catch loadScripts_windy loadScripts_catch
  | AwaitWindy, Windy =>
      modify (emit (ScriptLoaded Windy)) ;;
      modify (setWindow (window_L w) (windyInit w || defines)) ;;
      try_catch
        (w' ← get ;
         (if windyInit w' then mret tt
          else throw (ErrorObj "Windy API loaded but windyInit function not found")) ;;
         loadScripts_done)
        loadScripts_catch
  | _, _ => mret tt
  end.

(** [script.onerror] *)
Definition onerror (s : script) : M world unit :=
  w ← get ;
  match loadScriptsAt w, s with
  | AwaitLeaflet, Leaflet =>
      modify (emit (ScriptFailed Leaflet)) ;;
      try_catch (throw (ErrorObj "Failed to load Leaflet")) loadScripts_catch
  | AwaitWindy, Windy =>
      modify (emit (ScriptFailed Windy)) ;;
      try_catch (throw (ErrorObj "Failed to load Windy API")) loadScripts_catch
  | _, _ => mret tt
  end.

(** *** Step 2: the initialisation effect *)

(** [initializeWindy]; [throws] is what the call of [window.windyInit]
    itself throws, if anything. *)
Definition initializeWindy (throws : option thrown) : M world unit :=
  modify (setInitAttempted true) ;;
  try_catch
    (modify (setStatus "Initializing Windy...") ;;
     w ← get ;
     if negb (windyInit w) then throw (ErrorObj "windyInit function not available")
     else
       modify (emit CallWindyInit) ;;
       modify (setCallbackGiven true) ;;
       match throws with Some e => throw e | None => mret tt end)
    (λ err,
       modify (setInitAttempted false) ;;
       modify (inContext
                 (MapContext.setMapError
                    (Some (asError "Unknown error initializing Windy" err)))) ;;
       modify (setStatus "Failed to initialize Windy")).

Definition initEffect (throws : option thrown) : M world unit :=
  w ← get ;
  if initAttemptedRef w || negb (scriptsLoaded w) || negb (bool_decide (is_Some (windyEl w)))
  then mret tt
  else initializeWindy throws.

Definition classList_add (c : string) : M world unit :=
  modify (setClasses (λ cs, cs ∪ {[c]})).

Definition classList_remove (c : string) : M world unit :=
  modify (setClasses (λ cs, cs ∖ {[c]})).

(** The ['redrawFinished'] handler; [hasMap] is the truthiness of the
    [windyAPI.map] it closes over, [zoom] what [store.get('mapCoords')]
    reports. *)
Definition onRedrawFinished (hasMap : bool) (zoom : number) : M world unit :=
  modify (inContext (MapContext.setCurrentZoom zoom)) ;;
  let shouldShowDetailedView := gt zoom (Num 10) in
  modify (setShowBackupLayer shouldShowDetailedView) ;;
  if hasMap && shouldShowDetailedView
  then classList_add "windy-hidden"
  else classList_remove "windy-hidden".

(** The callback handed to [windyInit]; [serviceThrows] tells whether
    [new WindyService(...)] throws. *)
Definition windyCallback (hasMap serviceThrows : bool) : M world unit :=
  modify (setStatus "Windy initialized successfully") ;;
  modify (inContext (MapContext.setWindyInstance true)) ;;
  modify (inContext (MapContext.setLeafletMap hasMap)) ;;
  modify (setRedrawHandler (Some hasMap)) ;;
  try_catch
    ((if serviceThrows then throw (ErrorObj "WindyService") else mret tt) ;;
     modify (inContext (MapContext.setWindyService true)) ;;
     modify (inContext (MapContext.setIsMapLoading false)))
    (λ _, modify (inContext (MapContext.setIsMapLoading false))).

(** The ['zoomend'] handler; [newZoom] is [leafletMap.getZoom()]. *)
Definition handleZoomEnd (newZoom : number) : M world unit :=
  modify (inContext (MapContext.setCurrentZoom newZoom)) ;;
  let shouldShowDetailedView := gt newZoom (Num 10) in
  modify (setShowBackupLayer shouldShowDetailedView) ;;
  if shouldShowDetailedView
  then classList_add "windy-hidden" ;; modify (emit InvalidateSizeScheduled)
  else classList_remove "windy-hidden".

(** *** The component as a machine

    What can happen to a mounted component: its first effect runs, a
    script settles, the initialisation effect runs, the engine calls
    back, the engine or the map reports a zoom.  An input the
    component is not listening for leaves it as it is. *)
Inductive input : Type :=
| Mount
| Onload (s : script) (defines : bool)
| Onerror (s : script)
| RunInitEffect (throws : option thrown)
| WindyCallback (hasMap serviceThrows : bool)
| RedrawFinished (zoom : number)
| ZoomEnd (zoom : number).

Definition react (i : input) : M world unit :=
  match i with
  | Mount =>
      w ← get ;
      match loadScriptsAt w with
      | NotStarted => loadScripts
      | _ => mret tt
      end
  | Onload s defines => onload s defines
  | Onerror s => onerror s
  | RunInitEffect throws => initEffect throws
  | WindyCallback hasMap serviceThrows =>
      w ← get ;
      if callbackGiven w then windyCallback hasMap serviceThrows else mret tt
  | RedrawFinished zoom =>
      w ← get ;
      match redrawHandler w with
      | Some hasMap => onRedrawFinished hasMap zoom
      | None => mret tt
      end
  | ZoomEnd zoom =>
      w ← get ;
      if MapContext.leafletMap (ctx w) then handleZoomEnd zoom else mret tt
  end.

Definition step (i : input) (w : world) : world := exec (react i) w.

Definition run (ins : list input) (w : world) : world :=
  foldl (λ w i, step i w) w ins.

(** The events [step i w] adds to the log. *)
Definition emitted (i : input) (w : world) : list event :=
  drop (length (events w)) (events (step i w)).

(** *** What the component renders *)

Record mapView : Type := {
  detailedViewMode : bool;
  containerClass : gset string;
  backupLayer : bool;
  controls : bool;
}.

Inductive view : Type :=
| LoadingOverlay (status : string)
| ErrorOverlay (message : string)
| MapView (v : mapView).

(** The [className] given to the container in the map view. *)
Definition containerClassName (showBackupLayer : bool) : gset string :=
  {["windy-container"]} ∪ (if showBackupLayer then {["windy-hidden"]} else ∅).

Definition render (w : world) : view :=
  if MapContext.isMapLoading (ctx w) then LoadingOverlay (status w)
  else match MapContext.mapError (ctx w) with
       | Some message => ErrorOverlay message
       | None =>
           MapView {| detailedViewMode := showBackupLayer w;
                      containerClass := containerClassName (showBackupLayer w);
                      backupLayer := MapContext.leafletMap (ctx w);
                      controls := MapContext.windyService (ctx w)
                                  && negb (showBackupLayer w) |}
       end.

(** Whether the container carries the class [windy-hidden]; [None]
    when there is no container in the document. *)
Definition windyHidden (w : world) : option bool :=
  (λ cs : gset string, bool_decide ("windy-hidden" ∈ cs)) <$> windyEl w.

(** *** The loading protocol

    The machine seen through the position of [loadScripts], the
    [scriptsLoaded] flag and the events added to the log: every step of
    the component is one of these transitions. *)
Inductive transition (w w' : world) : list event → Prop :=
| Stays (new : list event) :
    new = [] ∨ new = [InvalidateSizeScheduled] →
    loadScriptsAt w' = loadScriptsAt w →
    scriptsLoaded w' = scriptsLoaded w →
    transition w w' new
| AppendsLeaflet :
    loadScriptsAt w = NotStarted →
    window_L w = false →
    loadScriptsAt w' = AwaitLeaflet →
    scriptsLoaded w' = scriptsLoaded w →
    transition w w' [AppendScript Leaflet; AppendLeafletCss]
| AppendsWindy (settled : list event) :
    loadScriptsAt w = NotStarted ∧ settled = []
    ∨ loadScriptsAt w = AwaitLeaflet ∧ settled = [ScriptLoaded Leaflet] →
    windyInit w = false →
    loadScriptsAt w' = AwaitWindy →
    scriptsLoaded w' = scriptsLoaded w →
    transition w w' (settled ++ [AppendScript Windy])
| Finishes (settled : list event) :
    loadScriptsAt w = NotStarted ∧ settled = []
    ∨ loadScriptsAt w = AwaitLeaflet ∧ settled = [ScriptLoaded Leaflet]
    ∨ loadScriptsAt w = AwaitWindy ∧ settled = [ScriptLoaded Windy] →
    loadScriptsAt w' = Returned →
    scriptsLoaded w' = true →
    transition w w' settled
| Fails (s : script) (settled : event) :
    loadScriptsAt w = AwaitLeaflet ∧ s = Leaflet
    ∨ loadScriptsAt w = AwaitWindy ∧ s = Windy →
    settled = ScriptFailed s ∨ settled = ScriptLoaded s →
    loadScriptsAt w' = Returned →
    scriptsLoaded w' = scriptsLoaded w →
    transition w w' [settled]
| CallsWindyInit :
    scriptsLoaded w = true →
    loadScriptsAt w' = loadScriptsAt w →
    scriptsLoaded w' = scriptsLoaded w →
    transition w w' [CallWindyInit].

(** What holds of every world the component reaches: [scriptsLoaded] is
    set only by a loader that has returned, with every appended script
    loaded; and every call of [windyInit] in the log comes after that. *)
Definition loadedBeforeInit (w : world) : Prop :=
  (scriptsLoaded w = true → loadScriptsAt w = Returned)
  ∧ (loadScriptsAt w = NotStarted → ∀ s, AppendScript s ∉ events w)
  ∧ (loadScriptsAt w = AwaitLeaflet → AppendScript Windy ∉ events w)
  ∧ (loadScriptsAt w = AwaitWindy →
     AppendScript Leaflet ∈ events w → ScriptLoaded Leaflet ∈ events w)
  ∧ (scriptsLoaded w = true →
     ∀ s, AppendScript s ∈ events w → ScriptLoaded s ∈ events w)
  ∧ (∀ pre post, events w = pre ++ CallWindyInit :: post →
     scriptsLoaded w = true
     ∧ ∀ s, AppendScript s ∈ events w → ScriptLoaded s ∈ pre).

End MapContainer.

(** ** Further operations of the map context *)

Module MapContextOps.

Import MapContext.

(** A series of calls of [toggleLayerVisibility], one per id, in
    order. *)
Definition toggleAll (ids : list string) (s : state) : state :=
  foldl (λ s layerId, toggleLayerVisibility layerId s) s ids.

(** How often [layerId] occurs in a series of toggles. *)
Definition timesToggled (layerId : string) (ids : list string) : nat :=
  length (filter (λ id, id = layerId) ids).

End MapContextOps.

(** ** Runs of the map container: what the engine's callback gates *)

Module MapContainerRuns.

Import MapContainer.

(** Everything that depends on the engine's callback is off until
    [windyInit] has been called; and a loader that returned without
    setting [scriptsLoaded] has stored its error. *)
Definition gatedByInit (w : world) : Prop :=
  (callbackGiven w = true → CallWindyInit ∈ events w)
  ∧ (MapContext.isMapLoading (ctx w) = false → callbackGiven w = true)
  ∧ (is_Some (redrawHandler w) → callbackGiven w = true)
  ∧ (MapContext.leafletMap (ctx w) = true → callbackGiven w = true)
  ∧ (loadScriptsAt w = Returned → scriptsLoaded w = false →
     is_Some (MapContext.mapError (ctx w)) ∧ status w = "Failed to load scripts").

(** The calls of [windyInit] in a log, and the initialisation attempts
    of a run in which the call itself throws. *)
Definition initCalls (es : list event) : nat :=
  length (filter (λ e, e = CallWindyInit) es).

Definition throwing (i : input) : bool :=
  match i with
  | RunInitEffect (Some _) => true
  | _ => false
  end.

Definition failedAttempts (ins : list input) : nat :=
  length (filter (λ i, throwing i = true) ins).

End MapContainerRuns.

(** ** The options [MapContainer] hands to [windyInit] *)

Module MapContainerOptions.

Import Env.

Record units : Type := {
  temperature : string;
  wind : string;
  pressure : string;
  distance : string;
}.

Record options : Type := {
  key : string;
  verbose : bool;
  lat : number;
  lon : number;
  zoom : number;
  timestamp : Z;
  hourFormat : string;
  graticule : bool;
  useDefaultInjectableCSS : bool;
  useOverlay : bool;
  useApiFrame : bool;
  overlay : string;
  level : string;
  unitsOf : units;
}.

(** The object literal built in [initializeWindy]; [dateNow] is what
    [Date.now()] returns, in milliseconds. *)
Definition windyOptions (e : AppEnv) (dateNow : Z) : options := {|
  key := if truthy (WINDY_API_KEY e) then WINDY_API_KEY e
         else "3HFvxAW5zvdalES1JlOw6kNyHybrp1j7";
  verbose := true;
  lat := MAP_CENTER_LAT e;
  lon := MAP_CENTER_LNG e;
  zoom := MAP_DEFAULT_ZOOM e;
  timestamp := (dateNow / 1000)%Z;
  hourFormat := "24h";
  graticule := true;
  useDefaultInjectableCSS := false;
  useOverlay := false;
  useApiFrame := false;
  overlay := "wind";
  level := "surface";
  unitsOf := {| temperature := "C"; wind := "m/s"; pressure := "hPa"; distance := "km" |};
|}.

End MapContainerOptions.

(** ** [hooks/useDataFetching.ts]: what the hook returns besides
    [fetchData] *)

Module useDataFetchingHook.

Import useDataFetching.

Section Hook.

Variable J : Type.
Variable API_URL : string.

(** [refetch = () => fetchData()] *)
Definition refetch (options : FetchOptions) : M (world J) (data J) :=
  fetchData API_URL options None.

(** [fetchWithParams = newParams => fetchData({ params: newParams })] *)
Definition fetchWithParams (options : FetchOptions) (newParams : gmap string string)
  : M (world J) (data J) :=
  fetchData API_URL options
    (Some {| endpoint' := None; method' := None; params' := Some newParams;
             body' := None; headers' := None; autoFetch' := None |}).

End Hook.

Arguments refetch {J} API_URL options.
Arguments fetchWithParams {J} API_URL options newParams.

End useDataFetchingHook.

(** ** [context/MapContext.tsx]: the markers *)

Module MapMarkers.

(** A layer on the Leaflet map is an object: either one this code did
    not create, known by a name, or the [n]-th marker created here. *)
Definition layer : Type := (string + nat)%type.

Record marker : Type := {
  created : nat;
  position : GeoPoint;
}.

(** [leafletMap] with the layers on it ([None]: no map yet), the
    [markers] state, the number of markers created so far, and
    [windyService] ([None]: no service yet).  Of the service only what
    its [cleanup] does to the map is kept: the names of the weather
    markers its [markersLayer] group holds on the map (nothing is ever
    put into its [overlayLayer] group). *)
Record world : Type := {
  leafletMap : option (gset layer);
  markers : list marker;
  count : nat;
  windyService : option (gset string);
}.

Definition onMap (f : gset layer → gset layer) (w : world) : world :=
  {| leafletMap := f <$> leafletMap w; markers := markers w; count := count w;
     windyService := windyService w |}.

Definition setMarkers (f : list marker → list marker) (w : world) : world :=
  {| leafletMap := leafletMap w; markers := f (markers w); count := count w;
     windyService := windyService w |}.

Definition setLeafletMap (m : option (gset layer)) (w : world) : world :=
  {| leafletMap := m; markers := markers w; count := count w;
     windyService := windyService w |}.

Definition setWindyService (s : option (gset string)) (w : world) : world :=
  {| leafletMap := leafletMap w; markers := markers w; count := count w;
     windyService := s |}.

(** [L.marker(latlng)]: a new object.  Leaflet refuses a coordinate that
    is [NaN] (the [LatLng] of a map event never holds one); the results
    on sequences of calls below are stated for coordinates that are
    not. *)
Definition L_marker (latlng : GeoPoint) : M world marker :=
  w ← get ;
  modify (λ w, {| leafletMap := leafletMap w; markers := markers w; count := S (count w);
                  windyService := windyService w |}) ;;
  mret {| created := count w; position := latlng |}.

(** [marker.addTo(leafletMap)] and [leafletMap.removeLayer(marker)] *)
Definition addTo (m : marker) : M world unit :=
  modify (onMap (λ ls, ls ∪ {[inr (created m)]})).

Definition removeLayer (m : marker) : M world unit :=
  modify (onMap (λ ls, ls ∖ {[inr (created m)]})).

Definition handleMapClick (latlng : GeoPoint) : M world unit :=
  w ← get ;
  match leafletMap w with
  | None => mret tt
  | Some _ =>
      newMarker ← L_marker latlng ;
      addTo newMarker ;;
      modify (setMarkers (λ prev, prev ++ [newMarker]))
  end.

Definition addMarker (point : GeoPoint) : M world marker :=
  w ← get ;
  match leafletMap w with
  | None => throw (ErrorObj "Map not initialized")
  | Some _ =>
      m ← L_marker point ;
      addTo m ;;
      modify (setMarkers (λ prev, prev ++ [m])) ;;
      mret m
  end.

Definition clearMarkers : M world unit :=
  w ← get ;
  match leafletMap w with
  | None => mret tt
  | Some _ =>
      forEach removeLayer (markers w) ;;
      modify (setMarkers (λ _, []))
  end.

(** [windyService.cleanup()], as far as the map shows it:
    [markersLayer.clearLayers()] takes the weather markers off the
    map. *)
Definition service_cleanup : M world unit :=
  modify (λ w, {| leafletMap := (λ ls, ls ∖ set_map inl (default ∅ (windyService w)))
                                <$> leafletMap w;
                  markers := markers w; count := count w;
                  windyService := (λ _, ∅) <$> windyService w |}).

(** The function the effect on [[leafletMap, markers, windyService]]
    returns, with the values of the render it was made in.  The calls
    below change neither [leafletMap] nor [windyService], so the map
    and the service it closes over are the current ones; the [markers]
    array is the one of that render. *)
Definition cleanup (closure : world) : M world unit :=
  match leafletMap closure with
  | Some _ => forEach removeLayer (markers closure)
  | None => mret tt
  end ;;
  match windyService closure with
  | Some _ => service_cleanup
  | None => mret tt
  end.

(** What a user of the context can do with markers. *)
Inductive op : Type :=
| Click (latlng : GeoPoint)
| Add (point : GeoPoint)
| Clear.

Definition perform (o : op) : M world unit :=
  match o with
  | Click latlng => handleMapClick latlng
  | Add point => addMarker point ;; mret tt
  | Clear => clearMarkers
  end.

(** The render a call causes.  Each of the three functions calls
    [setMarkers] exactly when there is a map, and always with a new
    array; the provider then renders again, [markers] has changed for
    the effect, and React runs the cleanup the effect returned at the
    render [before]. *)
Definition rerender (before after : world) : world :=
  match leafletMap before with
  | Some _ => exec (cleanup before) after
  | None => after
  end.

(** Calls made one after the other, each on the functions of the latest
    render. *)
Definition performAll (os : list op) (w : world) : world :=
  foldl (λ w o, rerender w (exec (perform o) w)) w os.

(** A provider whose map carries the named layers and no marker, before
    it has a service. *)
Definition withMap (names : gset string) : world :=
  {| leafletMap := Some (set_map inl names); markers := []; count := 0;
     windyService := None |}.

(** The coordinates of a call are numbers. *)
Definition valid (o : op) : Prop :=
  match o with
  | Click p | Add p => isNaN (lat p) = false ∧ isNaN (lng p) = false
  | Clear => True
  end.

(** The points given since the last [clearMarkers]. *)
Definition sinceClear (os : list op) : list GeoPoint :=
  foldl (λ ps o, match o with
                 | Click p | Add p => ps ++ [p]
                 | Clear => []
                 end) [] os.

(** The [markers] state lists distinct markers made here, of which only
    the last is on the map. *)
Definition newestShown (w : world) : Prop :=
  NoDup (created <$> markers w)
  ∧ (∀ m, m ∈ markers w → created m < count w)
  ∧ ∃ ls, leafletMap w = Some ls
          ∧ ∀ n, inr n ∈ ls ↔ last (created <$> markers w) = Some n.

End MapMarkers.

(** ** [MapContainer]: clicks and the distance overlay *)

Module MapClick.

Section Click.

(** [calculateDistance] of [useTurfAnalysis]: the distance the
    geospatial library computes. *)
Variable distanceKm : GeoPoint → GeoPoint → number.

(** The context's markers, and the component's own [markers] and
    [distance] state cells. *)
Record world : Type := {
  context : MapMarkers.world;
  markers : list MapMarkers.marker;
  distance : option number;
}.

Definition mounted (c : MapMarkers.world) : world :=
  {| context := c; markers := []; distance := None |}.

Definition inContext {A} (c : M MapMarkers.world A) : M world A :=
  λ w, let '(r, c') := c (context w) in
       (r, {| context := c'; markers := markers w; distance := distance w |}).

Definition setDistance (d : option number) (w : world) : world :=
  {| context := context w; markers := markers w; distance := d |}.

Definition onMapClick (latlng : GeoPoint) : M world unit :=
  w ← get ;
  match MapMarkers.leafletMap (context w) with
  | None => mret tt
  | Some _ =>
      inContext (MapMarkers.handleMapClick latlng) ;;
      match markers w with
      | [first] =>
          modify (setDistance (Some (distanceKm (MapMarkers.position first) latlng)))
      | _ => mret tt
      end
  end.

(** Clicks on the map, one after the other; after each the provider
    renders again as after any call of [handleMapClick]. *)
Definition clicks (latlngs : list GeoPoint) (w : world) : world :=
  foldl (λ w latlng,
           let w' := exec (onMapClick latlng) w in
           {| context := MapMarkers.rerender (context w) (context w');
              markers := markers w'; distance := distance w' |})
        w latlngs.

(** [distance !== null && <div className="distance-overlay">] *)
Definition showsDistance (w : world) : bool :=
  bool_decide (is_Some (distance w)).

End Click.

End MapClick.

(** ** [hooks/useWindyInitializer.ts] *)

Module useWindyInitializer.

Import Env.

(** The values found in a [WindyOptions] object and in the engine's
    store. *)
Inductive value : Type :=
| Undefined
| Str (s : string)
| Bool (b : bool)
| Number (n : number)
| Units (u : gmap string string)
| Ref (object : nat).

(** A [Partial<WindyOptions>]: the properties the object has. *)
Definition options : Type := gmap string value.

(** [o.k]: a missing property reads as [undefined]. *)
Definition prop (o : options) (k : string) : value := default Undefined (o !! k).

(** JavaScript truthiness. *)
Definition truthyValue (v : value) : bool :=
  match v with
  | Undefined => false
  | Str s => truthy s
  | Bool b => b
  | Number NaN => false
  | Number (Num q) => negb (Qeq_bool q 0)
  | Number (Infinity _) => true
  | Units _ | Ref _ => true
  end.

(** [units.k] for the value found under [options.units]; a property that
    is missing or [undefined] reads as the empty string, which is as
    falsy, and a value that is not a units object has no property. *)
Definition field (units : value) (k : string) : string :=
  match units with
  | Units u => default "" (u !! k)
  | _ => ""
  end.

(** The engine's API object, as far as the hook touches it:
    [faulty] is what [store.set] throws, if it throws. *)
Record WindyAPI : Type := {
  store : gmap string value;
  faulty : option thrown;
  subscribed : list string;
  api_map : option nat;
}.

(** What [window.windyInit] does when called: throw, call the callback
    before it returns, or keep the callback for later. *)
Inductive engine : Type :=
| Throws (e : thrown)
| CallsBack
| Defers.

Inductive level : Type := Log | Warn | Error.

(** The state cells and the ref of the hook. *)
Record hook : Type := {
  windyInstance : bool;
  isLoading : bool;
  error : option string;
  leafletMap : option nat;
  initializationAttemptedRef : bool;
}.

(** How a promise ends: [resolve()], or [reject] with an [Error] of the
    given message. *)
Inductive settlement : Type :=
| Fulfilled
| Rejected (message : string).

(** A call of [windyInit]: the options it was given, and the state of
    the promise in whose executor it is made ([None] while pending). *)
Record call : Type := {
  given : options;
  promised : option settlement;
}.

(** The hook's cells, the [id] of the DOM elements, the two globals the
    hook looks for, the engine's API object, the console and the
    [windyInit] calls so far. *)
Record world : Type := {
  cells : hook;
  ids : gmap nat string;
  window_L : bool;
  window_windyInit : option engine;
  windy : WindyAPI;
  console : list (level * string);
  calls : list call;
}.

(** The promise [initializeWindy] returns: one that is settled from the
    start, or the promise of [windyInit] call [n]. *)
Inductive promise : Type :=
| Already (s : settlement)
| FromCall (n : nat).

Definition onCells (f : hook → hook) (w : world) : world :=
  {| cells := f (cells w); ids := ids w; window_L := window_L w;
     window_windyInit := window_windyInit w; windy := windy w;
     console := console w; calls := calls w |}.

Definition onWindy (f : WindyAPI → WindyAPI) (w : world) : world :=
  {| cells := cells w; ids := ids w; window_L := window_L w;
     window_windyInit := window_windyInit w; windy := f (windy w);
     console := console w; calls := calls w |}.

Definition setWindyInstance (v : bool) : M world unit :=
  modify (onCells (λ h,
    {| windyInstance := v; isLoading := isLoading h; error := error h;
       leafletMap := leafletMap h;
       initializationAttemptedRef := initializationAttemptedRef h |})).

Definition setIsLoading (v : bool) : M world unit :=
  modify (onCells (λ h,
    {| windyInstance := windyInstance h; isLoading := v; error := error h;
       leafletMap := leafletMap h;
       initializationAttemptedRef := initializationAttemptedRef h |})).

Definition setError (v : option string) : M world unit :=
  modify (onCells (λ h,
    {| windyInstance := windyInstance h; isLoading := isLoading h; error := v;
       leafletMap := leafletMap h;
       initializationAttemptedRef := initializationAttemptedRef h |})).

Definition setLeafletMap (v : option nat) : M world unit :=
  modify (onCells (λ h,
    {| windyInstance := windyInstance h; isLoading := isLoading h; error := error h;
       leafletMap := v;
       initializationAttemptedRef := initializationAttemptedRef h |})).

Definition setAttempted (v : bool) : M world unit :=
  modify (onCells (λ h,
    {| windyInstance := windyInstance h; isLoading := isLoading h; error := error h;
       leafletMap := leafletMap h; initializationAttemptedRef := v |})).

Definition say (l : level) (msg : string) : M world unit :=
  modify (λ w,
    {| cells := cells w; ids := ids w; window_L := window_L w;
       window_windyInit := window_windyInit w; windy := windy w;
       console := console w ++ [(l, msg)]; calls := calls w |}).

(** [mapContainer.id] and [mapContainer.id = v] *)
Definition idOf (w : world) (mapContainer : nat) : string :=
  default "" (ids w !! mapContainer).

Definition setId (mapContainer : nat) (v : string) : M world unit :=
  modify (λ w,
    {| cells := cells w; ids := <[mapContainer := v]> (ids w);
       window_L := window_L w; window_windyInit := window_windyInit w;
       windy := windy w; console := console w; calls := calls w |}).

Definition onCalls (f : list call → list call) (w : world) : world :=
  {| cells := cells w; ids := ids w; window_L := window_L w;
     window_windyInit := window_windyInit w; windy := windy w;
     console := console w; calls := f (calls w) |}.

(** The call is entered with the promise that [new Promise] has just
    made, which is pending. *)
Definition recordCall (o : options) : M world unit :=
  modify (onCalls (λ l, l ++ [{| given := o; promised := None |}])).

(** [resolve()] and [reject(errorObj)] of the promise of call [n]: a
    promise that is settled stays as it is. *)
Definition settle (s : settlement) (c : call) : call :=
  {| given := given c;
     promised := match promised c with
                 | None => Some s
                 | Some s' => Some s'
                 end |}.

Definition resolve (n : nat) : M world unit :=
  modify (onCalls (alter (settle Fulfilled) n)).

Definition reject (n : nat) (message : string) : M world unit :=
  modify (onCalls (alter (settle (Rejected message)) n)).

Definition setWindow (L : bool) (windyInit : option engine) (w : world) : world :=
  {| cells := cells w; ids := ids w; window_L := L;
     window_windyInit := windyInit; windy := windy w;
     console := console w; calls := calls w |}.

Definition onStore (f : gmap string value → gmap string value) (a : WindyAPI) : WindyAPI :=
  {| store := f (store a); faulty := faulty a;
     subscribed := subscribed a; api_map := api_map a |}.

(** [windyAPI.store.set(key, v)] *)
Definition store_set (key : string) (v : value) : M world unit :=
  w ← get ;
  match faulty (windy w) with
  | Some e => throw e
  | None => modify (onWindy (onStore <[key := v]>))
  end.

(** [windyAPI.store.on(key, ...)] *)
Definition store_on (key : string) : M world unit :=
  modify (onWindy (λ a,
    {| store := store a; faulty := faulty a;
       subscribed := subscribed a ++ [key]; api_map := api_map a |})).

Section Hook.

Variable env : AppEnv.

Definition defaultOptions : options :=
  {[ "key" := Str (if truthy (WINDY_API_KEY env) then WINDY_API_KEY env
                   else "3HFvxAW5zvdalES1JlOw6kNyHybrp1j7");
     "verbose" := Bool true;
     "plugin" := Str "windy-plugin-api";
     "lat" := Number (Num (108415958 # 10000000));
     "lon" := Number (Num (106751815 # 1000000));
     "zoom" := Number (Num 13);
     "overlay" := Str "wind";
     "level" := Str "surface";
     "hourFormat" := Str "24h";
     "graticule" := Bool true;
     "units" := Units {[ "temperature" := "C"; "wind" := "m/s";
                         "pressure" := "hPa"; "distance" := "km" ]} ]}.

(** The callback handed to [windyInit] by call number [n], which closes
    over the merged [options] of that call. *)
Definition callback (options : options) (n : nat) : M world unit :=
  say Log "Windy initialized successfully with API" ;;
  (if truthyValue (prop options "units") then
     let units := prop options "units" in
     (if truthy (field units "temperature")
      then store_set "tempUnit" (Str (field units "temperature")) else mret tt) ;;
     (if truthy (field units "wind")
      then store_set "windUnit" (Str (field units "wind")) else mret tt) ;;
     (if truthy (field units "pressure")
      then store_set "pressureUnit" (Str (field units "pressure")) else mret tt) ;;
     (if truthy (field units "distance")
      then store_set "distanceUnit" (Str (field units "distance")) else mret tt)
   else mret tt) ;;
  (match prop options "graticule" with
   | Undefined => mret tt
   | v => store_set "graticule" v
   end) ;;
  (if truthyValue (prop options "hourFormat")
   then store_set "hourFormat" (prop options "hourFormat") else mret tt) ;;
  store_on "overlay" ;;
  store_on "level" ;;
  say Log "Storing windy instance and map references" ;;
  setWindyInstance true ;;
  w ← get ;
  (match api_map (windy w) with
   | Some m => setLeafletMap (Some m)
   | None => say Error "Windy API initialized but map is not available"
   end) ;;
  setAttempted false ;;
  setIsLoading false ;;
  resolve n.

(** The call [windyInitFn(options, callback)], as call number [n]. *)
Definition windyInitFn (behaviour : engine) (options : options) (n : nat) : M world unit :=
  recordCall options ;;
  match behaviour with
  | Throws e => throw e
  | CallsBack => callback options n
  | Defers => mret tt
  end.

(** [initializeWindy(mapContainer, initialOptions)].  The function closes
    over the [windyInstance] of the render that created it; it is
    [async], so what it returns or throws is what its promise becomes.
    (The warning is given without the quotation marks around the id.) *)
Definition initializeWindy (windyInstance : bool)
    (mapContainer : nat) (initialOptions : options) : M world promise :=
  w ← get ;
  (if bool_decide (idOf w mapContainer ≠ "windy") then
     say Warn "Container element should have id=windy for Windy API to work properly" ;;
     setId mapContainer "windy"
   else mret tt) ;;
  w ← get ;
  if initializationAttemptedRef (cells w) || windyInstance then
    say Log "Initialization already attempted or Windy instance exists" ;;
    mret (Already Fulfilled)
  else
    match window_L w, window_windyInit w with
    | true, Some windyInit =>
        setAttempted true ;;
        setIsLoading true ;;
        say Log "Starting Windy initialization..." ;;
        try_catch
          (let options := initialOptions ∪ defaultOptions in
           say Log "Initializing Windy with options:" ;;
           w ← get ;
           let n := length (calls w) in
           try_catch
             (windyInitFn windyInit options n)
             (λ err,
                let errorObj := asError "Failed to initialize Windy" err in
                say Error "Error in windyInit call:" ;;
                reject n errorObj) ;;
           mret (FromCall n))
          (λ err,
             let errorObj := asError "Failed to initialize Windy" err in
             setError (Some errorObj) ;;
             setAttempted false ;;
             setIsLoading false ;;
             say Error "Error initializing Windy:" ;;
             mret (Already (Rejected errorObj)))
    | _, _ =>
        say Error "Leaflet or Windy scripts not loaded yet." ;;
        say Log "Leaflet available:" ;;
        say Log "windyInit available:" ;;
        setError (Some "Required scripts not loaded yet") ;;
        mret (Already (Rejected "Required scripts not loaded yet"))
    end.

(** What happens to a mounted hook: the component calls
    [initializeWindy] (after a render, so that the function has seen the
    current [windyInstance]), the engine calls the callback it was given
    by call [n], or the page's globals change.  An exception of a
    callback the engine calls later is the engine's. *)
Inductive input : Type :=
| Initialize (mapContainer : nat) (initialOptions : options)
| Callback (n : nat)
| Globals (L : bool) (windyInit : option engine).

Definition step (i : input) (w : world) : world :=
  match i with
  | Initialize mapContainer initialOptions =>
      exec (initializeWindy (windyInstance (cells w)) mapContainer initialOptions) w
  | Callback n =>
      match calls w !! n with
      | Some c => exec (callback (given c) n) w
      | None => w
      end
  | Globals L windyInit => setWindow L windyInit w
  end.

Definition run (ins : list input) (w : world) : world :=
  foldl (λ w i, step i w) w ins.

End Hook.

(** The hook as [useState] and [useRef] create it. *)
Definition initial : hook :=
  {| windyInstance := false; isLoading := false; error := None;
     leafletMap := None; initializationAttemptedRef := false |}.

Definition mounted (ids : gmap nat string) (L : bool) (windyInit : option engine)
    (api : WindyAPI) : world :=
  {| cells := initial; ids := ids; window_L := L; window_windyInit := windyInit;
     windy := api; console := []; calls := [] |}.

(** Once [windyInit] has been called, the ref or the instance blocks the
    next call. *)
Definition calledOnce (w : world) : Prop :=
  calls w = []
  ∨ (length (calls w) = 1%nat
     ∧ (initializationAttemptedRef (cells w) = true ∨ windyInstance (cells w) = true)).

(** A run in which the engine never calls back. *)
Definition isCallback (i : input) : bool :=
  match i with Callback _ => true | _ => false end.

(** [c] relates every world to the world it leaves, whatever its
    outcome. *)
Definition keeps {A} (R : world → world → Prop) (c : M world A) : Prop :=
  ∀ w, R w (exec c w).

(** A conditional [store.set], as a function on the store's contents. *)
Definition putIf (b : bool) (k : string) (v : value)
    (s : gmap string value) : gmap string value :=
  if b then <[k := v]> s else s.

Definition defined (v : value) : bool :=
  match v with Undefined => false | _ => true end.

(** What the callback leaves alone: the calls (but for their promises),
    the page, the stored error, and the hook unless it now has an
    instance. *)
Definition configures (w w' : world) : Prop :=
  (given <$> calls w') = (given <$> calls w)
  ∧ ids w' = ids w
  ∧ window_L w' = window_L w
  ∧ window_windyInit w' = window_windyInit w
  ∧ error (cells w') = error (cells w)
  ∧ (cells w' = cells w ∨ windyInstance (cells w') = true).

End useWindyInitializer.

(** ** Plain objects used as dictionaries *)

Module PlainObject.

(** The property names every object inherits from [Object.prototype]
    in a standard environment: methods, and the accessor
    ["__proto__"]. *)
Definition inherited : list string :=
  [ "constructor"; "hasOwnProperty"; "isPrototypeOf"; "propertyIsEnumerable";
    "toLocaleString"; "toString"; "valueOf";
    "__defineGetter__"; "__defineSetter__"; "__lookupGetter__"; "__lookupSetter__";
    "__proto__" ].

(** What [obj[key]] finds on an object whose own properties are the
    entries of [obj]: the value of an own property; or, under a name of
    [inherited] that is not an own property, a function or the prototype
    itself, which is truthy and not a Leaflet layer; or [undefined]. *)
Inductive found (A : Type) : Type :=
| Own (a : A)
| Inherited
| Missing.
Arguments Own {A} a.
Arguments Inherited {A}.
Arguments Missing {A}.

Definition property {A} (obj : gmap string A) (key : string) : found A :=
  match obj !! key with
  | Some a => Own a
  | None => if bool_decide (key ∈ inherited) then Inherited else Missing
  end.

End PlainObject.

(** ** [components/Map/DataLayer.tsx] *)

Module DataLayer.

Record DataPoint : Type := {
  id : string;
  lat : number;
  lng : number;
  value : number;
  name : option string;
  description : option string;
}.

(** A circle marker, as far as the component sets it; the constant
    options [weight], [opacity] and [fillOpacity] are left out. *)
Record CircleMarker : Type := {
  latlng : number * number;
  radius : number;
  fillColor : string;
  color : string;
  tooltip : option string;
}.

(** The component: the map it gets from the context, the layer group
    under [layerRef] (the markers it holds, by identity), the dictionary
    under [pointLayersRef], the marker objects created so far, the number
    of them, the [data] state, and the cleanup function the first effect
    has returned, with the map it closes over. *)
Record world : Type := {
  leafletMap : option nat;
  layerRef : option (gset nat);
  pointLayersRef : gmap string nat;
  objects : gmap nat CircleMarker;
  created : nat;
  data : list DataPoint;
  cleanup : option nat;
}.

Definition mockData : list DataPoint :=
  [ {| id := "station1"; lat := Num (10835 # 1000); lng := Num (106769 # 1000);
       value := Num 75; name := Some "Station Alpha";
       description := Some "Weather monitoring station in central location" |};
    {| id := "station2"; lat := Num (10855 # 1000); lng := Num (106789 # 1000);
       value := Num 42; name := Some "Station Beta";
       description := Some "Urban environment station" |};
    {| id := "station3"; lat := Num (10815 # 1000); lng := Num (106749 # 1000);
       value := Num 88; name := Some "Station Gamma";
       description := Some "High precision weather station" |} ].

(** What the second effect can throw: the [TypeError] of calling
    [setLatLng] on a value that has no such method, and the [Error]
    "Invalid LatLng object: (lat, lng)" with which Leaflet refuses a
    coordinate that is [NaN]. *)
Inductive failure : Type :=
| NotAFunction
| InvalidLatLng (lat lng : number).

(** Truthiness of a number: [0] and [NaN] are falsy. *)
Definition truthyNumber (a : number) : bool :=
  match a with
  | NaN => false
  | Num q => negb (Qeq_bool q 0)
  | Infinity _ => true
  end.

(** Leaflet's [toLatLng([lat, lng])], called by [L.circleMarker] and by
    [setLatLng] before they change anything. *)
Definition toLatLng (lat lng : number) : failure + number * number :=
  if isNaN lat || isNaN lng then inl (InvalidLatLng lat lng) else inr (lat, lng).

Section Component.

(** [pointColorFunction || defaultColorFunction] and the like,
    functions that return a value for every argument: the results below
    hold for whatever they compute. *)
Variable getColor : number → string.
Variable getRadius : number → number.
Variable getTooltip : DataPoint → string.

(** The marker [L.circleMarker([lat, lng], ...)] makes for a point whose
    coordinates Leaflet accepts, with its tooltip bound. *)
Definition circleMarker (point : DataPoint) : CircleMarker :=
  {| latlng := (lat point, lng point);
     radius := getRadius (value point);
     fillColor := getColor (value point);
     color := getColor (value point);
     tooltip := Some (getTooltip point) |}.

(** [setLatLng], [setStyle] and, if the marker has a tooltip,
    [setContent] on an existing marker, for coordinates Leaflet accepts.
    [setStyle] of a circle marker takes [options.radius || this._radius]:
    a radius of [0] or [NaN] leaves the marker's radius as it is. *)
Definition restyle (point : DataPoint) (marker : CircleMarker) : CircleMarker :=
  {| latlng := (lat point, lng point);
     radius := if truthyNumber (getRadius (value point))
               then getRadius (value point) else radius marker;
     fillColor := getColor (value point);
     color := getColor (value point);
     tooltip := (λ _, getTooltip point) <$> tooltip marker |}.

(** The variables of the second effect while it walks over [data]. *)
Record walk : Type := {
  existingPoints : gmap string nat;
  updatedPoints : gmap string nat;
  layerGroup : gset nat;
  heap : gmap nat CircleMarker;
  count : nat;
}.

(** The body of [data.forEach].  [existingPoints[id]] is truthy also
    when [id] only names an inherited property; what is found then has
    no [setLatLng].  An exception leaves the effect, and what the walk
    has done by then is not followed further. *)
Definition visit (st : walk) (point : DataPoint) : failure + walk :=
  match PlainObject.property (existingPoints st) (id point) with
  | PlainObject.Own marker =>
      match toLatLng (lat point) (lng point) with
      | inl e => inl e
      | inr _ =>
          inr {| existingPoints := delete (id point) (existingPoints st);
                 updatedPoints := <[id point := marker]> (updatedPoints st);
                 layerGroup := layerGroup st;
                 heap := alter (restyle point) marker (heap st);
                 count := count st |}
      end
  | PlainObject.Inherited => inl NotAFunction
  | PlainObject.Missing =>
      match toLatLng (lat point) (lng point) with
      | inl e => inl e
      | inr _ =>
          let marker := count st in
          inr {| existingPoints := existingPoints st;
                 updatedPoints := <[id point := marker]> (updatedPoints st);
                 layerGroup := {[marker]} ∪ layerGroup st;
                 heap := <[marker := circleMarker point]> (heap st);
                 count := S (count st) |}
      end
  end.

(** [data.forEach(...)]: the walk stops at the first exception. *)
Fixpoint walkOver (st : walk) (points : list DataPoint) : failure + walk :=
  match points with
  | [] => inr st
  | point :: rest =>
      match visit st point with
      | inl e => inl e
      | inr st' => walkOver st' rest
      end
  end.

Definition walked (w : world) (group : gset nat) : failure + walk :=
  walkOver
    {| existingPoints := pointLayersRef w; updatedPoints := ∅;
       layerGroup := group; heap := objects w; count := created w |}
    (data w).

(** The second effect: update the markers when [data] changes. *)
Definition updateMarkers (w : world) : failure + world :=
  match leafletMap w, layerRef w with
  | Some _, Some group =>
      match walked w group with
      | inl e => inl e
      | inr st =>
          inr {| leafletMap := leafletMap w;
                 layerRef := Some (layerGroup st ∖ map_img (existingPoints st));
                 pointLayersRef := updatedPoints st;
                 objects := heap st;
                 created := count st;
                 data := data w;
                 cleanup := cleanup w |}
      end
  | _, _ => inr w
  end.

(** The first effect: make the layer group if there is a map and no
    group yet, and return the cleanup function. *)
Definition initLayer (w : world) : world :=
  match leafletMap w with
  | None =>
      {| leafletMap := None; layerRef := layerRef w;
         pointLayersRef := pointLayersRef w; objects := objects w;
         created := created w; data := data w; cleanup := None |}
  | Some map =>
      {| leafletMap := Some map;
         layerRef := match layerRef w with
                     | Some group => Some group
                     | None => Some ∅
                     end;
         pointLayersRef := pointLayersRef w; objects := objects w;
         created := created w; data := data w; cleanup := Some map |}
  end.

(** The cleanup function of the first effect, if one was returned. *)
Definition runCleanup (w : world) : world :=
  match cleanup w, layerRef w with
  | Some _, Some _ =>
      {| leafletMap := leafletMap w; layerRef := None; pointLayersRef := ∅;
         objects := objects w; created := created w; data := data w;
         cleanup := None |}
  | _, _ =>
      {| leafletMap := leafletMap w; layerRef := layerRef w;
         pointLayersRef := pointLayersRef w; objects := objects w;
         created := created w; data := data w; cleanup := None |}
  end.

Definition setLeafletMap (map : option nat) (w : world) : world :=
  {| leafletMap := map; layerRef := layerRef w;
     pointLayersRef := pointLayersRef w; objects := objects w;
     created := created w; data := data w; cleanup := cleanup w |}.

Definition setData (d : list DataPoint) (w : world) : world :=
  {| leafletMap := leafletMap w; layerRef := layerRef w;
     pointLayersRef := pointLayersRef w; objects := objects w;
     created := created w; data := d; cleanup := cleanup w |}.

(** What re-renders the component: the context gets another map (both
    effects depend on it: the cleanup of the first runs, then the first
    and the second; nothing runs when the map is the one the component
    has), [setData] is called with another array, or a function prop is
    passed anew (the second effect runs again, with functions that
    compute what the old ones did). *)
Inductive input : Type :=
| MapChanged (map : option nat)
| DataChanged (d : list DataPoint)
| Rerun.

(** One render and its effects; an exception thrown by an effect ends
    the component. *)
Definition step (i : input) (w : world) : failure + world :=
  match i with
  | MapChanged map =>
      if bool_decide (map = leafletMap w) then inr w
      else updateMarkers (initLayer (setLeafletMap map (runCleanup w)))
  | DataChanged d => updateMarkers (setData d w)
  | Rerun => updateMarkers w
  end.

Fixpoint run (ins : list input) (w : world) : failure + world :=
  match ins with
  | [] => inr w
  | i :: ins' =>
      match step i w with
      | inl e => inl e
      | inr w' => run ins' w'
      end
  end.

(** The first render and its effects: [setData(mockData)] is called,
    the two other effects see the initial, empty [data]; then the
    render with the mock data. *)
Definition mount (map : option nat) : failure + world :=
  match updateMarkers
          (initLayer
             {| leafletMap := map; layerRef := None; pointLayersRef := ∅;
                objects := ∅; created := 0; data := []; cleanup := None |}) with
  | inl e => inl e
  | inr w => step (DataChanged mockData) w
  end.

(** The component from its mount on. *)
Definition lifetime (map : option nat) (ins : list input) : failure + world :=
  match mount map with
  | inl e => inl e
  | inr w => run ins w
  end.

(** A point the effect can handle: its id is no name of an inherited
    property and its coordinates are numbers. *)
Definition wellFormed (point : DataPoint) : Prop :=
  (id point ∉ PlainObject.inherited)
  ∧ isNaN (lat point) = false
  ∧ isNaN (lng point) = false.

(** The data of an input has no id twice and only well-formed points. *)
Definition valid (i : input) : Prop :=
  match i with
  | DataChanged d => NoDup (id <$> d) ∧ Forall wellFormed d
  | _ => True
  end.

(** A marker shows a point: it is placed, coloured and labelled from
    it, and has the point's radius when that is truthy. *)
Definition shows (point : DataPoint) (c : CircleMarker) : Prop :=
  latlng c = (lat point, lng point)
  ∧ fillColor c = getColor (value point)
  ∧ color c = getColor (value point)
  ∧ tooltip c = Some (getTooltip point)
  ∧ (truthyNumber (getRadius (value point)) = true → radius c = getRadius (value point)).

(** The layer group holds the markers the dictionary names, each under
    one id and with a tooltip; without a map there is no group and the
    dictionary is empty. *)
Definition grouped (w : world) : Prop :=
  cleanup w = leafletMap w
  ∧ match layerRef w with
    | None => leafletMap w = None ∧ pointLayersRef w = ∅
    | Some group =>
        is_Some (leafletMap w)
        ∧ (∀ marker, marker ∈ group ↔ ∃ k, pointLayersRef w !! k = Some marker)
        ∧ (∀ k1 k2 marker, pointLayersRef w !! k1 = Some marker →
                           pointLayersRef w !! k2 = Some marker → k1 = k2)
        ∧ (∀ k marker, pointLayersRef w !! k = Some marker →
             (marker < created w)%nat
             ∧ ∃ c, objects w !! marker = Some c ∧ is_Some (tooltip c))
    end.

(** The data is as the inputs must be, the dictionary has one marker per
    id of the data, and each marker shows its point. *)
Definition shown (w : world) : Prop :=
  NoDup (id <$> data w)
  ∧ Forall wellFormed (data w)
  ∧ (is_Some (layerRef w) →
     (∀ k, is_Some (pointLayersRef w !! k) ↔ k ∈ id <$> data w)
     ∧ (∀ point marker, point ∈ data w →
          pointLayersRef w !! id point = Some marker →
          ∃ c, objects w !! marker = Some c ∧ shows point c)).

Definition tracked (w : world) : Prop := grouped w ∧ shown w.

(** The state of the walk after the part [done] of the data, started
    from a dictionary [ref] and a group [group0] over markers below
    [n0]. *)
Definition walking (ref : gmap string nat) (group0 : gset nat) (n0 : nat)
    (done : list DataPoint) (st : walk) : Prop :=
  (∀ k, existingPoints st !! k
        = if bool_decide (k ∈ id <$> done) then None else ref !! k)
  ∧ (∀ k, is_Some (updatedPoints st !! k) ↔ k ∈ id <$> done)
  ∧ (∀ k marker, updatedPoints st !! k = Some marker →
       ref !! k = Some marker ∨ (ref !! k = None ∧ (n0 ≤ marker < count st)%nat))
  ∧ (∀ marker, (n0 ≤ marker < count st)%nat → ∃ k, updatedPoints st !! k = Some marker)
  ∧ (∀ k1 k2 marker, updatedPoints st !! k1 = Some marker →
                     updatedPoints st !! k2 = Some marker → k1 = k2)
  ∧ (∀ marker, marker ∈ layerGroup st ↔ marker ∈ group0 ∨ (n0 ≤ marker < count st)%nat)
  ∧ (n0 ≤ count st)%nat
  ∧ (∀ point marker, point ∈ done → updatedPoints st !! id point = Some marker →
       ∃ c, heap st !! marker = Some c ∧ shows point c)
  ∧ (∀ k marker, existingPoints st !! k = Some marker →
       ∃ c, heap st !! marker = Some c ∧ is_Some (tooltip c)).

End Component.

End DataLayer.

(** ** [hooks/useMapLayers.ts] *)

Module useMapLayers.

Inductive layerType : Type := base | tile | wms | geoJson | windy.

#[global] Instance layerType_eq_dec : EqDecision layerType.
Proof. solve_decision. Defined.

(** A [MapLayer], without the properties that are only handed on to
    Leaflet ([url], [attribution], zoom limits, opacity, WMS
    parameters); [geoJsonData] says whether the property is set. *)
Record MapLayer : Type := {
  id : string;
  name : string;
  visible : bool;
  type : option layerType;
  geoJsonData : bool;
}.

(** The Leaflet constructor a layer object was made with. *)
Inductive leafletLayer : Type := TileLayer | WmsLayer | GeoJsonLayer.

(** What lies on the map: something others have put there, or a layer
    object of the hook, by its number. *)
Definition object : Type := (string + nat)%type.

(** An [L.control.layers]: its two lists, keyed by layer name. *)
Record control : Type := {
  baseLayers : gmap string nat;
  overlays : gmap string nat;
}.

(** The map object with its layers and controls, what the context and
    the props give, the state cells and the ref, the layer objects and
    controls made so far (numbered in order), and the cleanup function
    the effect returned, with the [layerMap] and [control] it closes
    over. *)
Record world : Type := {
  mapLayers : gset object;
  mapControls : gset nat;
  leafletMap : bool;
  layers : list MapLayer;
  layerInstances : gmap string nat;
  activeLayers : list string;
  baseLayer : string;
  layerControl : option nat;
  initializedRef : bool;
  made : list leafletLayer;
  controlsMade : list control;
  cleanup : option (gmap string nat * nat);
}.

Definition isBase (layer : MapLayer) : bool :=
  bool_decide (type layer = Some base).

(** The constructor chosen for an overlay in the effect. *)
Definition overlayLayer (layer : MapLayer) : leafletLayer :=
  match type layer with
  | Some tile => TileLayer
  | Some wms => WmsLayer
  | Some geoJson => if geoJsonData layer then GeoJsonLayer else TileLayer
  | _ => TileLayer
  end.

(** The variables of the effect while it walks over [layers]. *)
Record scan : Type := {
  layerMap : gmap string nat;
  baseLayersOf : gmap string nat;
  overlaysOf : gmap string nat;
  newActiveLayers : list string;
  newBaseLayer : string;
  onMap : gset object;
  objects : list leafletLayer;
}.

Section Effect.

(** The state the effect closes over. *)
Variable activeLayers0 : list string.
Variable baseLayer0 : string.

(** The body of [layers.forEach]. *)
Definition visit (st : scan) (layer : MapLayer) : scan :=
  let n := length (objects st) in
  if isBase layer then
    let shown := bool_decide (id layer = baseLayer0)
                 || (bool_decide (baseLayer0 = "") && visible layer) in
    {| layerMap := <[id layer := n]> (layerMap st);
       baseLayersOf := <[name layer := n]> (baseLayersOf st);
       overlaysOf := overlaysOf st;
       newActiveLayers := newActiveLayers st;
       newBaseLayer := if bool_decide (id layer = baseLayer0)
                          || (bool_decide (baseLayer0 = "") && visible layer)
                       then (if bool_decide (baseLayer0 = "") && visible layer
                             then id layer else newBaseLayer st)
                       else newBaseLayer st;
       onMap := if shown then {[inr n]} ∪ onMap st else onMap st;
       objects := objects st ++ [TileLayer] |}
  else
    let active := bool_decide (id layer ∈ activeLayers0) in
    {| layerMap := <[id layer := n]> (layerMap st);
       baseLayersOf := baseLayersOf st;
       overlaysOf := <[name layer := n]> (overlaysOf st);
       newActiveLayers := if (active || visible layer) && (negb active && visible layer)
                          then newActiveLayers st ++ [id layer]
                          else newActiveLayers st;
       newBaseLayer := newBaseLayer st;
       onMap := if active || visible layer then {[inr n]} ∪ onMap st else onMap st;
       objects := objects st ++ [overlayLayer layer] |}.

End Effect.

(** The effect that makes the layers and the layer control. *)
Definition effect (w : world) : world :=
  if negb (leafletMap w) || initializedRef w then
    {| mapLayers := mapLayers w; mapControls := mapControls w;
       leafletMap := leafletMap w; layers := layers w;
       layerInstances := layerInstances w; activeLayers := activeLayers w;
       baseLayer := baseLayer w; layerControl := layerControl w;
       initializedRef := initializedRef w; made := made w;
       controlsMade := controlsMade w; cleanup := None |}
  else
    let st := foldl (visit (activeLayers w) (baseLayer w))
                {| layerMap := ∅; baseLayersOf := ∅; overlaysOf := ∅;
                   newActiveLayers := activeLayers w; newBaseLayer := baseLayer w;
                   onMap := mapLayers w; objects := made w |}
                (layers w) in
    let c := length (controlsMade w) in
    {| mapLayers := onMap st;
       mapControls := {[c]} ∪ mapControls w;
       leafletMap := leafletMap w;
       layers := layers w;
       layerInstances := layerMap st;
       activeLayers := if bool_decide (length (newActiveLayers st)
                                       ≠ length (activeLayers w))
                       then newActiveLayers st else activeLayers w;
       baseLayer := if bool_decide (newBaseLayer st ≠ baseLayer w)
                    then newBaseLayer st else baseLayer w;
       layerControl := Some c;
       initializedRef := true;
       made := objects st;
       controlsMade := controlsMade w
                       ++ [{| baseLayers := baseLayersOf st; overlays := overlaysOf st |}];
       cleanup := Some (layerMap st, c) |}.

(** The cleanup function of the effect, if it returned one.
    [Object.values(layerMap)] lists the own properties of [layerMap]:
    an assignment [layerMap["__proto__"] = layer] makes none, it sets
    the prototype. *)
Definition runCleanup (w : world) : world :=
  match cleanup w with
  | None => w
  | Some (layerMap, c) =>
      {| mapLayers := mapLayers w
                      ∖ set_map inr (map_img (delete "__proto__" layerMap) : gset nat);
         mapControls := mapControls w ∖ {[c]};
         leafletMap := leafletMap w; layers := layers w;
         layerInstances := layerInstances w; activeLayers := activeLayers w;
         baseLayer := baseLayer w; layerControl := layerControl w;
         initializedRef := initializedRef w; made := made w;
         controlsMade := controlsMade w; cleanup := None |}
  end.

Definition onMapLayers (f : gset object → gset object) (w : world) : world :=
  {| mapLayers := f (mapLayers w); mapControls := mapControls w;
     leafletMap := leafletMap w; layers := layers w;
     layerInstances := layerInstances w; activeLayers := activeLayers w;
     baseLayer := baseLayer w; layerControl := layerControl w;
     initializedRef := initializedRef w; made := made w;
     controlsMade := controlsMade w; cleanup := cleanup w |}.

Definition setActiveLayers (f : list string → list string) (w : world) : world :=
  {| mapLayers := mapLayers w; mapControls := mapControls w;
     leafletMap := leafletMap w; layers := layers w;
     layerInstances := layerInstances w; activeLayers := f (activeLayers w);
     baseLayer := baseLayer w; layerControl := layerControl w;
     initializedRef := initializedRef w; made := made w;
     controlsMade := controlsMade w; cleanup := cleanup w |}.

Definition setBaseLayer (layerId : string) (w : world) : world :=
  {| mapLayers := mapLayers w; mapControls := mapControls w;
     leafletMap := leafletMap w; layers := layers w;
     layerInstances := layerInstances w; activeLayers := activeLayers w;
     baseLayer := layerId; layerControl := layerControl w;
     initializedRef := initializedRef w; made := made w;
     controlsMade := controlsMade w; cleanup := cleanup w |}.

(** [layer.addTo(leafletMap)] and [leafletMap.removeLayer(layer)] for a
    layer object of the hook. *)
Definition addTo (layer : nat) : M world unit :=
  modify (onMapLayers (λ ls, {[inr layer]} ∪ ls)).

Definition removeLayer (layer : nat) : M world unit :=
  modify (onMapLayers (λ ls, ls ∖ {[inr layer]})).

(** [toggleLayer(layerId)].  The guard [!layerInstances[layerId]] lets
    pass an id that only names an inherited property.  What is found
    under it is no layer: [removeLayer] finds nothing of it on the map,
    and it has no [addTo], so that the call throws a [TypeError].
    (Under ["__proto__"] it is [Object.prototype], on which Leaflet's
    [removeLayer] leaves an object id for every object to inherit; the
    results below are stated for calls that do not name it.) *)
Definition toggleLayer (layerId : string) : M world unit :=
  w ← get ;
  if leafletMap w then
    match PlainObject.property (layerInstances w) layerId with
    | PlainObject.Missing => mret tt
    | PlainObject.Own layer =>
        if bool_decide (layerId ∈ activeLayers w) then
          removeLayer layer ;;
          modify (setActiveLayers (filter (λ id, id ≠ layerId)))
        else
          addTo layer ;;
          modify (setActiveLayers (λ prev, prev ++ [layerId]))
    | PlainObject.Inherited =>
        if bool_decide (layerId ∈ activeLayers w) then
          modify (setActiveLayers (filter (λ id, id ≠ layerId)))
        else
          throw (ErrorObj "TypeError: layer.addTo is not a function")
    end
  else mret tt.

(** [changeBaseLayer(layerId)], with the same guard.  The current base
    layer, if [layerInstances[baseLayer]] is a layer on the map, is
    taken off before the new one is added, also when adding it then
    throws. *)
Definition changeBaseLayer (layerId : string) : M world unit :=
  w ← get ;
  if leafletMap w then
    match PlainObject.property (layerInstances w) layerId with
    | PlainObject.Missing => mret tt
    | newBaseLayer =>
        match PlainObject.property (layerInstances w) (baseLayer w) with
        | PlainObject.Own currentBaseLayer => removeLayer currentBaseLayer
        | _ => mret tt
        end ;;
        match newBaseLayer with
        | PlainObject.Own layer =>
            addTo layer ;;
            modify (setBaseLayer layerId)
        | _ => throw (ErrorObj "TypeError: newBaseLayer.addTo is not a function")
        end
    end
  else mret tt.

(** The constructor [addLayer] chooses, if any. *)
Definition addedLayer (layer : MapLayer) : option leafletLayer :=
  match type layer with
  | Some tile | None => Some TileLayer
  | Some wms => Some WmsLayer
  | Some geoJson => if geoJsonData layer then Some GeoJsonLayer else None
  | _ => None
  end.

(** [addLayer(layer)] *)
Definition addLayer (layer : MapLayer) (w : world) : world :=
  if leafletMap w then
    match addedLayer layer with
    | None => w
    | Some kind =>
        let n := length (made w) in
        let active := bool_decide (id layer ∈ activeLayers w) in
        {| mapLayers := if visible layer || active
                        then {[inr n]} ∪ mapLayers w else mapLayers w;
           mapControls := mapControls w; leafletMap := leafletMap w;
           layers := layers w;
           layerInstances := <[id layer := n]> (layerInstances w);
           activeLayers := if (visible layer || active) && negb active
                           then activeLayers w ++ [id layer] else activeLayers w;
           baseLayer := baseLayer w; layerControl := layerControl w;
           initializedRef := initializedRef w; made := made w ++ [kind];
           controlsMade :=
             match layerControl w with
             | Some c =>
                 alter (λ ctl,
                   if bool_decide (type layer = Some base)
                   then {| baseLayers := <[name layer := n]> (baseLayers ctl);
                           overlays := overlays ctl |}
                   else {| baseLayers := baseLayers ctl;
                           overlays := <[name layer := n]> (overlays ctl) |})
                   c (controlsMade w)
             | None => controlsMade w
             end;
           cleanup := cleanup w |}
    end
  else w.

Definition setLayers (l : list MapLayer) (w : world) : world :=
  {| mapLayers := mapLayers w; mapControls := mapControls w;
     leafletMap := leafletMap w; layers := l;
     layerInstances := layerInstances w; activeLayers := activeLayers w;
     baseLayer := baseLayer w; layerControl := layerControl w;
     initializedRef := initializedRef w; made := made w;
     controlsMade := controlsMade w; cleanup := cleanup w |}.

Definition setLeafletMap (w : world) : world :=
  {| mapLayers := mapLayers w; mapControls := mapControls w;
     leafletMap := true; layers := layers w;
     layerInstances := layerInstances w; activeLayers := activeLayers w;
     baseLayer := baseLayer w; layerControl := layerControl w;
     initializedRef := initializedRef w; made := made w;
     controlsMade := controlsMade w; cleanup := cleanup w |}.

(** What happens to the hook: the context gets its map, or the component
    passes another [layers] array (either way the effect's cleanup runs,
    then the effect); or one of the returned functions is called, after a
    render, so that it has seen the current state.  An exception a call
    throws goes to its caller; the hook is left as the call left it. *)
Inductive input : Type :=
| MapReady
| LayersChanged (l : list MapLayer)
| ToggleLayer (layerId : string)
| ChangeBaseLayer (layerId : string)
| AddLayer (layer : MapLayer).

Definition step (i : input) (w : world) : world :=
  match i with
  | MapReady => effect (setLeafletMap (runCleanup w))
  | LayersChanged l => effect (setLayers l (runCleanup w))
  | ToggleLayer layerId => exec (toggleLayer layerId) w
  | ChangeBaseLayer layerId => exec (changeBaseLayer layerId) w
  | AddLayer layer => addLayer layer w
  end.

Definition run (ins : list input) (w : world) : world :=
  foldl (λ w i, step i w) w ins.

(** The hook after its first render, before the context has a map: the
    effect has run and returned at once.  [others] names what lies on
    the map already. *)
Definition mounted (l : list MapLayer) (defaultActiveLayers : option (list string))
    (defaultBaseLayer : option string) (others : gset string) : world :=
  {| mapLayers := set_map inl others; mapControls := ∅; leafletMap := false;
     layers := l; layerInstances := ∅;
     activeLayers := default [] defaultActiveLayers;
     baseLayer := default "" defaultBaseLayer;
     layerControl := None; initializedRef := false; made := []; controlsMade := [];
     cleanup := None |}.

(** The ids an input names. *)
Definition named (i : input) : list string :=
  match i with
  | MapReady => []
  | LayersChanged l => id <$> l
  | ToggleLayer layerId | ChangeBaseLayer layerId => [layerId]
  | AddLayer layer => [id layer]
  end.

(** No layer has ["__proto__"] for its id or its name: as a key of the
    effect's dictionaries it would set their prototype. *)
Definition protoFree (l : list MapLayer) : Prop :=
  ("__proto__" ∉ id <$> l) ∧ ("__proto__" ∉ name <$> l).


(** Inputs that do not run the effect. *)
Definition isCall (i : input) : bool :=
  match i with MapReady | LayersChanged _ => false | _ => true end.

(** The state of the walk after the part [done] of the layers, started
    on a map [map0] with [n0] layer objects made before. *)
Definition scanned (activeLayers0 : list string) (baseLayer0 : string)
    (map0 : gset object) (n0 : nat) (done : list MapLayer) (st : scan) : Prop :=
  length (objects st) = (n0 + length done)%nat
  ∧ (∀ k, is_Some (layerMap st !! k) ↔ k ∈ id <$> done)
  ∧ (∀ k n, layerMap st !! k = Some n → (n0 ≤ n < n0 + length done)%nat)
  ∧ (∀ k1 k2 n, layerMap st !! k1 = Some n → layerMap st !! k2 = Some n → k1 = k2)
  ∧ (∀ x, x ∈ onMap st →
       x ∈ map0 ∨ ∃ n, x = inr n ∧ (n0 ≤ n < n0 + length done)%nat)
  ∧ (∀ x, x ∈ map0 → x ∈ onMap st)
  ∧ (∀ layer n, layer ∈ done → layerMap st !! id layer = Some n →
       inr n ∈ onMap st
       ↔ if isBase layer
         then id layer = baseLayer0 ∨ (baseLayer0 = "" ∧ visible layer = true)
         else id layer ∈ activeLayers0 ∨ visible layer = true)
  ∧ (∀ k, k ∈ newActiveLayers st
       ↔ k ∈ activeLayers0
         ∨ ∃ layer, layer ∈ done ∧ id layer = k ∧ isBase layer = false
                    ∧ visible layer = true)
  ∧ (∃ pushed, newActiveLayers st = activeLayers0 ++ pushed)
  ∧ newBaseLayer st
    = (if bool_decide (baseLayer0 = "")
       then default "" (last (id <$> filter (λ layer, isBase layer && visible layer = true) done))
       else baseLayer0).


End useMapLayers.

(** * Properties *)

(** Unfolding the monad down to functions on worlds. *)
Ltac unfold_monad :=
  unfold exec, eval, mbind, M_bind, mret, M_ret,
    JS.bind, JS.ret, JS.throw, JS.try_catch, JS.get, JS.modify in *.

(** ** The map context *)

Section MapContextFacts.

Import MapContext.

Implicit Types (layerId id : string) (prev : list string).

Lemma filter_ne_absent layerId prev :
  layerId ∉ prev → filter (λ id, id ≠ layerId) prev = prev.
Proof.
  induction prev as [|a prev IH]; intros Hnot; [done|].
  apply not_elem_of_cons in Hnot as [Hne Hnot].
  rewrite filter_cons_True; [|congruence].
  by rewrite IH.
Qed.

Lemma filter_ne_removes layerId prev :
  layerId ∉ filter (λ id, id ≠ layerId) prev.
Proof. rewrite list_elem_of_filter. by intros [? _]. Qed.

Lemma filter_ne_append_perm layerId prev :
  NoDup prev → layerId ∈ prev →
  filter (λ id, id ≠ layerId) prev ++ [layerId] ≡ₚ prev.
Proof.
  induction 1 as [|a prev Ha Hnd IH]; intros Hin.
  - by apply elem_of_nil in Hin.
  - destruct (decide (a = layerId)) as [->|Hne].
    + rewrite filter_cons_False; [|by intros ?].
      rewrite filter_ne_absent; [|done].
      symmetry. apply Permutation_cons_append.
    + rewrite filter_cons_True; [|done].
      apply elem_of_cons in Hin as [?|Hin]; [congruence|].
      simpl. by rewrite IH.
Qed.

Lemma toggle_present layerId prev :
  layerId ∈ prev → toggle layerId prev = filter (λ id, id ≠ layerId) prev.
Proof. intros H. unfold toggle. by rewrite bool_decide_eq_true_2. Qed.

Lemma toggle_absent layerId prev :
  layerId ∉ prev → toggle layerId prev = prev ++ [layerId].
Proof. intros H. unfold toggle. by rewrite bool_decide_eq_false_2. Qed.

Lemma toggle_self layerId prev :
  layerId ∈ toggle layerId prev ↔ layerId ∉ prev.
Proof.
  destruct (decide (layerId ∈ prev)) as [Hin|Hnot].
  - rewrite toggle_present; [|done].
    split; [intros []%filter_ne_removes|done].
  - rewrite toggle_absent; [|done].
    split; [done|]. intros _. apply elem_of_app. right. by apply list_elem_of_singleton.
Qed.

Lemma toggle_other layerId id prev :
  id ≠ layerId → id ∈ toggle layerId prev ↔ id ∈ prev.
Proof.
  intros Hne. destruct (decide (layerId ∈ prev)) as [Hin|Hnot].
  - rewrite toggle_present; [|done]. rewrite list_elem_of_filter. tauto.
  - rewrite toggle_absent; [|done]. rewrite elem_of_app, list_elem_of_singleton.
    tauto.
Qed.

Lemma toggle_twice_absent layerId prev :
  layerId ∉ prev → toggle layerId (toggle layerId prev) = prev.
Proof.
  intros Hnot. rewrite (toggle_absent _ prev); [|done].
  rewrite toggle_present.
  - rewrite filter_app, filter_ne_absent; [|done].
    rewrite filter_cons_False; [|by intros ?].
    by rewrite filter_nil, app_nil_r.
  - apply elem_of_app. right. by apply list_elem_of_singleton.
Qed.

Lemma toggle_twice_present layerId prev :
  layerId ∈ prev →
  toggle layerId (toggle layerId prev) = filter (λ id, id ≠ layerId) prev ++ [layerId].
Proof.
  intros Hin. rewrite (toggle_present _ prev); [|done].
  apply toggle_absent, filter_ne_removes.
Qed.

(** C8 (amended).  On a list of visible layer ids without duplicates,
    [toggleLayerVisibility] negates the membership of [layerId], leaves
    the membership of every other id unchanged and keeps the list free
    of duplicates.  Applied twice with the same [layerId] it gives a
    permutation of the original list: the original list itself (indeed
    the original state) when [layerId] was not in it, and the original
    with [layerId] moved to the end when it was. *)
Theorem toggleLayerVisibility_twice (layerId : string) (s : state) :
  NoDup (visibleLayers s) →
  let s1 := toggleLayerVisibility layerId s in
  let s2 := toggleLayerVisibility layerId s1 in
  (layerId ∈ visibleLayers s1 ↔ layerId ∉ visibleLayers s)
  ∧ (∀ id, id ≠ layerId → id ∈ visibleLayers s1 ↔ id ∈ visibleLayers s)
  ∧ NoDup (visibleLayers s1)
  ∧ visibleLayers s2 ≡ₚ visibleLayers s
  ∧ (layerId ∉ visibleLayers s → s2 = s)
  ∧ (layerId ∈ visibleLayers s →
     visibleLayers s2 = filter (λ id, id ≠ layerId) (visibleLayers s) ++ [layerId]).
Proof.
  intros Hnd. destruct s as [m wi ws ld err sel prev z]. simpl in *.
  split; [apply toggle_self|].
  split; [intros id Hne; by apply toggle_other|].
  split.
  { destruct (decide (layerId ∈ prev)) as [Hin|Hnot].
    - rewrite toggle_present; [|done]. by apply NoDup_filter.
    - rewrite toggle_absent; [|done]. apply NoDup_app.
      split; [done|]. split; [|apply NoDup_singleton].
      intros x Hx ->%list_elem_of_singleton. done. }
  split.
  { destruct (decide (layerId ∈ prev)) as [Hin|Hnot].
    - rewrite toggle_twice_present; [|done]. by apply filter_ne_append_perm.
    - by rewrite toggle_twice_absent. }
  split.
  - intros Hnot. unfold toggleLayerVisibility, setVisibleLayers. simpl.
    by rewrite toggle_twice_absent.
  - apply toggle_twice_present.
Qed.

(** An instance: with wind and temp visible, toggling wind twice gives
    a permutation of the list. *)
Lemma toggleLayerVisibility_twice_witness :
  let s := toggleLayerVisibility "temp" (toggleLayerVisibility "wind" initial) in
  NoDup (visibleLayers s)
  ∧ visibleLayers (toggleLayerVisibility "wind" (toggleLayerVisibility "wind" s))
    ≡ₚ visibleLayers s.
Proof.
  split.
  - compute_done.
  - apply (toggleLayerVisibility_twice "wind"). compute_done.
Defined.

(** C8 as stated fails: toggling twice a layer that is visible and not
    last moves it to the end of the list. *)
Lemma toggleLayerVisibility_twice_reorders :
  let s := toggleLayerVisibility "temp" (toggleLayerVisibility "wind" initial) in
  NoDup (visibleLayers s)
  ∧ visibleLayers s = ["wind"; "temp"]
  ∧ visibleLayers (toggleLayerVisibility "wind" (toggleLayerVisibility "wind" s))
    = ["temp"; "wind"]
  ∧ visibleLayers (toggleLayerVisibility "wind" (toggleLayerVisibility "wind" s))
    ≠ visibleLayers s.
Proof.
  split; [compute_done|].
  split; [reflexivity|]. split; [reflexivity|]. vm_compute. discriminate.
Qed.

(** C10.  The [calculateDistance] exposed on the map context is a
    placeholder: it returns 0 for every pair of points. *)
Theorem calculateDistance_is_zero (point1 point2 : GeoPoint) :
  calculateDistance point1 point2 = Num 0.
Proof. reflexivity. Qed.

End MapContextFacts.

(** ** The weather-engine wrapper *)

Section WindyServiceFacts.

Import WindyService.

Lemma log_logAll c w : log c w = logAll [c] w.
Proof. reflexivity. Qed.

Lemma logAll_nil w : logAll [] w = w.
Proof. destruct w. unfold logAll. simpl. by rewrite app_nil_r. Qed.

Lemma logAll_app a b w : logAll b (logAll a w) = logAll (a ++ b) w.
Proof. unfold logAll. simpl. by rewrite app_assoc. Qed.

Lemma notify_forEach event data l w :
  forEach (λ cb, try_catch (external (ListenerCall cb event data))
                   (λ _, console_error "Error in Windy listener:")) l w
  = (Ok tt, logAll (cb ← l ; ListenerCall cb event data ::
                     (if faulty w (ListenerCall cb event data)
                      then [ConsoleError "Error in Windy listener:"] else [])) w).
Proof.
  revert w. induction l as [|cb l IH]; intros w.
  - simpl. by rewrite logAll_nil.
  - simpl. unfold_monad. unfold external, console_error. unfold_monad. simpl.
    destruct (faulty w (ListenerCall cb event data)) eqn:Hf.
    + simpl. rewrite IH. simpl. rewrite !log_logAll, !logAll_app. done.
    + simpl. rewrite IH. simpl. rewrite !log_logAll, !logAll_app. done.
Qed.

Lemma notifyListeners_spec event data w :
  notifyListeners event data w = (Ok tt, logAll (notified w event data) w).
Proof. unfold notifyListeners. unfold_monad. apply notify_forEach. Qed.

Lemma invoked_app a b : invoked (a ++ b) = invoked a ++ invoked b.
Proof. unfold invoked. apply omap_app. Qed.

Lemma invoked_notified w event data :
  invoked (notified w event data) = changeListeners w.
Proof.
  unfold notified. induction (changeListeners w) as [|cb l IH]; [done|].
  simpl. f_equal. destruct (faulty w _); simpl; exact IH.
Qed.

Lemma overlay_step layerId (w : world) :
  match List.find (λ l, bool_decide (id l = layerId)) getAvailableLayers with
  | Some layer =>
      if bool_decide (overlayFunction layer ∈ overlays w)
      then external (OverlayCall (overlayFunction layer))
      else mret tt
  | None => mret tt
  end
  = if knownLayer layerId && bool_decide (layerId ∈ overlays w)
    then external (OverlayCall layerId) else mret tt.
Proof.
  unfold knownLayer, getAvailableLayers. simpl.
  repeat (case_bool_decide; [subst layerId; simpl; reflexivity|]).
  rewrite bool_decide_eq_false_2; [done|].
  intros Hin. repeat (apply elem_of_cons in Hin as [->|Hin]; [done|]).
  by apply elem_of_nil in Hin.
Qed.

Lemma external_ok c (w : world) :
  faulty w c = false → external c w = (Ok tt, logAll [c] w).
Proof. intros Hf. unfold external. unfold_monad. simpl. by rewrite Hf. Qed.

Lemma setActiveLayer_spec layerId (w : world) m :
  store w = Some m →
  faulty w (StoreSet "overlay" layerId) = false →
  faulty w (OverlayCall layerId) = false →
  setActiveLayer layerId w
  = (Ok tt, logAll (overlayCalls w layerId ++ notified w "layerChange" [("layerId", layerId)])
              (writeStore "overlay" layerId (logAll [StoreSet "overlay" layerId] w))).
Proof.
  intros Hs Hset Hov. unfold setActiveLayer, store_set.
  unfold_monad. rewrite Hs.
  rewrite external_ok by done. cbv beta iota. rewrite overlay_step.
  unfold overlayCalls.
  change (overlays (writeStore _ _ (logAll _ w))) with (overlays w).
  destruct (knownLayer layerId && bool_decide (layerId ∈ overlays w)) eqn:Hk.
  - cbv beta iota. rewrite external_ok by done. rewrite notifyListeners_spec.
    f_equal. unfold logAll, writeStore, notified. simpl. f_equal.
    by rewrite <- !app_assoc.
  - unfold mret, M_ret, JS.ret. by rewrite notifyListeners_spec.
Qed.

Lemma setAltitudeLevel_spec level (w : world) m :
  store w = Some m →
  faulty w (StoreSet "level" level) = false →
  setAltitudeLevel level w
  = (Ok tt, logAll (notified w "levelChange" [("level", level)])
              (writeStore "level" level (logAll [StoreSet "level" level] w))).
Proof.
  intros Hs Hset. unfold setAltitudeLevel, store_set. unfold_monad. rewrite Hs.
  cbv beta iota. rewrite Hs. rewrite external_ok by done. cbv beta iota.
  by rewrite notifyListeners_spec.
Qed.

Lemma setAltitudeLevel_no_store level (w : world) :
  store w = None → setAltitudeLevel level w = (Ok tt, w).
Proof. intros Hs. unfold setAltitudeLevel. unfold_monad. by rewrite Hs. Qed.

Lemma setActiveLayer_no_store layerId (w : world) :
  store w = None →
  setActiveLayer layerId w = (Ok tt, logAll [ConsoleError "Error setting active layer:"] w).
Proof.
  intros Hs. unfold setActiveLayer, store_set, console_error. unfold_monad. by rewrite Hs.
Qed.

Section Quiet.

Variable cb : listener.

Local Ltac quiet_nil :=
  split; [done|]; exists []; split;
  [simpl; by rewrite app_nil_r|apply not_elem_of_nil].

Lemma quiet_ret {A} (a : A) : quiet cb (mret a).
Proof. intros w Hw. quiet_nil. Qed.

Lemma quiet_throw {A} e : quiet cb (throw e : M world A).
Proof. intros w Hw. quiet_nil. Qed.

Lemma quiet_get : quiet cb get.
Proof. intros w Hw. quiet_nil. Qed.

Lemma quiet_bind {A B} (c : M world A) (k : A → M world B) :
  quiet cb c → (∀ a, quiet cb (k a)) → quiet cb (c ≫= k).
Proof.
  intros Hc Hk w Hw. destruct (Hc w Hw) as (Hl & new & Hcalls & Hnew).
  unfold_monad. destruct (c w) as [[a|e] w'] eqn:Hcw; simpl in *.
  - destruct (Hk a w' Hl) as (Hl' & new' & Hcalls' & Hnew').
    unfold exec in *. split; [done|]. exists (new ++ new').
    rewrite Hcalls', Hcalls, app_assoc. split; [done|].
    unfold invoked. rewrite omap_app. by intros [?|?]%elem_of_app.
  - split; [done|]. by exists new.
Qed.

Lemma quiet_try_catch {A} (c : M world A) (h : thrown → M world A) :
  quiet cb c → (∀ e, quiet cb (h e)) → quiet cb (try_catch c h).
Proof.
  intros Hc Hh w Hw. destruct (Hc w Hw) as (Hl & new & Hcalls & Hnew).
  unfold_monad. destruct (c w) as [[a|e] w'] eqn:Hcw; simpl in *.
  - split; [done|]. by exists new.
  - destruct (Hh e w' Hl) as (Hl' & new' & Hcalls' & Hnew').
    unfold exec in *. split; [done|]. exists (new ++ new').
    rewrite Hcalls', Hcalls, app_assoc. split; [done|].
    unfold invoked. rewrite omap_app. by intros [?|?]%elem_of_app.
Qed.

Lemma quiet_log c : cb ∉ invoked [c] → quiet cb (modify (log c)).
Proof. intros Hc w Hw. split; [done|]. by exists [c]. Qed.

Lemma quiet_external c : cb ∉ invoked [c] → quiet cb (external c).
Proof.
  intros Hc. unfold external. apply quiet_bind; [by apply quiet_log|]. intros _.
  apply quiet_bind; [apply quiet_get|]. intros w.
  destruct (faulty w c); [apply quiet_throw|apply quiet_ret].
Qed.

Lemma quiet_writeStore key value : quiet cb (modify (writeStore key value)).
Proof. intros w Hw. quiet_nil. Qed.

Lemma quiet_setListeners f :
  (∀ l, cb ∉ l → cb ∉ f l) → quiet cb (modify (setListeners f)).
Proof.
  intros Hf w Hw. split; [by apply Hf|]. exists [].
  split; [simpl; by rewrite app_nil_r|apply not_elem_of_nil].
Qed.

Lemma quiet_notifyListeners event data : quiet cb (notifyListeners event data).
Proof.
  intros w Hw. unfold exec. rewrite notifyListeners_spec. simpl.
  split; [done|]. exists (notified w event data). split; [done|].
  by rewrite invoked_notified.
Qed.

Lemma quiet_store_set key value : quiet cb (store_set key value).
Proof.
  unfold store_set. apply quiet_bind; [apply quiet_get|]. intros w.
  destruct (store w); [|apply quiet_throw].
  apply quiet_bind; [|intros _; apply quiet_writeStore].
  apply quiet_external. unfold invoked. simpl. apply not_elem_of_nil.
Qed.

Lemma quiet_setActiveLayer layerId : quiet cb (setActiveLayer layerId).
Proof.
  unfold setActiveLayer. apply quiet_try_catch.
  - apply quiet_bind; [apply quiet_store_set|]. intros _.
    apply quiet_bind; [apply quiet_get|]. intros w.
    apply quiet_bind; [|intros _; apply quiet_notifyListeners].
    destruct (List.find _ _); [|apply quiet_ret].
    case_bool_decide; [|apply quiet_ret].
    apply quiet_external. unfold invoked. simpl. apply not_elem_of_nil.
  - intros _. apply quiet_log. unfold invoked. simpl. apply not_elem_of_nil.
Qed.

Lemma quiet_setAltitudeLevel level : quiet cb (setAltitudeLevel level).
Proof.
  unfold setAltitudeLevel. apply quiet_bind; [apply quiet_get|]. intros w.
  destruct (store w); [|apply quiet_ret].
  apply quiet_bind; [apply quiet_store_set|]. intros _. apply quiet_notifyListeners.
Qed.

Lemma quiet_perform o : o ≠ AddChangeListener cb → quiet cb (perform o).
Proof.
  intros Ho. destruct o as [cb'| cb' | layerId | level | | event data]; simpl.
  - apply quiet_setListeners. intros l Hl [?|Hin%list_elem_of_singleton]%elem_of_app; [done|].
    congruence.
  - apply quiet_setListeners. intros l Hl [_ Hin]%list_elem_of_filter. done.
  - apply quiet_setActiveLayer.
  - apply quiet_setAltitudeLevel.
  - apply quiet_setListeners. intros l _. apply not_elem_of_nil.
  - apply quiet_notifyListeners.
Qed.

Lemma quiet_performAll os w :
  AddChangeListener cb ∉ os → cb ∉ changeListeners w →
  (cb ∉ changeListeners (performAll os w))
  ∧ (∃ new, calls (performAll os w) = calls w ++ new ∧ cb ∉ invoked new).
Proof.
  revert w. induction os as [|o os IH]; intros w Hos Hw.
  - quiet_nil.
  - apply not_elem_of_cons in Hos as [Ho Hos].
    destruct (quiet_perform o (not_eq_sym Ho) w Hw) as (Hl & new & Hcalls & Hnew).
    destruct (IH _ Hos Hl) as (Hl' & new' & Hcalls' & Hnew').
    split; [done|]. exists (new ++ new'). simpl.
    rewrite Hcalls', Hcalls, app_assoc. split; [done|].
    unfold invoked. rewrite omap_app. by intros [?|?]%elem_of_app.
Qed.

End Quiet.

(** One round of notification calls every registered listener once, in
    registration order, and nobody else. *)
Example notify_two :
  calls (exec (addChangeListener 1 ;; addChangeListener 2 ;;
               notifyListeners "redraw" [])
              (construct (Some ∅) ∅ (λ _, false)))
  = [ListenerCall 1 "redraw" []; ListenerCall 2 "redraw" []].
Proof. reflexivity. Qed.

(** C7 (amended).  Over an engine whose store exists and whose store and
    overlay calls do not throw, [setActiveLayer layerId] writes
    [layerId] under the store key [overlay], then calls the overlay
    function named [layerId] exactly when [layerId] is one of the five
    known layers and the engine has a function under that name, then
    calls every registered listener with [layerChange];
    [setAltitudeLevel level] writes [level] under the store key [level]
    and then calls every registered listener with [levelChange]. *)
Theorem setters_forward_to_store (w : world) (m : gmap string string) :
  store w = Some m →
  (∀ key value, faulty w (StoreSet key value) = false) →
  (∀ f, faulty w (OverlayCall f) = false) →
  (∀ layerId,
     let w' := exec (setActiveLayer layerId) w in
     store w' = Some (<["overlay" := layerId]> m)
     ∧ calls w' = calls w ++ [StoreSet "overlay" layerId]
                  ++ overlayCalls w layerId
                  ++ notified w "layerChange" [("layerId", layerId)]
     ∧ changeListeners w' = changeListeners w)
  ∧ (∀ level,
     let w' := exec (setAltitudeLevel level) w in
     store w' = Some (<["level" := level]> m)
     ∧ calls w' = calls w ++ [StoreSet "level" level]
                  ++ notified w "levelChange" [("level", level)]
     ∧ changeListeners w' = changeListeners w)
  ∧ (∀ event data, invoked (notified w event data) = changeListeners w).
Proof.
  intros Hs Hset Hov. split; [|split].
  - intros layerId. unfold exec.
    rewrite (setActiveLayer_spec _ _ m) by done. simpl. rewrite Hs. simpl.
    by rewrite <- !app_assoc.
  - intros level. unfold exec.
    rewrite (setAltitudeLevel_spec _ _ m) by done. simpl. rewrite Hs. simpl.
    by rewrite <- !app_assoc.
  - apply invoked_notified.
Qed.

(** An instance: a working engine with a [wind] overlay and one
    listener. *)
Lemma setters_forward_to_store_witness :
  let w := exec (addChangeListener 7) (construct (Some ∅) {["wind"]} (λ _, false)) in
  calls (exec (setActiveLayer "wind") w)
  = [StoreSet "overlay" "wind"; OverlayCall "wind";
     ListenerCall 7 "layerChange" [("layerId", "wind")]]
  ∧ calls (exec (setAltitudeLevel "850h") w)
    = [StoreSet "level" "850h"; ListenerCall 7 "levelChange" [("level", "850h")]].
Proof.
  pose proof (setters_forward_to_store
                (exec (addChangeListener 7) (construct (Some ∅) {["wind"]} (λ _, false)))
                ∅ eq_refl (λ _ _, eq_refl) (λ _, eq_refl)) as (Hlayer & Hlevel & _).
  split.
  - exact (proj1 (proj2 (Hlayer "wind"))).
  - exact (proj1 (proj2 (Hlevel "850h"))).
Defined.

(** C7 as stated fails in two places the code guards: without a store
    [setAltitudeLevel] returns at once, writing nothing and notifying
    nobody; and for a known layer whose overlay function the engine does
    not have, [setActiveLayer] calls no overlay function. *)
Lemma setters_guarded :
  (let w := exec (addChangeListener 7) (construct None {["wind"]} (λ _, false)) in
   changeListeners w = [7] ∧ exec (setAltitudeLevel "850h") w = w
   ∧ calls (exec (setAltitudeLevel "850h") w) = [])
  ∧ (let w := exec (addChangeListener 7) (construct (Some ∅) ∅ (λ _, false)) in
     knownLayer "wind" = true
     ∧ calls (exec (setActiveLayer "wind") w)
       = [StoreSet "overlay" "wind"; ListenerCall 7 "layerChange" [("layerId", "wind")]]).
Proof. repeat split. Qed.

(** C9.  Registering a listener and removing it again restores the
    listener list (and the whole service) when the listener was not
    registered before; when it was, the removal deletes every occurrence,
    so the list gets shorter and is not restored.  After
    [removeChangeListener cb], whatever is done to the service short of
    registering [cb] again, no round of notification calls [cb]. *)
Theorem listener_add_remove (cb : listener) (w : world) :
  let w1 := exec (addChangeListener cb ;; removeChangeListener cb) w in
  (cb ∉ changeListeners w → w1 = w)
  ∧ (cb ∈ changeListeners w →
     changeListeners w1 = filter (λ x, x ≠ cb) (changeListeners w)
     ∧ (cb ∉ changeListeners w1)
     ∧ length (changeListeners w1) < length (changeListeners w)
     ∧ changeListeners w1 ≠ changeListeners w)
  ∧ (∀ os, AddChangeListener cb ∉ os →
     let w2 := exec (removeChangeListener cb) w in
     (∃ new, calls (performAll os w2) = calls w2 ++ new ∧ cb ∉ invoked new)).
Proof.
  assert (Hrm : changeListeners (exec (addChangeListener cb ;; removeChangeListener cb) w)
                = filter (λ x, x ≠ cb) (changeListeners w)).
  { change (filter (λ x, x ≠ cb) (changeListeners w ++ [cb])
            = filter (λ x, x ≠ cb) (changeListeners w)).
    rewrite filter_app, filter_cons_False by (by intros ?).
    by rewrite filter_nil, app_nil_r. }
  split; [|split].
  - intros Hnot. destruct w as [st ov bad l cs]. simpl in *.
    change (Build_world st ov bad (filter (λ x, x ≠ cb) (l ++ [cb])) cs
            = Build_world st ov bad l cs). f_equal.
    rewrite filter_app, filter_cons_False by (by intros ?).
    rewrite filter_nil, app_nil_r.
    clear -Hnot. induction l as [|a l IH]; [done|].
    apply not_elem_of_cons in Hnot as [Hne Hnot].
    rewrite filter_cons_True by congruence. by rewrite IH.
  - intros Hin. rewrite Hrm.
    assert (Hlen : length (filter (λ x, x ≠ cb) (changeListeners w))
                   < length (changeListeners w)).
    { clear -Hin. induction (changeListeners w) as [|a l IH];
        [by apply elem_of_nil in Hin|].
      destruct (decide (a = cb)) as [->|Hne].
      - rewrite filter_cons_False by (by intros ?). simpl.
        pose proof (length_filter (λ x, x ≠ cb) l). lia.
      - rewrite filter_cons_True by done. simpl.
        apply elem_of_cons in Hin as [?|Hin]; [congruence|].
        specialize (IH Hin). lia. }
    split; [done|]. split; [|split; [done|]].
    + rewrite list_elem_of_filter. by intros [? _].
    + intros Heq. rewrite Heq in Hlen. lia.
  - intros os Hos. simpl.
    refine (proj2 (quiet_performAll cb os _ Hos _)).
    simpl. rewrite list_elem_of_filter. by intros [? _].
Qed.

(** An instance: listener 3 comes and goes next to listener 7. *)
Lemma listener_add_remove_witness :
  let w := exec (addChangeListener 7) (construct (Some ∅) ∅ (λ _, false)) in
  (3 ∉ changeListeners w)
  ∧ exec (addChangeListener 3 ;; removeChangeListener 3) w = w.
Proof.
  split.
  - compute_done.
  - apply (listener_add_remove 3). compute_done.
Defined.

End WindyServiceFacts.

(** ** The environment reader *)

Section EnvironmentFacts.

Import Env.

Lemma runtimeValue_Some E name v :
  runtimeValue E name = Some v ↔
  ∃ we, window_env E = Some we ∧ we !! name = Some v ∧ v ≠ "".
Proof.
  unfold runtimeValue. split.
  - destruct (window_env E) as [we|]; simpl; [|done].
    destruct (we !! name) as [v'|] eqn:Hl; simpl; [|done].
    destruct v'; simpl; [done|]. intros [= <-]. eauto.
  - intros (we & -> & Hl & Hne). simpl. rewrite Hl. simpl.
    destruct v; [done|]. done.
Qed.

Lemma runtimeValue_None E name :
  runtimeValue E name = None ↔
  ∀ we, window_env E = Some we → we !! name = None ∨ we !! name = Some "".
Proof.
  unfold runtimeValue. split.
  - destruct (window_env E) as [we|]; simpl; [|done].
    intros H we' [= <-]. destruct (we !! name) as [v'|]; simpl in *; [|by left].
    destruct v'; [by right|done].
  - intros H. destruct (window_env E) as [we|]; simpl; [|done].
    destruct (H we eq_refl) as [-> | ->]; done.
Qed.

Example env_defaults :
  env parseFloat {| window_env := None; process_env := ∅ |}
  = {| API_URL := "http://localhost:3001/api";
       WINDY_API_KEY := "";
       MAP_CENTER_LAT := Num (10835 # 1000);
       MAP_CENTER_LNG := Num (106769 # 1000);
       MAP_DEFAULT_ZOOM := Num 9;
       DETAILED_TILES_URL :=
         "https://server.arcgisonline.com/ArcGIS/rest/services/World_Imagery/MapServer/tile/{z}/{y}/{x}" |}.
Proof. reflexivity. Qed.

Example env_runtime_zoom :
  MAP_DEFAULT_ZOOM
    (env parseFloat {| window_env := Some {[ "REACT_APP_MAP_DEFAULT_ZOOM" := "12.5" ]};
                       process_env := {[ "REACT_APP_MAP_DEFAULT_ZOOM" := "7" ]} |})
  = Num (125 # 10).
Proof. reflexivity. Qed.

Example env_unparsable_zoom :
  MAP_DEFAULT_ZOOM
    (env parseFloat {| window_env := None;
                       process_env := {[ "REACT_APP_MAP_DEFAULT_ZOOM" := "high" ]} |})
  = Num 9.
Proof. reflexivity. Qed.

Section EnvFacts.

Variable parseFloat : string → number.

(** C4 (amended).  For every configuration key the value is resolved
    in a fixed order: a runtime value [window._env_["REACT_APP_" + key]]
    that is present and not the empty string is returned; otherwise
    (no [window._env_], no such key, or an empty string) a build-time
    value [process.env["REACT_APP_" + key]] that is defined is returned,
    even when empty; otherwise the hardcoded fallback is returned.  The
    three numeric entries go through [parseNumber], which yields the
    numeric fallback when [parseFloat] of the resolved string is [NaN]
    and the parsed number otherwise. *)
Theorem getEnvVar_precedence (E : sources) (key fallback : string) :
  let name := varName key in
  (∀ we v, window_env E = Some we → we !! name = Some v → v ≠ "" →
           getEnvVar E key fallback = v)
  ∧ ((∀ we, window_env E = Some we → we !! name = None ∨ we !! name = Some "") →
     (∀ v, process_env E !! name = Some v → getEnvVar E key fallback = v)
     ∧ (process_env E !! name = None → getEnvVar E key fallback = fallback))
  ∧ (∀ value dflt,
       (isNaN (parseFloat value) = true → parseNumber parseFloat value dflt = dflt)
       ∧ (isNaN (parseFloat value) = false →
          parseNumber parseFloat value dflt = parseFloat value))
  ∧ MAP_CENTER_LAT (env parseFloat E)
    = parseNumber parseFloat (getEnvVar E "MAP_CENTER_LAT" "10.835") (Num (10835 # 1000))
  ∧ MAP_CENTER_LNG (env parseFloat E)
    = parseNumber parseFloat (getEnvVar E "MAP_CENTER_LNG" "106.769") (Num (106769 # 1000))
  ∧ MAP_DEFAULT_ZOOM (env parseFloat E)
    = parseNumber parseFloat (getEnvVar E "MAP_DEFAULT_ZOOM" "9") (Num 9).
Proof.
  intros name. split; [|split; [|split]].
  - intros we v Hwe Hl Hne. unfold getEnvVar. fold name.
    assert (runtimeValue E name = Some v) as ->; [|done].
    apply runtimeValue_Some. eauto.
  - intros Hnone. apply runtimeValue_None in Hnone.
    unfold getEnvVar. fold name. rewrite Hnone.
    split; [by intros v ->|by intros ->].
  - intros value dflt. unfold parseNumber. split; by intros ->.
  - done.
Qed.

End EnvFacts.

(** An instance: a runtime value wins over a build-time value. *)
Lemma getEnvVar_precedence_witness :
  let E := {| window_env := Some {[ "REACT_APP_API_URL" := "https://runtime.example/api" ]};
              process_env := {[ "REACT_APP_API_URL" := "https://build.example/api" ]} |} in
  getEnvVar E "API_URL" "http://localhost:3001/api" = "https://runtime.example/api".
Proof.
  intros E.
  apply (proj1 (getEnvVar_precedence Env.parseFloat E "API_URL" "http://localhost:3001/api")
           {[ "REACT_APP_API_URL" := "https://runtime.example/api" ]}).
  - reflexivity.
  - reflexivity.
  - discriminate.
Defined.

(** C4 as stated fails: a runtime value that is present but empty is
    not returned; the build-time value is. *)
Lemma getEnvVar_skips_empty_runtime_value :
  let E := {| window_env := Some {[ "REACT_APP_API_URL" := "" ]};
              process_env := {[ "REACT_APP_API_URL" := "https://build.example/api" ]} |} in
  (∃ we, window_env E = Some we ∧ we !! varName "API_URL" = Some "")
  ∧ getEnvVar E "API_URL" "http://localhost:3001/api" = "https://build.example/api"
  ∧ getEnvVar E "API_URL" "http://localhost:3001/api" ≠ "".
Proof.
  split; [eexists; split; reflexivity|]. split; [reflexivity|]. vm_compute. discriminate.
Qed.

End EnvironmentFacts.

(** ** The data-fetching hook *)

Section DataFetchingFacts.

Import MockDataService useDataFetching.

Lemma getDataPoints_unknown e :
  e ≠ "weather-stations" → e ≠ "pollution-data" → getDataPoints e = getDataPoints "".
Proof.
  intros H1 H2. unfold getDataPoints. by rewrite !bool_decide_eq_false_2 by done.
Qed.

Lemma lastSegment_empty e :
  lastSegment e = "" → e ≠ "weather-stations" ∧ e ≠ "pollution-data".
Proof. intros He. split; intros ->; vm_compute in He; discriminate. Qed.

Lemma getDataPoints_datasetName e :
  getDataPoints (datasetName e) = getDataPoints (lastSegment e).
Proof.
  pose proof (lastSegment_empty e) as Hempty.
  unfold datasetName, lastSegment in *.
  destruct (last (split "/" e)) as [[|c seg]|]; simpl in *; [| done |].
  - destruct Hempty; [done|]. by apply getDataPoints_unknown.
  - destruct Hempty; [done|]. by apply getDataPoints_unknown.
Qed.

Example datasetName_nested : datasetName "api/v1/weather-stations" = "weather-stations".
Proof. reflexivity. Qed.

Example datasetName_trailing_slash : datasetName "pollution-data/" = "pollution-data/".
Proof. reflexivity. Qed.

Example split_example : split "/" "a//b/" = ["a"; ""; "b"; ""].
Proof. reflexivity. Qed.

Section FetchFacts.

Context {J : Type}.
Variable API_URL : string.

Implicit Types (w : world J) (options : FetchOptions)
  (customOptions : option PartialOptions).

(** The mock branch, run from any world. *)
Lemma fetchData_mock_run options customOptions w :
  let mockData : data J := MockRecords (getMockData options) in
  let done := {| fdata := Some mockData; loading := false; error := None;
                 timestamp := Some (now w + 500)%Z |} in
  fetchData API_URL options customOptions w
  = (Ok mockData,
     {| state := done;
        now := (now w + 500)%Z;
        validUrl := validUrl w;
        server := server w;
        effects := effects w ++
          [SetState {| fdata := fdata (state w); loading := true; error := None;
                       timestamp := timestamp (state w) |};
           SetTimeout 500;
           SetState done] |}).
Proof.
  unfold fetchData, USE_MOCK_DATA, setState, delay, dateNow. unfold_monad. simpl.
  by rewrite <- !app_assoc.
Qed.

(** C2.  With [USE_MOCK_DATA] set, [fetchData] returns, for every
    options value and every custom options, the mock records that
    [MockDataService.getDataPoints] gives for the last ['/']-separated
    segment of the hook's endpoint; the state then holds these records
    with [loading] false and [error] null; and nothing it does is a
    network call. *)
Theorem fetchData_returns_mock_records options customOptions w :
  let records : data J :=
    MockRecords (getDataPoints (lastSegment (endpoint options))) in
  let w' := exec (fetchData API_URL options customOptions) w in
  eval (fetchData API_URL options customOptions) w = Ok records
  ∧ fdata (state w') = Some records
  ∧ loading (state w') = false
  ∧ error (state w') = None
  ∧ (∃ new, effects w' = effects w ++ new ∧ Forall (λ e, isFetch e = false) new).
Proof.
  unfold exec, eval. rewrite fetchData_mock_run. simpl.
  unfold getMockData. rewrite getDataPoints_datasetName.
  repeat split. eexists. split; [reflexivity|]. repeat constructor.
Qed.

(** C6.  In the mock branch [fetchData] first marks the state as
    loading, then waits for one timer of 500 ms, and only then produces
    the mock records, stores them in the state (stamped with the time
    after the wait) and returns them: these are its three effects, in
    this order, on every call. *)
Theorem fetchData_waits_before_mock_data options customOptions w :
  let mockData : data J := MockRecords (getMockData options) in
  let w' := exec (fetchData API_URL options customOptions) w in
  effects w' = effects w ++
    [SetState {| fdata := fdata (state w); loading := true; error := None;
                 timestamp := timestamp (state w) |};
     SetTimeout 500;
     SetState (state w')]
  ∧ state w' = {| fdata := Some mockData; loading := false; error := None;
                  timestamp := Some (now w + 500)%Z |}
  ∧ now w' = (now w + 500)%Z
  ∧ eval (fetchData API_URL options customOptions) w = Ok mockData.
Proof. unfold exec, eval. rewrite fetchData_mock_run. simpl. repeat split. Qed.

End FetchFacts.

Example fetch_weather_stations :
  let options := {| endpoint := "datasets/weather-stations"; method := None; params := None;
                    body := None; headers := None; autoFetch := None |} in
  let w := {| state := initialState (J := unit) options; now := 1000;
              validUrl := λ _, true;
              server := λ _, Throw (ErrorObj "network down");
              effects := [] |} in
  (MockDataService.id <$>
     match eval (fetchData "http://localhost:3001/api" options None) w with
     | Ok (MockRecords points) => points
     | _ => []
     end) = ["station1"; "station2"; "station3"]
  ∧ timestamp (state (exec (fetchData "http://localhost:3001/api" options None) w))
    = Some 1500%Z.
Proof. split; reflexivity. Qed.

End DataFetchingFacts.

(** ** The map container *)

Section MapContainerFacts.

Import MapContainer.

(** Unfolding one reaction of the component. *)
Ltac unfold_step :=
  unfold step, react, loadScripts, loadScripts_top, loadScripts_windy, loadScripts_done,
    loadScripts_catch, onload, onerror, initEffect, initializeWindy, windyCallback,
    onRedrawFinished, handleZoomEnd, classList_add, classList_remove;
  unfold_monad; simpl.

Lemma transition_silent w w' :
  events w' = events w → loadScriptsAt w' = loadScriptsAt w →
  scriptsLoaded w' = scriptsLoaded w →
  ∃ new, events w' = events w ++ new ∧ transition w w' new.
Proof.
  intros He Hl Hs. exists []. rewrite app_nil_r. split; [done|].
  apply Stays; auto.
Qed.

(** Closing a step that touches neither the loader nor the log. *)
Ltac silent :=
  match goal with
  | |- ∃ new, _ ∧ transition ?w ?w' new => by apply (transition_silent w w')
  end.

Lemma step_Mount w :
  ∃ new, events (step Mount w) = events w ++ new ∧ transition w (step Mount w) new.
Proof.
  unfold_step. destruct (loadScriptsAt w) eqn:Hla; simpl;
    try silent.
  destruct (window_L w) eqn:HL; simpl.
  - destruct (windyInit w) eqn:Hinit; simpl.
    + exists []. rewrite app_nil_r. split; [done|]. apply Finishes; auto.
    + exists ([] ++ [AppendScript Windy]). split; [done|]. apply AppendsWindy; auto.
  - exists [AppendScript Leaflet; AppendLeafletCss].
    split; [by rewrite <- app_assoc|]. apply AppendsLeaflet; auto.
Qed.

Lemma step_Onload s d w :
  ∃ new, events (step (Onload s d) w) = events w ++ new
         ∧ transition w (step (Onload s d) w) new.
Proof.
  unfold_step. destruct (loadScriptsAt w) eqn:Hla, s; simpl;
    try silent.
  - destruct (windyInit w) eqn:Hinit; simpl.
    + exists [ScriptLoaded Leaflet]. split; [done|]. apply Finishes; auto.
    + exists ([ScriptLoaded Leaflet] ++ [AppendScript Windy]).
      split; [by rewrite <- app_assoc|]. apply AppendsWindy; auto.
  - destruct (windyInit w || d) eqn:Hinit; simpl.
    + exists [ScriptLoaded Windy]. split; [done|]. apply Finishes; auto.
    + exists [ScriptLoaded Windy]. split; [done|]. apply (Fails _ _ Windy); auto.
Qed.

Lemma step_Onerror s w :
  ∃ new, events (step (Onerror s) w) = events w ++ new
         ∧ transition w (step (Onerror s) w) new.
Proof.
  unfold_step. destruct (loadScriptsAt w) eqn:Hla, s; simpl;
    try silent.
  - exists [ScriptFailed Leaflet]. split; [done|]. apply (Fails _ _ Leaflet); auto.
  - exists [ScriptFailed Windy]. split; [done|]. apply (Fails _ _ Windy); auto.
Qed.

Lemma step_RunInitEffect t w :
  ∃ new, events (step (RunInitEffect t) w) = events w ++ new
         ∧ transition w (step (RunInitEffect t) w) new.
Proof.
  unfold_step.
  destruct (initAttemptedRef w) eqn:Hia; simpl; [silent|].
  destruct (scriptsLoaded w) eqn:Hsl; simpl; [|silent].
  case_bool_decide; simpl; [|silent].
  destruct (windyInit w) eqn:Hinit; simpl; [|silent].
  exists [CallWindyInit].
  destruct t; simpl; (split; [done|]); apply CallsWindyInit; auto.
Qed.

Lemma step_WindyCallback m t w :
  ∃ new, events (step (WindyCallback m t) w) = events w ++ new
         ∧ transition w (step (WindyCallback m t) w) new.
Proof.
  unfold_step. destruct (callbackGiven w); simpl; [|silent].
  destruct t; simpl; silent.
Qed.

Lemma step_RedrawFinished z w :
  ∃ new, events (step (RedrawFinished z) w) = events w ++ new
         ∧ transition w (step (RedrawFinished z) w) new.
Proof.
  unfold_step. destruct (redrawHandler w) as [m|]; simpl; [|silent].
  destruct (m && gt z (Num 10)); simpl; silent.
Qed.

Lemma step_ZoomEnd z w :
  ∃ new, events (step (ZoomEnd z) w) = events w ++ new
         ∧ transition w (step (ZoomEnd z) w) new.
Proof.
  unfold_step. destruct (MapContext.leafletMap (ctx w)); simpl;
    [|silent].
  destruct (gt z (Num 10)); simpl; [|silent].
  exists [InvalidateSizeScheduled]. split; [done|]. apply Stays; auto.
Qed.

Lemma step_transition i w :
  ∃ new, events (step i w) = events w ++ new ∧ transition w (step i w) new.
Proof.
  destruct i; auto using step_Mount, step_Onload, step_Onerror, step_RunInitEffect,
    step_WindyCallback, step_RedrawFinished, step_ZoomEnd.
Qed.

Lemma step_emitted i w :
  events (step i w) = events w ++ emitted i w ∧ transition w (step i w) (emitted i w).
Proof.
  destruct (step_transition i w) as (new & He & Ht).
  unfold emitted. rewrite He, drop_app_length. done.
Qed.

Lemma split_in_old (es new pre post : list event) (x : event) :
  es ++ new = pre ++ x :: post → x ∉ new →
  ∃ post', es = pre ++ x :: post'.
Proof.
  intros Heq Hx. apply app_eq_inv in Heq as [(k & Hes & Hk)|(k & Hpre & Hnew)].
  - destruct k as [|y k]; simpl in Hk.
    + exfalso. apply Hx. rewrite <- Hk. apply list_elem_of_here.
    + injection Hk as <- _. eauto.
  - exfalso. apply Hx. rewrite Hnew. apply elem_of_app. right. apply list_elem_of_here.
Qed.

Lemma split_snoc (es pre post : list event) (x : event) :
  es ++ [x] = pre ++ x :: post →
  (pre = es ∧ post = []) ∨ (∃ post', es = pre ++ x :: post').
Proof.
  intros Heq. apply app_eq_inv in Heq as [(k & Hes & Hk)|(k & Hpre & Hnew)].
  - destruct k as [|y k]; simpl in Hk.
    + injection Hk as <-. left. by rewrite app_nil_r in Hes.
    + injection Hk as <- _. eauto.
  - destruct k as [|y k]; simpl in Hnew.
    + injection Hnew as <-. left. by rewrite app_nil_r in Hpre.
    + injection Hnew as _ Hnil. by destruct k.
Qed.

Lemma call_in_log (es : list event) :
  CallWindyInit ∈ es → ∃ pre post, es = pre ++ CallWindyInit :: post.
Proof. apply list_elem_of_split. Qed.

(** While the loader has not finished, [windyInit] has not been called. *)
Lemma no_call_before_loaded w :
  loadedBeforeInit w → scriptsLoaded w = false → CallWindyInit ∉ events w.
Proof.
  intros (_ & _ & _ & _ & _ & I6) Hsl (pre & post & Heq)%call_in_log.
  destruct (I6 _ _ Heq) as [Hs _]. congruence.
Qed.

Lemma not_returned_not_loaded w :
  loadedBeforeInit w → loadScriptsAt w ≠ Returned → scriptsLoaded w = false.
Proof.
  intros (I1 & _) Hla. destruct (scriptsLoaded w) eqn:Hsl; [|done].
  by specialize (I1 eq_refl).
Qed.

Lemma loadedBeforeInit_mounted L init el : loadedBeforeInit (mounted L init el).
Proof.
  unfold loadedBeforeInit. simpl.
  split; [done|]. split; [intros _ s; apply not_elem_of_nil|].
  split; [done|]. split; [done|]. split; [done|].
  intros pre post Heq. by destruct pre.
Qed.

(** Membership in a log extended by explicitly given events. *)
Ltac concrete_membership :=
  simpl; rewrite ?elem_of_app, ?elem_of_cons, ?elem_of_nil; intuition congruence.

Lemma loadedBeforeInit_transition w w' new :
  loadedBeforeInit w → events w' = events w ++ new → transition w w' new →
  loadedBeforeInit w'.
Proof.
  intros Hw He Ht.
  pose proof (no_call_before_loaded w Hw) as Hnocall.
  pose proof (not_returned_not_loaded w Hw) as Hnotret.
  destruct Hw as (I1 & I2 & I3 & I4 & I5 & I6).
  unfold loadedBeforeInit. rewrite He.
  inversion Ht as [new' Hnew Hla Hsl | Hla HL Hla' Hsl | settled Hfrom Hinit Hla' Hsl
                   | settled Hfrom Hla' Hsl | s settled Hfrom Hset Hla' Hsl
                   | Hsl0 Hla Hsl]; subst new.
  - (* nothing about loading happens *)
    rewrite Hla, Hsl.
    assert (Hin : ∀ e, e ≠ InvalidateSizeScheduled → e ∈ events w ++ new' ↔ e ∈ events w).
    { intros e Hne. rewrite elem_of_app. destruct Hnew as [-> | ->].
      - rewrite elem_of_nil. tauto.
      - rewrite list_elem_of_singleton. tauto. }
    split; [done|].
    split; [intros H s; rewrite Hin by done; by apply I2|].
    split; [intros H; rewrite Hin by done; by apply I3|].
    split; [intros H; rewrite !Hin by done; by apply I4|].
    split; [intros H s; rewrite !Hin by done; by apply I5|].
    intros pre post Heq. apply split_in_old in Heq as [post' Heq].
    + destruct (I6 _ _ Heq) as [? Hpre]. split; [done|].
      intros s. rewrite Hin by done. apply Hpre.
    + destruct Hnew as [-> | ->]; [apply not_elem_of_nil|].
      rewrite list_elem_of_singleton. done.
  - (* the Leaflet script is appended *)
    rewrite Hla', Hsl. specialize (I2 Hla).
    assert (Hfalse : scriptsLoaded w = false) by (apply Hnotret; congruence).
    rewrite Hfalse.
    split; [done|]. split; [done|].
    split.
    { intros _. rewrite elem_of_app, !elem_of_cons, elem_of_nil.
      intros [?|[?|[?|?]]]; try done. by apply (I2 Windy). }
    split; [done|]. split; [done|].
    intros pre post Heq. apply split_in_old in Heq as [post' Heq].
    + exfalso. apply (Hnocall Hfalse). rewrite Heq. apply elem_of_app. right.
      apply list_elem_of_here.
    + concrete_membership.
  - (* the Windy script is appended *)
    rewrite Hla', Hsl.
    assert (Hfalse : scriptsLoaded w = false).
    { apply Hnotret. destruct Hfrom as [[-> _]|[-> _]]; done. }
    rewrite Hfalse.
    split; [done|]. split; [done|]. split; [done|].
    split.
    { intros _. destruct Hfrom as [[Hla ->]|[Hla ->]]; simpl;
        rewrite !elem_of_app, !elem_of_cons, !elem_of_nil.
      - intros [Hin|[?|[]]]; [|done]. by destruct (I2 Hla Leaflet).
      - intros _. right. by left. }
    split; [done|].
    intros pre post Heq. apply split_in_old in Heq as [post' Heq].
    + exfalso. apply (Hnocall Hfalse). rewrite Heq. apply elem_of_app. right.
      apply list_elem_of_here.
    + destruct Hfrom as [[_ ->]|[_ ->]]; concrete_membership.
  - (* the loader finishes *)
    rewrite Hla', Hsl.
    assert (Hfalse : scriptsLoaded w = false).
    { apply Hnotret. destruct Hfrom as [[-> _]|[[-> _]|[-> _]]]; done. }
    split; [done|]. split; [done|]. split; [done|]. split; [done|].
    split.
    { intros _ s. rewrite !elem_of_app.
      destruct Hfrom as [[Hla ->]|[[Hla ->]|[Hla ->]]].
      - intros [Hin|Hin]; [|by apply elem_of_nil in Hin]. by destruct (I2 Hla s).
      - rewrite !list_elem_of_singleton. intros [Hin|?]; [|done].
        destruct s; [by right|]. by destruct (I3 Hla).
      - rewrite !list_elem_of_singleton. intros [Hin|?]; [|done].
        destruct s; [left; by apply I4|by right]. }
    intros pre post Heq. apply split_in_old in Heq as [post' Heq].
    + exfalso. apply (Hnocall Hfalse). rewrite Heq. apply elem_of_app. right.
      apply list_elem_of_here.
    + destruct Hfrom as [[_ ->]|[[_ ->]|[_ ->]]]; concrete_membership.
  - (* the loader fails *)
    rewrite Hla', Hsl.
    assert (Hfalse : scriptsLoaded w = false).
    { apply Hnotret. destruct Hfrom as [[-> _]|[-> _]]; done. }
    rewrite Hfalse.
    split; [done|]. split; [done|]. split; [done|]. split; [done|]. split; [done|].
    intros pre post Heq. apply split_in_old in Heq as [post' Heq].
    + exfalso. apply (Hnocall Hfalse). rewrite Heq. apply elem_of_app. right.
      apply list_elem_of_here.
    + destruct Hset as [-> | ->]; concrete_membership.
  - (* windyInit is called *)
    rewrite Hla, Hsl, Hsl0. specialize (I1 Hsl0). specialize (I5 Hsl0).
    assert (Hin : ∀ e, e ≠ CallWindyInit → e ∈ events w ++ [CallWindyInit] ↔ e ∈ events w).
    { intros e Hne. rewrite elem_of_app, list_elem_of_singleton. tauto. }
    split; [done|].
    split; [intros H; congruence|].
    split; [intros H; congruence|].
    split; [intros H; congruence|].
    split; [intros _ s; rewrite !Hin by done; apply I5|].
    intros pre post Heq. split; [done|]. intros s. rewrite Hin by done. intros Hs.
    apply split_snoc in Heq as [[-> ->]|[post' Heq]].
    + by apply I5.
    + destruct (I6 _ _ Heq) as [_ Hpre]. by apply Hpre.
Qed.

Lemma run_snoc ins i w : run (ins ++ [i]) w = step i (run ins w).
Proof. unfold run. by rewrite foldl_app. Qed.

Lemma loadedBeforeInit_run L init el ins :
  loadedBeforeInit (run ins (mounted L init el)).
Proof.
  induction ins as [|i ins IH] using rev_ind.
  - apply loadedBeforeInit_mounted.
  - rewrite run_snoc. destruct (step_emitted i (run ins (mounted L init el))) as [He Ht].
    by eapply loadedBeforeInit_transition.
Qed.

Lemma transition_appends_Leaflet w w' new :
  transition w w' new → AppendScript Leaflet ∈ new → window_L w = false.
Proof.
  intros Ht Hin. inversion Ht as [new' Hnew | | settled Hfrom | settled Hfrom
                                  | s settled Hfrom Hset | ]; subst new; try done.
  - exfalso. revert Hin. destruct Hnew as [-> | ->]; concrete_membership.
  - exfalso. revert Hin. destruct Hfrom as [[_ ->]|[_ ->]]; concrete_membership.
  - exfalso. revert Hin. destruct Hfrom as [[_ ->]|[[_ ->]|[_ ->]]]; concrete_membership.
  - exfalso. revert Hin. destruct Hset as [-> | ->]; concrete_membership.
  - exfalso. revert Hin. concrete_membership.
Qed.

Lemma transition_appends_Windy w w' new :
  transition w w' new → AppendScript Windy ∈ new → windyInit w = false.
Proof.
  intros Ht Hin. inversion Ht as [new' Hnew | | settled Hfrom | settled Hfrom
                                  | s settled Hfrom Hset | ]; subst new; try done.
  - exfalso. revert Hin. destruct Hnew as [-> | ->]; concrete_membership.
  - exfalso. revert Hin. concrete_membership.
  - exfalso. revert Hin. destruct Hfrom as [[_ ->]|[[_ ->]|[_ ->]]]; concrete_membership.
  - exfalso. revert Hin. destruct Hset as [-> | ->]; concrete_membership.
  - exfalso. revert Hin. concrete_membership.
Qed.

Lemma transition_calls_windyInit w w' new :
  transition w w' new → CallWindyInit ∈ new → scriptsLoaded w = true.
Proof.
  intros Ht Hin. inversion Ht as [new' Hnew | | settled Hfrom | settled Hfrom
                                  | s settled Hfrom Hset | ]; subst new; try done.
  - exfalso. revert Hin. destruct Hnew as [-> | ->]; concrete_membership.
  - exfalso. revert Hin. concrete_membership.
  - exfalso. revert Hin. destruct Hfrom as [[_ ->]|[_ ->]]; concrete_membership.
  - exfalso. revert Hin. destruct Hfrom as [[_ ->]|[[_ ->]|[_ ->]]]; concrete_membership.
  - exfalso. revert Hin. destruct Hset as [-> | ->]; concrete_membership.
Qed.

Lemma initEffect_waits throws w :
  scriptsLoaded w = false → step (RunInitEffect throws) w = w.
Proof.
  intros Hsl. unfold_step. rewrite Hsl. simpl. by rewrite orb_true_r.
Qed.

(** C5.  In every run of the mounted component, whatever the order in
    which scripts settle, effects run and the engine calls back: the
    Leaflet script is appended only by a step that found [window.L]
    absent, the Windy script only by a step that found [windyInit] not a
    function; [scriptsLoaded] is true only when [loadScripts] has
    returned and every appended script has reported [onload]; while
    [scriptsLoaded] is false the initialisation effect changes nothing;
    and [windyInit] is called only by a step that found [scriptsLoaded]
    true, so that every call of [windyInit] in the log comes after the
    [onload] of every script that was appended. *)
Theorem windyInit_waits_for_scripts
    (L init : bool) (el : option (gset string)) (ins : list input) (i : input) :
  let w := run ins (mounted L init el) in
  (AppendScript Leaflet ∈ emitted i w → window_L w = false)
  ∧ (AppendScript Windy ∈ emitted i w → windyInit w = false)
  ∧ (scriptsLoaded w = true →
     loadScriptsAt w = Returned
     ∧ ∀ s, AppendScript s ∈ events w → ScriptLoaded s ∈ events w)
  ∧ (scriptsLoaded w = false → ∀ throws, step (RunInitEffect throws) w = w)
  ∧ (CallWindyInit ∈ emitted i w → scriptsLoaded w = true)
  ∧ (∀ pre post, events w = pre ++ CallWindyInit :: post →
     ∀ s, AppendScript s ∈ events w → ScriptLoaded s ∈ pre).
Proof.
  intros w.
  destruct (step_emitted i w) as [_ Ht].
  destruct (loadedBeforeInit_run L init el ins) as (I1 & _ & _ & _ & I5 & I6).
  fold w in I1, I5, I6.
  split; [by apply transition_appends_Leaflet with (step i w)|].
  split; [by apply transition_appends_Windy with (step i w)|].
  split; [by auto|].
  split; [intros Hsl throws; by apply initEffect_waits|].
  split; [by apply transition_calls_windyInit with (step i w)|].
  intros pre post Heq. by destruct (I6 _ _ Heq).
Qed.

(** An instance: both scripts are appended and load, then the effect
    runs. *)
Lemma windyInit_waits_for_scripts_witness :
  let w := run [Mount; Onload Leaflet true; Onload Windy true; RunInitEffect None]
               (mounted false false (Some {["windy-container"]})) in
  events w = [AppendScript Leaflet; AppendLeafletCss; ScriptLoaded Leaflet;
              AppendScript Windy; ScriptLoaded Windy; CallWindyInit]
  ∧ ScriptLoaded Windy ∈ [AppendScript Leaflet; AppendLeafletCss; ScriptLoaded Leaflet;
                          AppendScript Windy; ScriptLoaded Windy].
Proof.
  split; [reflexivity|].
  apply (proj2 (proj2 (proj2 (proj2 (proj2
           (windyInit_waits_for_scripts false false (Some {["windy-container"]})
              [Mount; Onload Leaflet true; Onload Windy true; RunInitEffect None]
              Mount)))))
           [AppendScript Leaflet; AppendLeafletCss; ScriptLoaded Leaflet;
            AppendScript Windy; ScriptLoaded Windy] []).
  - reflexivity.
  - compute_done.
Defined.

Example loader_skips_present_scripts :
  let w := run [Mount; RunInitEffect None] (mounted true true (Some {["windy-container"]})) in
  events w = [CallWindyInit] ∧ scriptsLoaded w = true.
Proof. split; reflexivity. Qed.

Example init_effect_before_load_is_noop :
  let w := run [Mount; RunInitEffect None; Onload Leaflet true; RunInitEffect None]
               (mounted false false (Some {["windy-container"]})) in
  events w = [AppendScript Leaflet; AppendLeafletCss; ScriptLoaded Leaflet;
              AppendScript Windy]
  ∧ scriptsLoaded w = false.
Proof. split; reflexivity. Qed.

Lemma gt_ten (q : Q) : gt (Num q) (Num 10) = true ↔ (10 < q)%Q.
Proof.
  unfold gt. rewrite negb_true_iff, <- not_true_iff_false, Qle_bool_iff.
  split; [apply Qnot_le_lt|apply Qlt_not_le].
Qed.

Lemma containerClassName_hidden b : "windy-hidden" ∈ containerClassName b ↔ b = true.
Proof.
  unfold containerClassName.
  destruct b; rewrite elem_of_union, !elem_of_singleton, ?elem_of_empty.
  - split; [done|]. intros _. by right.
  - split; [|done]. by intros [?|[]].
Qed.

Lemma hidden_after_add (cs : gset string) :
  bool_decide ("windy-hidden" ∈ cs ∪ {["windy-hidden"]}) = true.
Proof.
  apply bool_decide_eq_true_2. rewrite elem_of_union, elem_of_singleton. by right.
Qed.

Lemma hidden_after_remove (cs : gset string) :
  bool_decide ("windy-hidden" ∈ cs ∖ {["windy-hidden"]}) = false.
Proof.
  apply bool_decide_eq_false_2. rewrite elem_of_difference, elem_of_singleton.
  by intros [_ ?].
Qed.

(** C1 (amended).  For every zoom level reported through ['zoomend'] or
    ['redrawFinished'], the handler stores the zoom and sets
    [showBackupLayer] to the single comparison [zoom > 10] (true for a
    number above 10, false for [NaN]).  When the container is in the
    document, the ['zoomend'] handler leaves it with the class
    [windy-hidden] exactly when [zoom > 10]; the ['redrawFinished']
    handler leaves it with the class exactly when [zoom > 10] and the
    engine's map object is present, and without it otherwise.  The
    [className] the component renders for the container has
    [windy-hidden] exactly when [showBackupLayer] is true. *)
Theorem zoom_threshold (zoom : number) (hasMap : bool) (w : world) :
  let wz := exec (handleZoomEnd zoom) w in
  let wr := exec (onRedrawFinished hasMap zoom) w in
  showBackupLayer wz = gt zoom (Num 10)
  ∧ showBackupLayer wr = gt zoom (Num 10)
  ∧ MapContext.currentZoom (ctx wz) = zoom
  ∧ MapContext.currentZoom (ctx wr) = zoom
  ∧ windyHidden wz = (λ _, gt zoom (Num 10)) <$> windyEl w
  ∧ windyHidden wr = (λ _, hasMap && gt zoom (Num 10)) <$> windyEl w
  ∧ (∀ b, "windy-hidden" ∈ containerClassName b ↔ b = true)
  ∧ (∀ q, gt (Num q) (Num 10) = true ↔ (10 < q)%Q)
  ∧ gt NaN (Num 10) = false.
Proof.
  intros wz wr. subst wz wr.
  unfold handleZoomEnd, onRedrawFinished, classList_add, classList_remove, windyHidden.
  unfold_monad.
  split; [by destruct (gt zoom (Num 10))|].
  split; [by destruct (hasMap && gt zoom (Num 10))|].
  split; [by destruct (gt zoom (Num 10))|].
  split; [by destruct (hasMap && gt zoom (Num 10))|].
  split.
  { destruct (gt zoom (Num 10)); simpl; destruct (windyEl w) as [cs|]; simpl; try done;
      f_equal; [apply hidden_after_add|apply hidden_after_remove]. }
  split.
  { destruct (hasMap && gt zoom (Num 10)); simpl; destruct (windyEl w) as [cs|];
      simpl; try done;
      f_equal; [apply hidden_after_add|apply hidden_after_remove]. }
  split; [apply containerClassName_hidden|].
  split; [apply gt_ten|done].
Qed.

(** C1 as stated fails: when the engine came without a map object, a
    ['redrawFinished'] at zoom 12 sets [showBackupLayer] and removes the
    class; and after a re-render has put the class back, the next
    ['redrawFinished'] at zoom 13 removes it again while
    [showBackupLayer] stays true. *)
Lemma redrawFinished_without_map_unhides :
  let w0 := run [Mount; RunInitEffect None; WindyCallback false false]
                (mounted true true (Some {["windy-container"]})) in
  let w1 := step (RedrawFinished (Num 12)) w0 in
  let w2 := setClasses (λ _, containerClassName (showBackupLayer w1)) w1 in
  let w3 := step (RedrawFinished (Num 13)) w2 in
  redrawHandler w0 = Some false
  ∧ showBackupLayer w1 = true ∧ windyHidden w1 = Some false
  ∧ windyHidden w2 = Some true
  ∧ showBackupLayer w3 = true ∧ windyHidden w3 = Some false.
Proof. vm_compute. repeat split. Qed.

Example zoomend_hides_and_shows :
  let w0 := run [Mount; RunInitEffect None; WindyCallback true false]
                (mounted true true (Some {["windy-container"]})) in
  let w1 := step (ZoomEnd (Num (21 # 2))) w0 in
  let w2 := step (ZoomEnd (Num 10)) w1 in
  showBackupLayer w1 = true ∧ windyHidden w1 = Some true
  ∧ showBackupLayer w2 = false ∧ windyHidden w2 = Some false.
Proof. vm_compute. repeat split. Qed.

Lemma render_error w message :
  render w = ErrorOverlay message ↔
  MapContext.isMapLoading (ctx w) = false ∧ MapContext.mapError (ctx w) = Some message.
Proof.
  unfold render. destruct (MapContext.isMapLoading (ctx w)).
  - split; [done|]. by intros [? _].
  - destruct (MapContext.mapError (ctx w)) as [m|].
    + split; [by intros [= ->]|]. by intros [_ [= ->]].
    + split; [done|]. by intros [_ ?].
Qed.

(** What the failure paths store.  A script that fails to load, and a
    Windy script that loads without defining [windyInit], reject the
    promise [loadScripts] awaits: the rejection is caught, its message
    is stored in [mapError], the status becomes "Failed to load scripts"
    and [scriptsLoaded] is left as it was.  A [windyInit] that is
    missing when the initialisation effect runs, or that throws, is
    caught and stored likewise, with status "Failed to initialize Windy"
    and the attempt flag reset.  Without a container the initialisation
    effect returns at once.  The component renders the error overlay
    with a message exactly when [isMapLoading] is false and [mapError]
    holds that message. *)
Lemma startup_failures_are_stored (w : world) :
  (loadScriptsAt w = AwaitLeaflet →
   let w' := step (Onerror Leaflet) w in
   MapContext.mapError (ctx w') = Some "Failed to load Leaflet"
   ∧ status w' = "Failed to load scripts"
   ∧ scriptsLoaded w' = scriptsLoaded w)
  ∧ (loadScriptsAt w = AwaitWindy →
     let w' := step (Onerror Windy) w in
     MapContext.mapError (ctx w') = Some "Failed to load Windy API"
     ∧ status w' = "Failed to load scripts"
     ∧ scriptsLoaded w' = scriptsLoaded w)
  ∧ (loadScriptsAt w = AwaitWindy → windyInit w = false →
     let w' := step (Onload Windy false) w in
     MapContext.mapError (ctx w')
     = Some "Windy API loaded but windyInit function not found"
     ∧ status w' = "Failed to load scripts"
     ∧ scriptsLoaded w' = scriptsLoaded w)
  ∧ (initAttemptedRef w = false → scriptsLoaded w = true → is_Some (windyEl w) →
     windyInit w = false →
     ∀ throws,
       let w' := step (RunInitEffect throws) w in
       MapContext.mapError (ctx w') = Some "windyInit function not available"
       ∧ status w' = "Failed to initialize Windy"
       ∧ initAttemptedRef w' = false
       ∧ events w' = events w)
  ∧ (initAttemptedRef w = false → scriptsLoaded w = true → is_Some (windyEl w) →
     windyInit w = true →
     ∀ message,
       let w' := step (RunInitEffect (Some (ErrorObj message))) w in
       MapContext.mapError (ctx w') = Some message
       ∧ status w' = "Failed to initialize Windy"
       ∧ initAttemptedRef w' = false)
  ∧ (windyEl w = None → ∀ throws, step (RunInitEffect throws) w = w)
  ∧ (∀ message,
       render w = ErrorOverlay message ↔
       MapContext.isMapLoading (ctx w) = false
       ∧ MapContext.mapError (ctx w) = Some message).
Proof.
  split; [|split; [|split; [|split; [|split; [|split]]]]].
  - intros Hla. unfold_step. by rewrite Hla.
  - intros Hla. unfold_step. by rewrite Hla.
  - intros Hla Hinit. unfold_step. rewrite Hla. simpl. by rewrite Hinit.
  - intros Hia Hsl Hel Hinit throws. unfold_step. rewrite Hia, Hsl. simpl.
    rewrite bool_decide_eq_true_2 by done. simpl. by rewrite Hinit.
  - intros Hia Hsl Hel Hinit message. unfold_step. rewrite Hia, Hsl. simpl.
    rewrite bool_decide_eq_true_2 by done. simpl. by rewrite Hinit.
  - intros Hel throws. unfold_step. rewrite Hel.
    rewrite bool_decide_eq_false_2 by (by intros [? ?]). simpl.
    by rewrite !orb_true_r.
  - apply render_error.
Qed.

(** An instance: the Leaflet script fails while [loadScripts] awaits
    it. *)
Lemma startup_failures_are_stored_witness :
  let w := run [Mount] (mounted false false (Some {["windy-container"]})) in
  loadScriptsAt w = AwaitLeaflet
  ∧ MapContext.mapError (ctx (step (Onerror Leaflet) w)) = Some "Failed to load Leaflet".
Proof.
  split; [reflexivity|].
  apply (proj1 (startup_failures_are_stored
                  (run [Mount] (mounted false false (Some {["windy-container"]}))))).
  reflexivity.
Defined.

(** C3.  The code at two startup failures, on a page that has the
    container and neither script: when the Leaflet script fails to
    load, and when the Windy script loads without defining
    [windyInit], the rejection is caught and the error is stored, but
    no failure path calls [setIsMapLoading(false)]: the component goes
    on rendering the loading overlay, with the status line as the only
    sign of the failure, and does not reach the error overlay that its
    [if (mapError)] branch would render. *)
Lemma startup_failures_leave_loading_overlay :
  (let w := run [Mount; Onerror Leaflet] (mounted false false (Some {["windy-container"]})) in
   MapContext.mapError (ctx w) = Some "Failed to load Leaflet"
   ∧ MapContext.isMapLoading (ctx w) = true
   ∧ render w = LoadingOverlay "Failed to load scripts"
   ∧ render w ≠ ErrorOverlay "Failed to load Leaflet")
  ∧ (let w := run [Mount; Onload Leaflet true; Onload Windy false]
                  (mounted false false (Some {["windy-container"]})) in
     MapContext.mapError (ctx w)
     = Some "Windy API loaded but windyInit function not found"
     ∧ MapContext.isMapLoading (ctx w) = true
     ∧ render w = LoadingOverlay "Failed to load scripts"
     ∧ render w ≠ ErrorOverlay "Windy API loaded but windyInit function not found").
Proof. vm_compute. repeat split; discriminate. Qed.

End MapContainerFacts.

(** ** More on the weather-engine wrapper *)

Section WindyServiceMore.

Import WindyService.

Lemma notified_listenerCalls (w : world) event data :
  omap (λ c, match c with ListenerCall cb e d => Some (cb, e, d) | _ => None end)
       (notified w event data)
  = (λ cb, (cb, event, data)) <$> changeListeners w.
Proof.
  unfold notified. induction (changeListeners w) as [|cb l IH]; [done|].
  simpl. f_equal. destruct (faulty w _); simpl; exact IH.
Qed.

Lemma notified_errors (w : world) event data :
  length (filter (λ c, c = ConsoleError "Error in Windy listener:") (notified w event data))
  = length (filter (λ cb, faulty w (ListenerCall cb event data) = true) (changeListeners w)).
Proof.
  unfold notified. induction (changeListeners w) as [|cb l IH]; [done|].
  rewrite bind_cons, filter_app, length_app, IH.
  rewrite filter_cons_False by done.
  destruct (faulty w (ListenerCall cb event data)) eqn:Hf.
  - rewrite filter_cons_True by done. rewrite (filter_cons_True _ cb) by done.
    reflexivity.
  - rewrite (filter_cons_False _ cb) by (rewrite Hf; done). reflexivity.
Qed.

(** X1.  [notifyListeners] calls every registered listener exactly once,
    in registration order, with the event and its data, also when
    listeners before it throw; each listener that throws is followed by
    one [console.error]; the round itself never throws and leaves the
    listener list and the store as they were. *)
Theorem notifyListeners_isolates_failures (w : world) (event : string) (data : payload) :
  let w' := exec (notifyListeners event data) w in
  eval (notifyListeners event data) w = Ok tt
  ∧ (∃ new, calls w' = calls w ++ new
       ∧ omap (λ c, match c with ListenerCall cb e d => Some (cb, e, d) | _ => None end) new
         = (λ cb, (cb, event, data)) <$> changeListeners w
       ∧ length (filter (λ c, c = ConsoleError "Error in Windy listener:") new)
         = length (filter (λ cb, faulty w (ListenerCall cb event data) = true)
                     (changeListeners w)))
  ∧ changeListeners w' = changeListeners w
  ∧ store w' = store w.
Proof.
  unfold exec, eval. rewrite notifyListeners_spec. simpl.
  split; [done|]. split; [|done].
  exists (notified w event data).
  split; [done|]. split; [apply notified_listenerCalls|apply notified_errors].
Qed.

Lemma external_faulty c (w : world) :
  faulty w c = true → external c w = (Throw (ErrorObj "external call failed"), logAll [c] w).
Proof. intros Hf. unfold external. unfold_monad. simpl. by rewrite Hf. Qed.

Lemma setActiveLayer_store_throws layerId (w : world) m :
  store w = Some m →
  faulty w (StoreSet "overlay" layerId) = true →
  setActiveLayer layerId w
  = (Ok tt, logAll [StoreSet "overlay" layerId; ConsoleError "Error setting active layer:"] w).
Proof.
  intros Hs Hf. unfold setActiveLayer, store_set, console_error. unfold_monad. rewrite Hs.
  rewrite external_faulty by done. cbv beta iota. by rewrite log_logAll, logAll_app.
Qed.

(** X2.  [setActiveLayer] never throws.  When the store is missing or
    the store write throws, the store and the listener list are left as
    they were, no listener is called, and the last thing logged is the
    [console.error] of the [catch]. *)
Theorem setActiveLayer_never_throws (w : world) (layerId : string) :
  let w' := exec (setActiveLayer layerId) w in
  eval (setActiveLayer layerId) w = Ok tt
  ∧ (store w = None ∨ faulty w (StoreSet "overlay" layerId) = true →
     store w' = store w
     ∧ changeListeners w' = changeListeners w
     ∧ (∃ new, calls w' = calls w ++ new ++ [ConsoleError "Error setting active layer:"]
               ∧ invoked (new ++ [ConsoleError "Error setting active layer:"]) = [])).
Proof.
  split.
  - unfold eval, setActiveLayer, console_error. unfold_monad.
    match goal with |- context [match ?c with _ => _ end] => destruct c as [[[]|e] w1] end;
      done.
  - destruct (store w) as [m|] eqn:Hs.
    + intros [?|Hf]; [done|]. unfold exec.
      rewrite (setActiveLayer_store_throws _ _ m) by done. simpl.
      rewrite Hs. split; [done|]. split; [done|].
      by exists [StoreSet "overlay" layerId].
    + intros _. unfold exec. rewrite setActiveLayer_no_store by done. simpl.
      rewrite Hs. split; [done|]. split; [done|]. by exists [].
Qed.

Lemma setActiveLayer_never_throws_witness :
  let w := exec (addChangeListener 7) (construct None {["wind"]} (λ _, false)) in
  store w = None
  ∧ store (exec (setActiveLayer "wind") w) = store w.
Proof.
  split; [reflexivity|].
  exact (proj1 (proj2 (setActiveLayer_never_throws
                  (exec (addChangeListener 7) (construct None {["wind"]} (λ _, false)))
                  "wind") (or_introl eq_refl))).
Defined.

(** X3.  [setAltitudeLevel] has no [catch]: when the store exists and
    the store write throws, the exception leaves the method, the store
    keeps its contents and no listener is called. *)
Theorem setAltitudeLevel_propagates (w : world) (m : gmap string string) (level : string) :
  store w = Some m →
  faulty w (StoreSet "level" level) = true →
  let w' := exec (setAltitudeLevel level) w in
  (∃ e, eval (setAltitudeLevel level) w = Throw e)
  ∧ store w' = Some m
  ∧ calls w' = calls w ++ [StoreSet "level" level]
  ∧ changeListeners w' = changeListeners w.
Proof.
  intros Hs Hf. unfold exec, eval, setAltitudeLevel, store_set. unfold_monad. rewrite Hs.
  cbv beta iota. rewrite Hs. rewrite external_faulty by done. simpl. rewrite Hs.
  eauto.
Qed.

Lemma setAltitudeLevel_propagates_witness :
  let w := exec (addChangeListener 7)
             (construct (Some ∅) ∅ (λ c, bool_decide (c = StoreSet "level" "850h"))) in
  calls (exec (setAltitudeLevel "850h") w) = [StoreSet "level" "850h"].
Proof.
  exact (proj1 (proj2 (proj2 (setAltitudeLevel_propagates
           (exec (addChangeListener 7)
              (construct (Some ∅) ∅ (λ c, bool_decide (c = StoreSet "level" "850h"))))
           ∅ "850h" eq_refl eq_refl)))).
Defined.

Lemma nil_no_elem {A} (l : list A) : (∀ x, x ∉ l) → l = [].
Proof. destruct l as [|x l]; [done|]. intros H. destruct (H x). apply list_elem_of_here. Qed.

(** X4.  After [cleanup], as long as no listener is registered again,
    whatever is done to the service calls no listener at all, and the
    listener list stays empty. *)
Theorem cleanup_silences (w : world) (os : list op) :
  (∀ cb, AddChangeListener cb ∉ os) →
  let w1 := exec cleanup w in
  changeListeners w1 = []
  ∧ changeListeners (performAll os w1) = []
  ∧ invoked (drop (length (calls w1)) (calls (performAll os w1))) = [].
Proof.
  intros Hos w1.
  assert (Hnil : changeListeners w1 = []) by done.
  assert (Hq : ∀ cb, (cb ∉ changeListeners (performAll os w1))
                     ∧ (cb ∉ invoked (drop (length (calls w1)) (calls (performAll os w1))))).
  { intros cb.
    destruct (quiet_performAll cb os w1 (Hos cb)) as (Hl & new & Hcalls & Hnew).
    - rewrite Hnil. apply not_elem_of_nil.
    - split; [done|]. by rewrite Hcalls, drop_app_length. }
  split; [done|]. split; apply nil_no_elem; intros cb; apply Hq.
Qed.

Lemma cleanup_silences_witness :
  let w := exec (addChangeListener 7) (construct (Some ∅) {["wind"]} (λ _, false)) in
  invoked (calls (performAll [SetActiveLayer "wind"; Forwarded "redraw" []]
                    (exec cleanup w))) = [].
Proof.
  refine (proj2 (proj2 (cleanup_silences
            (exec (addChangeListener 7) (construct (Some ∅) {["wind"]} (λ _, false)))
            [SetActiveLayer "wind"; Forwarded "redraw" []] _))).
  intros cb. rewrite !elem_of_cons, elem_of_nil. intuition discriminate.
Defined.

End WindyServiceMore.

(** ** More on the map context *)

Section MapContextMore.

Import MapContext MapContextOps.

Lemma toggleAll_cons layerId ids s :
  toggleAll (layerId :: ids) s = toggleAll ids (toggleLayerVisibility layerId s).
Proof. reflexivity. Qed.

Lemma timesToggled_cons layerId a ids :
  timesToggled layerId (a :: ids)
  = if decide (a = layerId) then S (timesToggled layerId ids) else timesToggled layerId ids.
Proof.
  unfold timesToggled. destruct (decide (a = layerId)).
  - by rewrite filter_cons_True.
  - by rewrite filter_cons_False.
Qed.

Lemma toggle_NoDup layerId prev : NoDup prev → NoDup (toggle layerId prev).
Proof.
  intros Hnd. destruct (decide (layerId ∈ prev)) as [Hin|Hnot].
  - rewrite toggle_present by done. by apply NoDup_filter.
  - rewrite toggle_absent by done. apply NoDup_app.
    split; [done|]. split; [|apply NoDup_singleton].
    by intros x Hx ->%list_elem_of_singleton.
Qed.

(** X5.  Starting from a list of visible layers without duplicates, any
    series of calls of [toggleLayerVisibility] leaves a list without
    duplicates, in which a layer is visible exactly when its visibility
    at the start has been flipped an odd number of times: it is as it
    was when the layer was toggled an even number of times. *)
Theorem toggleAll_parity (ids : list string) (s : state) :
  NoDup (visibleLayers s) →
  NoDup (visibleLayers (toggleAll ids s))
  ∧ ∀ layerId,
      layerId ∈ visibleLayers (toggleAll ids s)
      ↔ (layerId ∈ visibleLayers s ↔ Nat.Even (timesToggled layerId ids)).
Proof.
  revert s. induction ids as [|a ids IH]; intros s Hnd.
  - split; [done|]. intros layerId.
    assert (Nat.Even (timesToggled layerId [])) by (by exists 0).
    simpl. tauto.
  - rewrite toggleAll_cons.
    assert (Hnd1 : NoDup (visibleLayers (toggleLayerVisibility a s))).
    { destruct s. simpl in *. by apply toggle_NoDup. }
    destruct (IH _ Hnd1) as [Hnd' Hmem]. split; [done|].
    intros layerId. rewrite Hmem, timesToggled_cons.
    replace (visibleLayers (toggleLayerVisibility a s)) with (toggle a (visibleLayers s))
      by (by destruct s).
    destruct (decide (a = layerId)) as [->|Hne].
    + rewrite toggle_self, Nat.Even_succ.
      pose proof (Nat.Even_or_Odd (timesToggled layerId ids)).
      pose proof (Nat.Even_Odd_False (timesToggled layerId ids)).
      destruct (decide (layerId ∈ visibleLayers s)); tauto.
    + by rewrite (toggle_other a layerId) by done.
Qed.

Lemma toggleAll_parity_witness :
  visibleLayers (toggleAll ["wind"; "temp"; "wind"; "clouds"; "wind"] initial)
  = ["temp"; "clouds"; "wind"]
  ∧ ("wind" ∈ visibleLayers (toggleAll ["wind"; "temp"; "wind"; "clouds"; "wind"] initial)
     ↔ ("wind" ∈ visibleLayers initial
        ↔ Nat.Even (timesToggled "wind" ["wind"; "temp"; "wind"; "clouds"; "wind"]))).
Proof.
  split; [reflexivity|].
  apply (toggleAll_parity ["wind"; "temp"; "wind"; "clouds"; "wind"] initial).
  apply NoDup_nil_2.
Defined.

End MapContextMore.

(** ** Runs of the map container *)

Section MapContainerRunsFacts.

Import MapContainer MapContainerRuns.

(** Unfolding one reaction of the component. *)
Ltac unfold_reaction :=
  unfold step, react, loadScripts, loadScripts_top, loadScripts_windy, loadScripts_done,
    loadScripts_catch, onload, onerror, initEffect, initializeWindy, windyCallback,
    onRedrawFinished, handleZoomEnd, classList_add, classList_remove;
  unfold_monad; simpl.

Lemma in_snoc_other {A} (l : list A) (x y : A) : x ∈ l → x ∈ l ++ [y].
Proof. intros H. apply elem_of_app. by left. Qed.

Lemma in_snoc_self {A} (l : list A) (x : A) : x ∈ l ++ [x].
Proof. apply elem_of_app. right. apply list_elem_of_here. Qed.

Lemma gatedByInit_mounted L init el : gatedByInit (mounted L init el).
Proof. unfold gatedByInit. simpl. repeat split; try done. Qed.

(** The five parts of [gatedByInit] after a step. *)
Ltac gated :=
  split; [|split; [|split; [|split]]]; intros; simpl in *;
  try congruence; eauto 6 using in_snoc_other, in_snoc_self;
  try (match goal with G : _ → _ → _ ∧ _ |- _ ∧ _ => apply G; congruence end);
  try (split; [eauto|done]).

Lemma gatedByInit_step i w :
  loadedBeforeInit w → gatedByInit w → gatedByInit (step i w).
Proof.
  intros Hinv (G1 & G2 & G3 & G4 & G5). unfold gatedByInit.
  assert (Hloaded : callbackGiven w = true → scriptsLoaded w = true).
  { intros Hcg. destruct (scriptsLoaded w) eqn:Hsl; [done|].
    destruct (no_call_before_loaded w Hinv Hsl). auto. }
  destruct i as [|s d|s|t|m t|z|z]; unfold_reaction.
  - destruct (loadScriptsAt w) eqn:Hla; simpl; [|by gated..].
    destruct (window_L w); simpl; [destruct (windyInit w); simpl|]; gated.
  - destruct (loadScriptsAt w) eqn:Hla, s; simpl; try (by gated).
    + destruct (windyInit w); simpl; gated.
    + destruct (windyInit w || d); simpl; gated.
  - destruct (loadScriptsAt w) eqn:Hla, s; simpl; gated.
  - destruct (initAttemptedRef w); simpl; [by gated|].
    destruct (scriptsLoaded w) eqn:Hsl; simpl; [|by gated].
    case_bool_decide; simpl; [|by gated].
    destruct (windyInit w); simpl; [destruct t; simpl|]; gated.
  - destruct (callbackGiven w) eqn:Hcg; simpl; [|by gated].
    specialize (Hloaded eq_refl). destruct t; simpl; gated.
  - destruct (redrawHandler w) as [m|] eqn:Hrh; simpl; [|rewrite Hrh; by gated].
    destruct (m && gt z (Num 10)); simpl; gated.
  - destruct (MapContext.leafletMap (ctx w)) eqn:Hmap; simpl; [|by gated].
    destruct (gt z (Num 10)); simpl; gated.
Qed.

Lemma gatedByInit_run L init el ins : gatedByInit (run ins (mounted L init el)).
Proof.
  induction ins as [|i ins IH] using rev_ind.
  - apply gatedByInit_mounted.
  - rewrite run_snoc. apply gatedByInit_step; [apply loadedBeforeInit_run|done].
Qed.

(** A step of a component whose loader returned without [scriptsLoaded]
    and to which the engine holds no callback changes nothing. *)
Lemma inert_step i w :
  loadScriptsAt w = Returned → scriptsLoaded w = false → callbackGiven w = false →
  redrawHandler w = None → MapContext.leafletMap (ctx w) = false →
  step i w = w.
Proof.
  intros Hla Hsl Hcg Hrh Hmap.
  destruct i as [|[] d|[]|t|m t|z|z]; unfold_reaction;
    rewrite ?Hla, ?Hsl, ?Hcg, ?Hrh, ?Hmap; simpl; rewrite ?orb_true_r; done.
Qed.

Lemma inert_run ins w :
  loadScriptsAt w = Returned → scriptsLoaded w = false → callbackGiven w = false →
  redrawHandler w = None → MapContext.leafletMap (ctx w) = false →
  run ins w = w.
Proof.
  intros Hla Hsl Hcg Hrh Hmap. induction ins as [|i ins IH]; [done|].
  simpl. change (run ins (step i w) = w). rewrite inert_step by done. exact IH.
Qed.

(** X6.  A failed script load is final.  Once [loadScripts] has returned
    without setting [scriptsLoaded], no input changes the component any
    more: [windyInit] has not been and will not be called, the error
    stays stored, and the component keeps rendering the loading overlay
    with status "Failed to load scripts". *)
Theorem load_failure_is_final
    (L init : bool) (el : option (gset string)) (before after : list input) :
  let w := run before (mounted L init el) in
  loadScriptsAt w = Returned →
  scriptsLoaded w = false →
  run after w = w
  ∧ (CallWindyInit ∉ events w)
  ∧ is_Some (MapContext.mapError (ctx w))
  ∧ render w = LoadingOverlay "Failed to load scripts".
Proof.
  intros w Hla Hsl.
  destruct (gatedByInit_run L init el before) as (G1 & G2 & G3 & G4 & G5). fold w in G1, G2, G3, G4, G5.
  pose proof (no_call_before_loaded w (loadedBeforeInit_run L init el before) Hsl) as Hno.
  assert (Hcg : callbackGiven w = false).
  { destruct (callbackGiven w) eqn:Hcg; [|done]. by destruct Hno; apply G1. }
  assert (Hrh : redrawHandler w = None).
  { destruct (redrawHandler w) eqn:Hrh; [|done]. rewrite G3 in Hcg; [done|]. eauto. }
  assert (Hmap : MapContext.leafletMap (ctx w) = false).
  { destruct (MapContext.leafletMap (ctx w)) eqn:Hm; [|done]. by rewrite G4 in Hcg. }
  assert (Hload : MapContext.isMapLoading (ctx w) = true).
  { destruct (MapContext.isMapLoading (ctx w)) eqn:Hm; [done|]. by rewrite G2 in Hcg. }
  destruct (G5 Hla Hsl) as [Herr Hst].
  split; [by apply inert_run|]. split; [done|]. split; [done|].
  unfold render. by rewrite Hload, Hst.
Qed.

Lemma load_failure_is_final_witness :
  let w := run [Mount; Onerror Leaflet] (mounted false false (Some {["windy-container"]})) in
  run [Mount; Onload Leaflet true; RunInitEffect None; WindyCallback true false;
       ZoomEnd (Num 12)] w = w.
Proof.
  apply (proj1 (load_failure_is_final false false (Some {["windy-container"]})
                  [Mount; Onerror Leaflet]
                  [Mount; Onload Leaflet true; RunInitEffect None; WindyCallback true false;
                   ZoomEnd (Num 12)] eq_refl eq_refl)).
Defined.

(** X7.  In every run, when the component renders anything but the
    loading overlay, [scriptsLoaded] is true, [windyInit] has been
    called and every appended script has loaded. *)
Theorem overlay_left_only_after_init
    (L init : bool) (el : option (gset string)) (ins : list input) :
  let w := run ins (mounted L init el) in
  (∀ st, render w ≠ LoadingOverlay st) →
  scriptsLoaded w = true
  ∧ CallWindyInit ∈ events w
  ∧ ∀ s, AppendScript s ∈ events w → ScriptLoaded s ∈ events w.
Proof.
  intros w Hrender.
  destruct (gatedByInit_run L init el ins) as (G1 & G2 & _). fold w in G1, G2.
  pose proof (loadedBeforeInit_run L init el ins) as Hinv. fold w in Hinv.
  assert (Hload : MapContext.isMapLoading (ctx w) = false).
  { destruct (MapContext.isMapLoading (ctx w)) eqn:Hm; [|done].
    destruct (Hrender (status w)). unfold render. by rewrite Hm. }
  assert (Hcall : CallWindyInit ∈ events w) by auto.
  assert (Hsl : scriptsLoaded w = true).
  { destruct (scriptsLoaded w) eqn:Hsl; [done|].
    destruct (no_call_before_loaded w Hinv Hsl Hcall). }
  split; [done|]. split; [done|].
  destruct Hinv as (_ & _ & _ & _ & I5 & _). by apply I5.
Qed.
Lemma overlay_left_only_after_init_witness :
  let w := run [Mount; RunInitEffect None; WindyCallback true false]
               (mounted true true (Some {["windy-container"]})) in
  CallWindyInit ∈ events w.
Proof.
  refine (proj1 (proj2 (overlay_left_only_after_init true true (Some {["windy-container"]})
                          [Mount; RunInitEffect None; WindyCallback true false] _))).
  intros st. vm_compute. discriminate.
Defined.

Lemma initCalls_app es new : initCalls (es ++ new) = (initCalls es + initCalls new)%nat.
Proof. unfold initCalls. by rewrite filter_app, length_app. Qed.

Lemma failedAttempts_snoc ins i :
  failedAttempts (ins ++ [i]) = (failedAttempts ins + (if throwing i then 1 else 0))%nat.
Proof.
  unfold failedAttempts. rewrite filter_app, length_app. f_equal.
  destruct (throwing i) eqn:Hi.
  - by rewrite filter_cons_True.
  - rewrite filter_cons_False; [done|]. by rewrite Hi.
Qed.

(** Counting the calls among explicitly given new events. *)
Ltac count_calls :=
  simpl; rewrite ?initCalls_app; unfold initCalls; simpl; lia.

Lemma init_step i w :
  (initCalls (events (step i w)) + (if initAttemptedRef (step i w) then 0 else 1)
   ≤ initCalls (events w) + (if initAttemptedRef w then 0 else 1)
     + (if throwing i then 1 else 0))%nat.
Proof.
  destruct i as [|s d|s|t|m t|z|z]; unfold_reaction.
  - destruct (loadScriptsAt w); simpl; try lia.
    destruct (window_L w); simpl; [destruct (windyInit w); simpl|]; count_calls.
  - destruct (loadScriptsAt w), s; simpl; try lia.
    + destruct (windyInit w); count_calls.
    + destruct (windyInit w || d); count_calls.
  - destruct (loadScriptsAt w), s; simpl; try lia; count_calls.
  - destruct (initAttemptedRef w) eqn:Hia; simpl; [rewrite Hia; destruct t; lia|].
    destruct (scriptsLoaded w); simpl; [|rewrite Hia; destruct t; lia].
    case_bool_decide; simpl; [|rewrite Hia; destruct t; lia].
    destruct (windyInit w); simpl; destruct t; count_calls.
  - destruct (callbackGiven w); simpl; [|lia]. destruct t; simpl; lia.
  - destruct (redrawHandler w) as [m|]; simpl; [|lia].
    destruct (m && gt z (Num 10)); simpl; lia.
  - destruct (MapContext.leafletMap (ctx w)); simpl; [|lia].
    destruct (gt z (Num 10)); count_calls.
Qed.

(** X8.  In every run, [windyInit] is called at most once more than the
    number of initialisation attempts in which the call itself threw:
    at most once when none threw. *)
Theorem windyInit_called_once
    (L init : bool) (el : option (gset string)) (ins : list input) :
  let w := run ins (mounted L init el) in
  (initCalls (events w) ≤ 1 + failedAttempts ins)%nat
  ∧ (failedAttempts ins = 0%nat → (initCalls (events w) ≤ 1)%nat)
  ∧ (initAttemptedRef w = false → (initCalls (events w) ≤ failedAttempts ins)%nat).
Proof.
  intros w.
  assert (H : (initCalls (events w) + (if initAttemptedRef w then 0 else 1)
               ≤ 1 + failedAttempts ins)%nat).
  { subst w. induction ins as [|i ins IH] using rev_ind; [simpl; unfold initCalls; simpl; lia|].
    rewrite run_snoc, failedAttempts_snoc.
    pose proof (init_step i (run ins (mounted L init el))). lia. }
  destruct (initAttemptedRef w); lia.
Qed.

Lemma windyInit_called_once_witness :
  let ins := [Mount; RunInitEffect None; WindyCallback true false; RunInitEffect None;
              ZoomEnd (Num 12); RunInitEffect None] in
  failedAttempts ins = 0%nat
  ∧ (initCalls (events (run ins (mounted true true (Some {["windy-container"]})))) ≤ 1)%nat.
Proof.
  split; [reflexivity|].
  apply (proj1 (proj2 (windyInit_called_once true true (Some {["windy-container"]})
                         [Mount; RunInitEffect None; WindyCallback true false;
                          RunInitEffect None; ZoomEnd (Num 12); RunInitEffect None]))).
  reflexivity.
Defined.

Example init_retried_after_throw :
  initCalls (events (run [Mount; RunInitEffect (Some (ErrorObj "boom")); RunInitEffect None]
                         (mounted true true (Some {["windy-container"]})))) = 2%nat.
Proof. reflexivity. Qed.

End MapContainerRunsFacts.

Section OptionsFacts.

Import Env MapContainerOptions.

Variable parseFloat : string → number.

Lemma parseNumber_not_NaN value dflt :
  isNaN dflt = false → isNaN (parseNumber parseFloat value dflt) = false.
Proof.
  intros Hd. unfold parseNumber. by destruct (isNaN (parseFloat value)) eqn:Hp.
Qed.

(** X9.  The options object handed to [windyInit] is always usable,
    whatever the environment holds: the API key is never empty (the
    configured key when there is one, the built-in key otherwise), the map
    centre and zoom are never [NaN], and [timestamp] is the clock in whole
    seconds, rounded down. *)
Theorem windyOptions_usable (E : sources) (dateNow : Z) :
  let o := windyOptions (env parseFloat E) dateNow in
  key o ≠ ""
  ∧ (getEnvVar E "WINDY_API_KEY" "" ≠ "" → key o = getEnvVar E "WINDY_API_KEY" "")
  ∧ isNaN (lat o) = false
  ∧ isNaN (lon o) = false
  ∧ isNaN (zoom o) = false
  ∧ (1000 * timestamp o ≤ dateNow < 1000 * timestamp o + 1000)%Z.
Proof.
  simpl. split; [|split].
  - destruct (getEnvVar E "WINDY_API_KEY" "") eqn:Hk; simpl; done.
  - destruct (getEnvVar E "WINDY_API_KEY" "") eqn:Hk; simpl; done.
  - repeat split; try (by apply parseNumber_not_NaN).
    + apply Z.mul_div_le. lia.
    + pose proof (Z.mul_succ_div_gt dateNow 1000). lia.
Qed.

End OptionsFacts.

Lemma windyOptions_usable_witness :
  let E := {| Env.window_env := Some {[ "REACT_APP_WINDY_API_KEY" := "k-runtime" ]};
              Env.process_env := {[ "REACT_APP_MAP_DEFAULT_ZOOM" := "high" ]} |} in
  MapContainerOptions.key (MapContainerOptions.windyOptions (Env.env Env.parseFloat E) 1700000000123%Z) = "k-runtime".
Proof.
  intros E.
  apply (proj1 (proj2 (windyOptions_usable Env.parseFloat E 1700000000123%Z))).
  vm_compute. discriminate.
Defined.


Section HookFacts.

Import MockDataService useDataFetching useDataFetchingHook.

Context {J : Type}.
Variable API_URL : string.

(** X10.  With [USE_MOCK_DATA] on, [fetchWithParams] does exactly what
    [refetch] does: the new query parameters never reach the result, the
    state or the network. *)
Theorem fetchWithParams_ignores_params
    (options : FetchOptions) (newParams : gmap string string) (w : world J) :
  fetchWithParams API_URL options newParams w = refetch API_URL options w.
Proof.
  unfold fetchWithParams, refetch. by rewrite !fetchData_mock_run.
Qed.

End HookFacts.

Section MapMarkersFacts.

Import MapMarkers.

Lemma forEach_removeLayer (l : list marker) (w : world) :
  forEach removeLayer l w
  = (Ok tt, onMap (λ ls, foldl (λ ls m, ls ∖ {[inr (created m)]}) ls l) w).
Proof.
  revert w. induction l as [|m l IH]; intros w.
  - simpl. unfold JS.ret. f_equal. destruct w as [[ls|] ms c s]; done.
  - simpl. unfold removeLayer. unfold_monad. rewrite IH. f_equal.
    destruct w as [[ls|] ms c s]; done.
Qed.

Lemma elem_of_removed (l : list marker) (ls : gset layer) (x : layer) :
  x ∈ foldl (λ ls m, ls ∖ {[inr (created m)]}) ls l
  ↔ x ∈ ls ∧ ∀ m, m ∈ l → x ≠ inr (created m).
Proof.
  revert ls. induction l as [|m l IH]; intros ls; simpl.
  - split; [intros H; split; [done|]; by intros m []%elem_of_nil|by intros [? _]].
  - rewrite IH, elem_of_difference, elem_of_singleton. split.
    + intros [[Hin Hne] Hl]. split; [done|].
      intros m' [->|Hm']%elem_of_cons; auto.
    + intros [Hin Hl]. split; [split; [done|]|].
      * apply Hl, list_elem_of_here.
      * intros m' Hm'. apply Hl. by apply list_elem_of_further.
Qed.

(** What the render after a call leaves of the map: the markers of the
    render before are taken off, and so are the weather markers when
    there is a service. *)
Lemma rerender_spec (before after : world) ls0 ls :
  leafletMap before = Some ls0 → leafletMap after = Some ls →
  windyService after = windyService before →
  let w := rerender before after in
  markers w = markers after
  ∧ count w = count after
  ∧ windyService w = (λ _, ∅) <$> windyService before
  ∧ ∃ ls', leafletMap w = Some ls'
           ∧ ∀ x, x ∈ ls'
                  ↔ x ∈ ls
                    ∧ (∀ m, m ∈ markers before → x ≠ inr (created m))
                    ∧ (∀ name, x = inl name → name ∉ default ∅ (windyService before)).
Proof.
  intros Hb Ha Hs. unfold rerender, cleanup, service_cleanup. rewrite Hb.
  unfold_monad. rewrite forEach_removeLayer.
  destruct (windyService before) as [g|] eqn:Hg; simpl; rewrite Ha, ?Hs; simpl.
  - split_and!; try done. eexists. split; [done|]. intros x.
    rewrite elem_of_difference, elem_of_removed, elem_of_map. split.
    + intros [[Hx Hm] Hn]. split_and!; try done. intros name -> Hin. apply Hn. eauto.
    + intros (Hx & Hm & Hn). split; [done|]. intros (name & -> & Hin). by apply (Hn name).
  - split_and!; try done. eexists. split; [done|]. intros x.
    rewrite elem_of_removed. split.
    + intros [Hx Hm]. by split_and!.
    + by intros (Hx & Hm & _).
Qed.

(** A call that makes a marker, followed by its render. *)
Lemma new_marker_spec (w : world) (ls : gset layer) (p : GeoPoint) (o : op) :
  o = Click p ∨ o = Add p →
  leafletMap w = Some ls →
  exec (perform o) w
  = {| leafletMap := Some (ls ∪ {[inr (count w)]});
       markers := markers w ++ [{| created := count w; position := p |}];
       count := S (count w);
       windyService := windyService w |}.
Proof.
  intros [-> | ->] Hls; simpl.
  - unfold exec, handleMapClick, L_marker, addTo. unfold_monad. rewrite Hls. simpl.
    unfold onMap, setMarkers. simpl. by rewrite ?Hls.
  - unfold exec, addMarker, L_marker, addTo. unfold_monad. rewrite Hls. simpl.
    unfold onMap, setMarkers. simpl. by rewrite ?Hls.
Qed.

Lemma clear_spec (w : world) (ls : gset layer) :
  leafletMap w = Some ls →
  exec (perform Clear) w
  = {| leafletMap := Some (foldl (λ ls m, ls ∖ {[inr (created m)]}) ls (markers w));
       markers := [];
       count := count w;
       windyService := windyService w |}.
Proof.
  intros Hls. simpl. unfold exec, clearMarkers. unfold_monad. rewrite Hls.
  rewrite forEach_removeLayer. simpl. unfold onMap, setMarkers. simpl. by rewrite Hls.
Qed.

Lemma sinceClear_snoc os o :
  sinceClear (os ++ [o])
  = match o with
    | Click p | Add p => sinceClear os ++ [p]
    | Clear => []
    end.
Proof. unfold sinceClear. by rewrite foldl_app. Qed.

Lemma performAll_snoc os o w :
  performAll (os ++ [o]) w
  = rerender (performAll os w) (exec (perform o) (performAll os w)).
Proof. unfold performAll. by rewrite foldl_app. Qed.

(** The state of the provider after the calls [os]. *)
Lemma performAll_spec (names : gset string) (service : option (gset string)) (os : list op) :
  let w := performAll os (setWindyService service (withMap names)) in
  position <$> markers w = sinceClear os
  ∧ newestShown w
  ∧ windyService w = (if os is [] then service else (λ _, ∅) <$> service)
  ∧ ∀ ls, leafletMap w = Some ls →
      ∀ name, inl name ∈ ls ↔ name ∈ names ∧ (os = [] ∨ name ∉ default ∅ service).
Proof.
  induction os as [|o os IH] using rev_ind.
  - simpl. split_and!; try done.
    + split_and!; [apply NoDup_nil_2|by intros m ?%elem_of_nil|].
      eexists. split; [done|]. intros n. rewrite elem_of_map. simpl. split; [|done].
      by intros (? & [=] & _).
    + intros ls [= <-] name. rewrite elem_of_map. split.
      * intros (y & [= ->] & Hy). split; [done|by left].
      * intros [Hn _]. eauto.
  - destruct IH as (Hpos & (Hnd & Hlt & ls & Hls & Hnew) & Hsvc & Hnames).
    rewrite performAll_snoc. set (w := performAll os _) in *.
    specialize (Hnames ls Hls).
    assert (Hweather : ∀ name,
              (name ∈ names ∧ (os = [] ∨ name ∉ default ∅ service))
              ∧ name ∉ default ∅ (windyService w)
              ↔ name ∈ names ∧ (os ++ [o] = [] ∨ name ∉ default ∅ service)).
    { intros name. rewrite Hsvc. clear.
      destruct os as [|o' os'], service as [g|]; simpl;
        (split; [intros [[? [?|?]] ?]|intros [? [?|?]]]); try done;
        split_and?; try done; try (by right); try apply not_elem_of_empty;
        by left. }
    assert (Hsvcnew : (if os ++ [o] is [] then service else (λ _, ∅) <$> service)
                      = (λ _, ∅) <$> windyService w).
    { rewrite Hsvc. by destruct os, service. }
    assert (Hon : ∀ n, inr n ∈ ls → ∃ m, m ∈ markers w ∧ created m = n).
    { intros n Hn%Hnew%last_Some_elem_of. apply list_elem_of_fmap in Hn as (m & -> & Hm).
      eauto. }
    rewrite Hsvcnew, sinceClear_snoc.
    assert (Hmake : ∀ p, o = Click p ∨ o = Add p →
              let w1 := rerender w (exec (perform o) w) in
              position <$> markers w1 = sinceClear os ++ [p]
              ∧ newestShown w1
              ∧ windyService w1 = (λ _, ∅) <$> windyService w
              ∧ ∀ ls1, leafletMap w1 = Some ls1 →
                  ∀ name, inl name ∈ ls1
                          ↔ name ∈ names ∧ (os ++ [o] = [] ∨ name ∉ default ∅ service)).
    { intros p Ho. rewrite (new_marker_spec w ls p o Ho Hls).
      match goal with
      | |- context [rerender w ?a] =>
          destruct (rerender_spec w a ls _ Hls eq_refl eq_refl)
            as (Hm & Hc & Hs & ls1 & Hls1 & Hin)
      end.
      simpl in Hm, Hc, Hs, Hin. cbn zeta.
      rewrite Hm, Hs. split_and!; [| |done|].
      - rewrite fmap_app. simpl. by rewrite Hpos.
      - unfold newestShown. rewrite Hm, Hc, Hls1. rewrite fmap_app. simpl. split_and!.
        + apply NoDup_app. split; [done|]. split; [|apply NoDup_singleton].
          intros n (m & -> & Hm')%list_elem_of_fmap Heq%list_elem_of_singleton.
          specialize (Hlt m Hm'). lia.
        + intros m [Hm'| ->%list_elem_of_singleton]%elem_of_app; simpl; [|lia].
          specialize (Hlt m Hm'). lia.
        + eexists. split; [done|]. intros n. rewrite last_snoc, Hin.
          rewrite elem_of_union, elem_of_singleton. split.
          * intros ([Hn|[= ->]] & Hne & _); [|done].
            destruct (Hon n Hn) as (m & Hm' & <-). by destruct (Hne m Hm').
          * intros [= <-]. split_and!; [by right| |done].
            intros m Hm' [= Heq]. specialize (Hlt m Hm'). lia.
      - rewrite Hls1. intros ls2 [= <-] name.
        rewrite Hin, elem_of_union, elem_of_singleton, Hnames, <- Hweather. split.
        + intros ([Hn|[=]] & _ & Hg). split; [done|]. by apply Hg.
        + intros [Hn Hg]. split_and!; [by left|done|]. by intros name' [= <-]. }
    destruct o as [p|p|].
    + apply (Hmake p). by left.
    + apply (Hmake p). by right.
    + rewrite (clear_spec w ls Hls).
      match goal with
      | |- context [rerender w ?a] =>
          destruct (rerender_spec w a ls _ Hls eq_refl eq_refl)
            as (Hm & Hc & Hs & ls1 & Hls1 & Hin)
      end.
      simpl in Hm, Hc, Hs, Hin. cbn zeta.
      rewrite Hm, Hs. split_and!; [done| |done|].
      * unfold newestShown. rewrite Hm, Hc, Hls1. simpl. split_and!.
        -- apply NoDup_nil_2.
        -- by intros m ?%elem_of_nil.
        -- eexists. split; [done|]. intros n. rewrite Hin, elem_of_removed. split; [|done].
           intros ([Hn _] & Hne & _).
           destruct (Hon n Hn) as (m & Hm' & <-). by destruct (Hne m Hm').
      * rewrite Hls1. intros ls2 [= <-] name.
        rewrite Hin, elem_of_removed, Hnames, <- Hweather. split.
        -- intros ([Hn _] & _ & Hg). split; [done|]. by apply Hg.
        -- intros [Hn Hg]. split; [split; [exact Hn|done]|]. split; [done|].
           by intros name' [= <-].
Qed.

(** X12.  On a provider with a map, after any sequence of
    [handleMapClick], [addMarker] and [clearMarkers] calls with
    coordinates that are numbers, each followed by the render it
    causes: the [markers] state lists a marker for every point given
    since the last [clearMarkers], in order, but only the newest of them
    is on the map.  The effect's cleanup runs at every change of
    [markers] and takes the markers of the render before off the map;
    it also calls [windyService.cleanup()], so that after the first call
    the weather markers of the service are gone from the map as well.
    The map's other layers are untouched. *)
Theorem map_shows_newest_marker
    (names : gset string) (service : option (gset string)) (os : list op) :
  Forall valid os →
  let w := performAll os (setWindyService service (withMap names)) in
  position <$> markers w = sinceClear os
  ∧ newestShown w
  ∧ ∀ ls, leafletMap w = Some ls →
      ∀ name, inl name ∈ ls ↔ name ∈ names ∧ (os = [] ∨ name ∉ default ∅ service).
Proof.
  intros _ w.
  destruct (performAll_spec names service os) as (Hpos & Hnew & _ & Hnames).
  by split_and!.
Qed.

(** X13.  Without a map, [handleMapClick] and [clearMarkers] return
    without any effect (the [markers] state is left as it is, even when
    not empty), and [addMarker] throws "Map not initialized". *)
Theorem markers_need_a_map (w : world) (p : GeoPoint) :
  leafletMap w = None →
  handleMapClick p w = (Ok tt, w)
  ∧ clearMarkers w = (Ok tt, w)
  ∧ addMarker p w = (Throw (ErrorObj "Map not initialized"), w).
Proof.
  intros Hmap. unfold handleMapClick, clearMarkers, addMarker. unfold_monad.
  by rewrite Hmap.
Qed.

Lemma markers_need_a_map_witness :
  let w := setLeafletMap None
             (performAll [Click {| lat := Num 10; lng := Num 106 |}] (withMap ∅)) in
  length (markers w) = 1%nat
  ∧ exec clearMarkers w = w.
Proof.
  split; [reflexivity|].
  unfold exec.
  by rewrite (proj1 (proj2 (markers_need_a_map
                (setLeafletMap None
                   (performAll [Click {| lat := Num 10; lng := Num 106 |}] (withMap ∅)))
                {| lat := Num 0; lng := Num 0 |} eq_refl))).
Defined.

End MapMarkersFacts.

Lemma map_shows_newest_marker_witness :
  let p := {| lat := Num 10; lng := Num 106 |} in
  let q := {| lat := Num 11; lng := Num 107 |} in
  let w := MapMarkers.performAll [MapMarkers.Click p; MapMarkers.Add q]
             (MapMarkers.setWindyService (Some {["weather-1"]})
                (MapMarkers.withMap {["tiles"; "weather-1"]})) in
  MapMarkers.position <$> MapMarkers.markers w = [p; q]
  ∧ MapMarkers.leafletMap w = Some {[inl "tiles"; inr 1%nat]}.
Proof.
  intros p q w. split.
  - apply (map_shows_newest_marker {["tiles"; "weather-1"]} (Some {["weather-1"]})
             [MapMarkers.Click p; MapMarkers.Add q]).
    repeat constructor.
  - vm_compute. reflexivity.
Defined.

Section MapClickFacts.

Import MapClick.

Variable distanceKm : GeoPoint → GeoPoint → number.

Lemma onMapClick_local latlng (w : world) :
  markers w = [] →
  let w' := exec (onMapClick distanceKm latlng) w in
  markers w' = [] ∧ distance w' = distance w
  ∧ context w' = exec (MapMarkers.handleMapClick latlng) (context w).
Proof.
  intros Hms. unfold exec, onMapClick, inContext. unfold_monad. rewrite Hms.
  destruct (MapMarkers.leafletMap (context w)) as [ls|] eqn:Hmap; simpl.
  - destruct (MapMarkers.handleMapClick latlng (context w)) as [[[]|e] c'] eqn:Hc; simpl;
      done.
  - unfold MapMarkers.handleMapClick. unfold_monad. by rewrite Hmap.
Qed.

(** X14.  The component never calls [setMarkers] on its own [markers]
    state, so [markers.length === 1] never holds: whatever the clicks
    (at coordinates that are numbers), [calculateDistance] is not
    called, [distance] stays [null], the distance overlay is not
    rendered, and each click only reaches the context's
    [handleMapClick], followed by the provider's render. *)
Theorem distance_never_measured (c : MapMarkers.world) (latlngs : list GeoPoint) :
  Forall (λ p, isNaN (lat p) = false ∧ isNaN (lng p) = false) latlngs →
  let w := clicks distanceKm latlngs (mounted c) in
  distance w = None
  ∧ showsDistance w = false
  ∧ markers w = []
  ∧ context w = MapMarkers.performAll (MapMarkers.Click <$> latlngs) c.
Proof.
  intros _ w.
  assert (H : ∀ w0, markers w0 = [] →
              let w1 := clicks distanceKm latlngs w0 in
              markers w1 = [] ∧ distance w1 = distance w0
              ∧ context w1
                = MapMarkers.performAll (MapMarkers.Click <$> latlngs) (context w0)).
  { induction latlngs as [|p ps IH]; intros w0 Hms; [done|].
    destruct (onMapClick_local p w0 Hms) as (Hms' & Hd & Hc).
    simpl. rewrite Hms', Hd, Hc.
    match goal with
    | |- context [clicks distanceKm ps ?w1] =>
        destruct (IH w1 eq_refl) as (Hms'' & Hd' & Hc')
    end.
    simpl in Hd', Hc'. split; [done|]. split; [done|]. by rewrite Hc'. }
  destruct (H (mounted c) eq_refl) as (Hms & Hd & Hc).
  fold w in Hms, Hd, Hc. simpl in Hd, Hc.
  split; [done|]. split; [|done].
  unfold showsDistance. rewrite Hd. apply bool_decide_eq_false_2. by intros [? ?].
Qed.

End MapClickFacts.

Lemma distance_never_measured_witness :
  let p := {| lat := Num 10; lng := Num 106 |} in
  let q := {| lat := Num 11; lng := Num 107 |} in
  MapClick.distance
    (MapClick.clicks (λ _ _, Num 1) [p; q] (MapClick.mounted (MapMarkers.withMap ∅)))
  = None.
Proof.
  intros p q.
  apply (distance_never_measured (λ _ _, Num 1) (MapMarkers.withMap ∅) [p; q]).
  repeat constructor.
Defined.

Section useWindyInitializerFacts.

Import useWindyInitializer.

Variable env : Env.AppEnv.

Section Keeps.

Variable R : world → world → Prop.
Hypothesis R_refl : ∀ w, R w w.
Hypothesis R_trans : ∀ w1 w2 w3, R w1 w2 → R w2 w3 → R w1 w3.

Lemma keeps_ret {A} (a : A) : keeps R (mret a).
Proof. intros w. apply R_refl. Qed.

Lemma keeps_throw {A} e : keeps R (@throw world A e).
Proof. intros w. apply R_refl. Qed.

Lemma keeps_bind {A B} (c : M world A) (k : A → M world B) :
  keeps R c → (∀ a, keeps R (k a)) → keeps R (c ≫= k).
Proof.
  intros Hc Hk w. specialize (Hc w). unfold_monad.
  destruct (c w) as [[a|e] w'] eqn:Hcw; simpl in *; [|done].
  apply (R_trans _ _ _ Hc), Hk.
Qed.

Lemma keeps_get {A} (k : world → M world A) :
  (∀ w, keeps R (k w)) → keeps R (get ≫= k).
Proof. intros Hk w. apply (Hk w w). Qed.

Lemma keeps_modify (f : world → world) : (∀ w, R w (f w)) → keeps R (modify f).
Proof. intros Hf w. apply Hf. Qed.

Lemma keeps_if {A} (b : bool) (c d : M world A) :
  keeps R c → keeps R d → keeps R (if b then c else d).
Proof. by destruct b. Qed.

Lemma keeps_store_set key v :
  (∀ w f, R w (onWindy f w)) → keeps R (store_set key v).
Proof.
  intros Hw w. unfold store_set. unfold_monad.
  destruct (faulty (windy w)); simpl; [apply R_refl|apply Hw].
Qed.

End Keeps.

Lemma configures_refl w : configures w w.
Proof. unfold configures. tauto. Qed.

Lemma configures_trans w1 w2 w3 :
  configures w1 w2 → configures w2 w3 → configures w1 w3.
Proof.
  unfold configures. intros (Hc & Hi & HL & Hf & He & Hh) (Hc' & Hi' & HL' & Hf' & He' & Hh').
  repeat split; try congruence.
  destruct Hh' as [Heq|Hinst]; [|by right].
  destruct Hh as [Heq'|Hinst]; [left|right]; congruence.
Qed.

Lemma given_settle s n (l : list call) :
  given <$> alter (settle s) n l = given <$> l.
Proof.
  revert n. induction l as [|c l IH]; intros [|n]; csimpl; try done.
  f_equal. apply IH.
Qed.

Ltac keeps_step :=
  lazymatch goal with
  | |- keeps _ (mret _) => apply keeps_ret; apply configures_refl
  | |- keeps _ (modify _) =>
      apply keeps_modify; intros ?; unfold configures; simpl; tauto
  | |- keeps _ (store_set _ _) =>
      apply keeps_store_set; [apply configures_refl|];
      intros ? ?; unfold configures; simpl; tauto
  | |- keeps _ (if _ then _ else _) => apply keeps_if
  | |- keeps _ (_ ≫= _) => apply keeps_bind; [apply configures_trans| |intros _]
  end.

Lemma callback_configures options n : keeps configures (callback options n).
Proof.
  unfold callback.
  do 7 (apply keeps_bind;
        [ apply configures_trans
        | unfold say, store_on; try destruct (prop options "graticule");
          repeat keeps_step
        | intros _ ]).
  intros w. unfold setWindyInstance, setLeafletMap, setAttempted, setIsLoading, resolve, say.
  unfold_monad. simpl.
  destruct (api_map (windy w)); unfold configures; simpl; rewrite given_settle; tauto.
Qed.

Lemma hook_run_snoc ins i w : run env (ins ++ [i]) w = step env i (run env ins w).
Proof. unfold run. by rewrite foldl_app. Qed.

Lemma hook_run_cons ins i w : run env (i :: ins) w = run env ins (step env i w).
Proof. done. Qed.

(** The outcome of the callback does not matter to what it leaves
    alone. *)
Lemma callback_outcome options n w r w' :
  callback options n w = (r, w') → configures w w'.
Proof.
  intros H. pose proof (callback_configures options n w) as Hc.
  unfold exec in Hc. by rewrite H in Hc.
Qed.

Lemma bind_run {A B} (c : M world A) (k : A → M world B) w a w' :
  c w = (Ok a, w') → (c ≫= k) w = k a w'.
Proof. intros H. unfold_monad. by rewrite H. Qed.

Lemma when_set (b : bool) k v w :
  faulty (windy w) = None →
  (if b then store_set k v else mret tt) w
  = (Ok tt, onWindy (onStore (putIf b k v)) w).
Proof.
  intros H. destruct b; unfold store_set; unfold_monad; [by rewrite H|].
  by destruct w as [? ? ? ? [] ? ?].
Qed.

Lemma lookup_putIf b k v s k' :
  putIf b k v s !! k' = if b && bool_decide (k = k') then Some v else s !! k'.
Proof.
  unfold putIf. destruct b; simpl; [|done].
  case_bool_decide as Hk; [subst; by rewrite lookup_insert_eq|by rewrite lookup_insert_ne].
Qed.

Lemma units_block (units : value) w :
  faulty (windy w) = None →
  (if truthyValue units then
     (if truthy (field units "temperature")
      then store_set "tempUnit" (Str (field units "temperature")) else mret tt) ;;
     (if truthy (field units "wind")
      then store_set "windUnit" (Str (field units "wind")) else mret tt) ;;
     (if truthy (field units "pressure")
      then store_set "pressureUnit" (Str (field units "pressure")) else mret tt) ;;
     (if truthy (field units "distance")
      then store_set "distanceUnit" (Str (field units "distance")) else mret tt)
   else mret tt) w
  = (Ok tt,
     onWindy (onStore (λ s,
       putIf (truthyValue units && truthy (field units "distance")) "distanceUnit"
         (Str (field units "distance"))
         (putIf (truthyValue units && truthy (field units "pressure")) "pressureUnit"
            (Str (field units "pressure"))
            (putIf (truthyValue units && truthy (field units "wind")) "windUnit"
               (Str (field units "wind"))
               (putIf (truthyValue units && truthy (field units "temperature"))
                  "tempUnit" (Str (field units "temperature")) s))))) w).
Proof.
  intros Hf. destruct (truthyValue units); simpl.
  - erewrite bind_run by (by apply when_set).
    erewrite bind_run by (by apply when_set).
    erewrite bind_run by (by apply when_set).
    by rewrite when_set.
  - unfold_monad. f_equal. by destruct w as [? ? ? ? [] ? ?].
Qed.

Lemma graticule_block (v : value) w :
  faulty (windy w) = None →
  (match v with
   | Undefined => mret tt
   | Str s => store_set "graticule" (Str s)
   | Bool b => store_set "graticule" (Bool b)
   | Number n => store_set "graticule" (Number n)
   | Units u => store_set "graticule" (Units u)
   | Ref object => store_set "graticule" (Ref object)
   end) w
  = (Ok tt, onWindy (onStore (putIf (defined v) "graticule" v)) w).
Proof.
  intros Hf. destruct v; simpl; [| unfold store_set; unfold_monad; by rewrite Hf ..].
  unfold_monad. f_equal. by destruct w as [? ? ? ? [] ? ?].
Qed.

(** The callback on an engine whose store works. *)
Lemma callback_healthy options n w :
  faulty (windy w) = None →
  let units := prop options "units" in
  let given b := truthyValue units && b in
  callback options n w
  = (Ok tt,
     {| cells := {| windyInstance := true; isLoading := false;
                    error := error (cells w);
                    leafletMap := match api_map (windy w) with
                                  | Some m => Some m
                                  | None => leafletMap (cells w)
                                  end;
                    initializationAttemptedRef := false |};
        ids := ids w; window_L := window_L w;
        window_windyInit := window_windyInit w;
        windy :=
          {| store :=
               putIf (truthyValue (prop options "hourFormat")) "hourFormat"
                 (prop options "hourFormat")
                 (putIf (defined (prop options "graticule")) "graticule"
                    (prop options "graticule")
                    (putIf (given (truthy (field units "distance"))) "distanceUnit"
                       (Str (field units "distance"))
                       (putIf (given (truthy (field units "pressure"))) "pressureUnit"
                          (Str (field units "pressure"))
                          (putIf (given (truthy (field units "wind"))) "windUnit"
                             (Str (field units "wind"))
                             (putIf (given (truthy (field units "temperature")))
                                "tempUnit" (Str (field units "temperature"))
                                (store (windy w)))))));
             faulty := None;
             subscribed := (subscribed (windy w) ++ ["overlay"]) ++ ["level"];
             api_map := api_map (windy w) |};
        console := console (exec (callback options n) w);
        calls := alter (settle Fulfilled) n (calls w) |}).
Proof.
  intros Hf units given.
  assert (Hrun : ∃ log, callback options n w
    = (Ok tt,
     {| cells := {| windyInstance := true; isLoading := false;
                    error := error (cells w);
                    leafletMap := match api_map (windy w) with
                                  | Some m => Some m
                                  | None => leafletMap (cells w)
                                  end;
                    initializationAttemptedRef := false |};
        ids := ids w; window_L := window_L w;
        window_windyInit := window_windyInit w;
        windy :=
          {| store :=
               putIf (truthyValue (prop options "hourFormat")) "hourFormat"
                 (prop options "hourFormat")
                 (putIf (defined (prop options "graticule")) "graticule"
                    (prop options "graticule")
                    (putIf (given (truthy (field units "distance"))) "distanceUnit"
                       (Str (field units "distance"))
                       (putIf (given (truthy (field units "pressure"))) "pressureUnit"
                          (Str (field units "pressure"))
                          (putIf (given (truthy (field units "wind"))) "windUnit"
                             (Str (field units "wind"))
                             (putIf (given (truthy (field units "temperature")))
                                "tempUnit" (Str (field units "temperature"))
                                (store (windy w)))))));
             faulty := None;
             subscribed := (subscribed (windy w) ++ ["overlay"]) ++ ["level"];
             api_map := api_map (windy w) |};
        console := log;
        calls := alter (settle Fulfilled) n (calls w) |})).
  { unfold callback.
    erewrite bind_run by reflexivity.
    erewrite bind_run by (by apply units_block).
    erewrite bind_run by (by apply graticule_block).
    erewrite bind_run by (by apply when_set).
    unfold store_on, say, setWindyInstance, setLeafletMap, setAttempted, setIsLoading,
      resolve.
    unfold_monad. simpl. rewrite Hf.
    destruct (api_map (windy w)); simpl; eexists; reflexivity. }
  destruct Hrun as [log Hrun]. unfold exec. by rewrite Hrun.
Qed.

(** The callback on an engine whose [store.set] throws, for options
    that name a temperature unit. *)
Lemma callback_faulty options n w e :
  faulty (windy w) = Some e →
  truthyValue (prop options "units") = true →
  truthy (field (prop options "units") "temperature") = true →
  callback options n w
  = (Throw e, exec (say Log "Windy initialized successfully with API") w).
Proof.
  intros Hf Hu Ht. unfold callback. rewrite Hu, Ht.
  unfold store_set, say. unfold_monad. simpl. by rewrite Hf.
Qed.

Lemma defaultOptions_units :
  defaultOptions env !! "units"
  = Some (Units {[ "temperature" := "C"; "wind" := "m/s";
                   "pressure" := "hPa"; "distance" := "km" ]}).
Proof. reflexivity. Qed.

Lemma defaultOptions_graticule : defaultOptions env !! "graticule" = Some (Bool true).
Proof. reflexivity. Qed.

Lemma defaultOptions_hourFormat : defaultOptions env !! "hourFormat" = Some (Str "24h").
Proof. reflexivity. Qed.

Local Opaque callback defaultOptions.

Lemma calledOnce_initialize w mapContainer initialOptions :
  calledOnce w →
  calledOnce (exec (initializeWindy env (windyInstance (cells w)) mapContainer
                                    initialOptions) w).
Proof.
  intros Hw. unfold initializeWindy, windyInitFn, say, setId, setAttempted, setIsLoading,
    setError, recordCall, reject.
  unfold_monad.
  destruct (bool_decide (idOf w mapContainer ≠ "windy")); simpl.
  all: destruct (initializationAttemptedRef (cells w)) eqn:Ha; simpl; [done|].
  all: destruct (windyInstance (cells w)) eqn:Hi; simpl; [done|].
  all: assert (Hnil : calls w = [])
    by (destruct Hw as [?|[_ [?|?]]]; [done|congruence|congruence]).
  all: destruct (window_L w); simpl; [|done].
  all: destruct (window_windyInit w) as [[e| |]|]; simpl; [| | |done].
  all: try (right; rewrite Hnil; simpl; rewrite ?length_alter; by auto).
  all: match goal with
       | |- context [callback ?o ?n ?w0] =>
           destruct (callback o n w0) as [[[]|e] w2] eqn:Hcb;
           apply callback_outcome in Hcb;
           destruct Hcb as (Hg & _ & _ & _ & _ & Hc); simpl in Hg, Hc |- *
       end.
  all: right; unfold onCalls; simpl; rewrite ?length_alter.
  all: apply (f_equal length) in Hg; rewrite !length_fmap, Hnil in Hg; simpl in Hg.
  all: split; [done|].
  all: destruct Hc as [-> | ->]; simpl; auto.
Qed.

Lemma calledOnce_step i w : calledOnce w → calledOnce (step env i w).
Proof.
  intros Hw. destruct i as [el o|n|L f]; simpl.
  - by apply calledOnce_initialize.
  - destruct (calls w !! n) as [c|] eqn:Hn; [|done].
    destruct (callback_configures (given c) n w) as (Hg & _ & _ & _ & _ & Hc).
    apply (f_equal length) in Hg. rewrite !length_fmap in Hg.
    destruct Hw as [Hnil|[Hlen Hor]]; [by rewrite Hnil in Hn|].
    right. split; [congruence|].
    destruct Hc as [-> | ->]; auto.
  - done.
Qed.

Lemma calledOnce_run ins w : calledOnce w → calledOnce (run env ins w).
Proof.
  induction ins as [|i ins IH] using rev_ind; [done|].
  intros Hw. rewrite hook_run_snoc. by apply calledOnce_step, IH.
Qed.

(** X15.  In every run of a mounted hook, [windyInit] is called at most
    once, whatever the engine does with the call: once it has been
    called, the ref or the stored instance blocks every later attempt. *)
Theorem windyInit_called_at_most_once
    (ids : gmap nat string) (L : bool) (windyInit : option engine) (api : WindyAPI)
    (ins : list input) :
  let w := run env ins (mounted ids L windyInit api) in
  (length (calls w) ≤ 1)%nat
  ∧ (calls w ≠ [] →
     initializationAttemptedRef (cells w) = true ∨ windyInstance (cells w) = true).
Proof.
  intros w. assert (Hw : calledOnce w) by (apply calledOnce_run; by left).
  destruct Hw as [Hnil|[Hlen Hor]].
  - rewrite Hnil. simpl. split; [lia|done].
  - split; [lia|done].
Qed.

Ltac unfold_hook := unfold initializeWindy, windyInitFn; unfold_monad.

(** While the ref is set, nothing but the engine's callback moves the
    hook. *)
Lemma blocked_step i w :
  initializationAttemptedRef (cells w) = true → isCallback i = false →
  cells (step env i w) = cells w ∧ calls (step env i w) = calls w
  ∧ windy (step env i w) = windy w.
Proof.
  intros Ha Hi. destruct i as [el o|n|L f]; [|done|done]. simpl.
  unfold_hook. destruct (bool_decide (idOf w el ≠ "windy")); simpl; by rewrite Ha.
Qed.

Lemma blocked_run ins w :
  initializationAttemptedRef (cells w) = true →
  forallb (λ i, negb (isCallback i)) ins = true →
  cells (run env ins w) = cells w ∧ calls (run env ins w) = calls w
  ∧ windy (run env ins w) = windy w.
Proof.
  revert w. induction ins as [|i ins IH]; intros w Ha Hins; [done|].
  simpl in Hins. apply andb_prop in Hins as [Hi Hins]. apply negb_true_iff in Hi.
  destruct (blocked_step i w Ha Hi) as (Hc & Hl & Hy).
  rewrite hook_run_cons.
  destruct (IH (step env i w)) as (Hc' & Hl' & Hy'); [congruence|done|].
  repeat split; congruence.
Qed.

Lemma alter_last {A} (f : A → A) (l : list A) (x : A) :
  alter f (length l) (l ++ [x]) = l ++ [f x].
Proof. induction l as [|y l IH]; csimpl; [done|]. f_equal. apply IH. Qed.

(** X16.  When [windyInit] throws, the promise is rejected with the
    error, but the hook is left as if the call were still under way:
    [isLoading] and the ref stay set and [error] is not touched; and
    until the engine calls back, no later call of [initializeWindy] and
    no change of the page gets it out of that state. *)
Theorem windyInit_throw_leaves_hook_loading
    (w : world) (mapContainer : nat) (initialOptions : options) (e : thrown)
    (ins : list input) :
  window_L w = true →
  window_windyInit w = Some (Throws e) →
  initializationAttemptedRef (cells w) = false →
  let n := length (calls w) in
  let c := initializeWindy env false mapContainer initialOptions in
  let w1 := exec c w in
  eval c w = Ok (FromCall n)
  ∧ calls w1
    = calls w ++ [{| given := initialOptions ∪ defaultOptions env;
                     promised := Some (Rejected (asError "Failed to initialize Windy" e)) |}]
  ∧ isLoading (cells w1) = true
  ∧ initializationAttemptedRef (cells w1) = true
  ∧ error (cells w1) = error (cells w)
  ∧ windyInstance (cells w1) = windyInstance (cells w)
  ∧ (forallb (λ i, negb (isCallback i)) ins = true →
     cells (run env ins w1) = cells w1 ∧ calls (run env ins w1) = calls w1).
Proof.
  intros HL Hf Ha n c w1.
  assert (Hrun : c w
    = (Ok (FromCall n),
       {| cells := {| windyInstance := windyInstance (cells w); isLoading := true;
                      error := error (cells w); leafletMap := leafletMap (cells w);
                      initializationAttemptedRef := true |};
          ids := <[mapContainer := "windy"]> (ids w);
          window_L := window_L w; window_windyInit := window_windyInit w;
          windy := windy w;
          console := console (exec c w);
          calls := calls w ++ [{| given := initialOptions ∪ defaultOptions env;
                     promised := Some (Rejected (asError "Failed to initialize Windy" e)) |}]
       |})).
  { subst c n. unfold_hook.
    destruct (bool_decide (idOf w mapContainer ≠ "windy")) eqn:Hid; simpl;
      rewrite Ha, HL, Hf; simpl; unfold onCalls; simpl; rewrite alter_last; simpl; [done|].
    apply bool_decide_eq_false in Hid. apply dec_stable in Hid.
    rewrite insert_id; [by rewrite ?HL, ?Hf|].
    unfold idOf in Hid. by destruct (ids w !! mapContainer); simplify_eq/=. }
  subst w1. unfold exec, eval in *. rewrite Hrun. simpl.
  repeat split; try done.
  all: by apply blocked_run.
Qed.

Lemma windy_id_stays w mapContainer :
  idOf w mapContainer = "windy" → <[mapContainer := "windy"]> (ids w) = ids w.
Proof.
  intros Hid. apply insert_id. unfold idOf in Hid.
  by destruct (ids w !! mapContainer); simplify_eq/=.
Qed.

(** The run of [initializeWindy] on a page with both scripts, up to the
    point where [windyInit] has been entered. *)
Lemma initializeWindy_enters w mapContainer initialOptions windyInit :
  window_L w = true →
  window_windyInit w = Some windyInit →
  initializationAttemptedRef (cells w) = false →
  ∃ log,
    initializeWindy env false mapContainer initialOptions w
    = (let n := length (calls w) in
       let w0 := {| cells := {| windyInstance := windyInstance (cells w);
                                isLoading := true; error := error (cells w);
                                leafletMap := leafletMap (cells w);
                                initializationAttemptedRef := true |};
                    ids := <[mapContainer := "windy"]> (ids w);
                    window_L := true; window_windyInit := Some windyInit;
                    windy := windy w; console := log;
                    calls := calls w ++ [{| given := initialOptions ∪ defaultOptions env;
                                            promised := None |}] |} in
       let failed e w' :=
         (Ok (FromCall n),
          exec (say Error "Error in windyInit call:" ;;
                reject n (asError "Failed to initialize Windy" e)) w') in
       match windyInit with
       | Throws e => failed e w0
       | CallsBack =>
           match callback (initialOptions ∪ defaultOptions env) n w0 with
           | (Ok _, w') => (Ok (FromCall n), w')
           | (Throw e, w') => failed e w'
           end
       | Defers => (Ok (FromCall n), w0)
       end).
Proof.
  intros HL Hf Ha. unfold_hook.
  destruct (bool_decide (idOf w mapContainer ≠ "windy")) eqn:Hid; simpl;
    rewrite Ha, HL, Hf; simpl; unfold onCalls; simpl; rewrite ?HL, ?Hf.
  - eexists. destruct windyInit as [e| |]; simpl; [reflexivity| |reflexivity].
    by destruct (callback _ _ _) as [[[]|e] w'].
  - apply bool_decide_eq_false in Hid. apply dec_stable in Hid.
    rewrite (windy_id_stays _ _ Hid).
    eexists. destruct windyInit as [e| |]; simpl; [reflexivity| |reflexivity].
    by destruct (callback _ _ _) as [[[]|e] w'].
Qed.

(** X17.  Without the Leaflet or the Windy script the call is rejected
    and the error stored, but the ref is not set: once the scripts are
    there, the next call does reach [windyInit]. *)
Theorem missing_scripts_allow_retry
    (w : world) (mapContainer : nat) (initialOptions : options) :
  initializationAttemptedRef (cells w) = false →
  window_L w = false ∨ window_windyInit w = None →
  let c := initializeWindy env false mapContainer initialOptions in
  let w1 := exec c w in
  eval c w = Ok (Already (Rejected "Required scripts not loaded yet"))
  ∧ error (cells w1) = Some "Required scripts not loaded yet"
  ∧ calls w1 = calls w
  ∧ initializationAttemptedRef (cells w1) = false
  ∧ isLoading (cells w1) = isLoading (cells w)
  ∧ (windyInstance (cells w) = false →
     ∀ windyInit mapContainer' initialOptions',
       length (calls (run env [Globals true (Some windyInit);
                               Initialize mapContainer' initialOptions'] w1))
       = S (length (calls w))).
Proof.
  intros Ha Hmissing c w1.
  assert (Hrun : ∃ ids' log,
    c w = (Ok (Already (Rejected "Required scripts not loaded yet")),
           {| cells := {| windyInstance := windyInstance (cells w);
                          isLoading := isLoading (cells w);
                          error := Some "Required scripts not loaded yet";
                          leafletMap := leafletMap (cells w);
                          initializationAttemptedRef := false |};
              ids := ids'; window_L := window_L w;
              window_windyInit := window_windyInit w; windy := windy w;
              console := log; calls := calls w |})).
  { assert (Hcase : window_L w = false
                     ∨ (window_L w = true ∧ window_windyInit w = None)).
    { destruct (window_L w); [right|by left]. by destruct Hmissing. }
    subst c. unfold_hook.
    destruct (bool_decide (idOf w mapContainer ≠ "windy")); simpl; rewrite Ha; simpl.
    all: destruct Hcase as [HL|[HL Hf]]; rewrite HL; try rewrite Hf;
      simpl; unfold onCells; simpl; rewrite ?Ha, ?HL; try rewrite !Hf;
      eexists _, _; reflexivity. }
  destruct Hrun as (ids' & log & Hrun). subst w1. unfold exec, eval. rewrite Hrun.
  cbn [fst snd]. repeat split; try done.
  intros Hi windyInit el' o'. unfold run. cbn [foldl step].
  match goal with
  | |- context [exec (initializeWindy env ?b _ _) ?W] =>
      replace b with false by (simpl; by rewrite Hi);
      destruct (initializeWindy_enters W el' o' windyInit eq_refl eq_refl eq_refl)
        as [log' Henter]
  end.
  unfold exec. rewrite Henter. simpl.
  destruct windyInit as [e| |]; simpl.
  - unfold reject, say, onCalls. unfold_monad. simpl.
    by rewrite length_alter, length_app, Nat.add_1_r.
  - match goal with
    | |- context [callback ?o ?n ?w0] =>
        destruct (callback o n w0) as [[[]|e] w2] eqn:Hcb;
        apply callback_outcome in Hcb; destruct Hcb as (Hg & _)
    end.
    all: apply (f_equal length) in Hg; simpl in Hg;
      rewrite !length_fmap, length_app, Nat.add_1_r in Hg; simpl in Hg.
    + done.
    + unfold reject, say, onCalls. unfold_monad. simpl. by rewrite length_alter.
  - by rewrite length_app, Nat.add_1_r.
Qed.

(** X18.  Every call gives the container the id [windy], also a call
    that returns at once or is rejected; no other element is renamed,
    and the call itself never throws: a failure only shows in the
    promise. *)
Theorem initializeWindy_names_container
    (w : world) (windyInstance : bool) (mapContainer : nat) (initialOptions : options) :
  let c := initializeWindy env windyInstance mapContainer initialOptions in
  (∃ p, eval c w = Ok p)
  ∧ ids (exec c w) = <[mapContainer := "windy"]> (ids w).
Proof.
  intros c.
  assert (Hrun : ∃ p w', c w = (Ok p, w') ∧ ids w' = <[mapContainer := "windy"]> (ids w)).
  { subst c. unfold_hook.
    assert (Hids : ids (if bool_decide (idOf w mapContainer ≠ "windy")
                        then exec (setId mapContainer "windy") w else w)
                   = <[mapContainer := "windy"]> (ids w)).
    { case_bool_decide as Hid; [done|]. by rewrite windy_id_stays. }
    destruct (bool_decide (idOf w mapContainer ≠ "windy")); simpl in Hids |- *.
    all: destruct (initializationAttemptedRef (cells w) || windyInstance); simpl;
      [by eexists _, _|].
    all: destruct (window_L w); simpl; [|by eexists _, _].
    all: destruct (window_windyInit w) as [[e| |]|]; simpl; try by eexists _, _.
    all: match goal with
         | |- context [callback ?o ?n ?w0] =>
             destruct (callback o n w0) as [[[]|e] w2] eqn:Hcb;
             apply callback_outcome in Hcb;
             destruct Hcb as (_ & Hi & _); simpl in Hi |- *
         end.
    all: eexists _, _; split; [reflexivity|]; simpl; congruence. }
  destruct Hrun as (p & w' & Hrun & Hids). unfold exec, eval. rewrite Hrun. eauto.
Qed.

(** The whole run when the engine calls back at once and its store
    works. *)
Lemma initializeWindy_healthy w mapContainer initialOptions :
  window_L w = true →
  window_windyInit w = Some CallsBack →
  initializationAttemptedRef (cells w) = false →
  faulty (windy w) = None →
  let n := length (calls w) in
  let merged := initialOptions ∪ defaultOptions env in
  let units := prop merged "units" in
  let given b := truthyValue units && b in
  ∃ log,
    initializeWindy env false mapContainer initialOptions w
    = (Ok (FromCall n),
       {| cells := {| windyInstance := true; isLoading := false;
                      error := error (cells w);
                      leafletMap := match api_map (windy w) with
                                    | Some m => Some m
                                    | None => leafletMap (cells w)
                                    end;
                      initializationAttemptedRef := false |};
          ids := <[mapContainer := "windy"]> (ids w);
          window_L := true; window_windyInit := Some CallsBack;
          windy :=
            {| store :=
                 putIf (truthyValue (prop merged "hourFormat")) "hourFormat"
                   (prop merged "hourFormat")
                   (putIf (defined (prop merged "graticule")) "graticule"
                      (prop merged "graticule")
                      (putIf (given (truthy (field units "distance"))) "distanceUnit"
                         (Str (field units "distance"))
                         (putIf (given (truthy (field units "pressure"))) "pressureUnit"
                            (Str (field units "pressure"))
                            (putIf (given (truthy (field units "wind"))) "windUnit"
                               (Str (field units "wind"))
                               (putIf (given (truthy (field units "temperature")))
                                  "tempUnit" (Str (field units "temperature"))
                                  (store (windy w)))))));
               faulty := None;
               subscribed := (subscribed (windy w) ++ ["overlay"]) ++ ["level"];
               api_map := api_map (windy w) |};
          console := log;
          calls := calls w ++ [{| given := merged; promised := Some Fulfilled |}] |}).
Proof.
  intros HL Hf Ha Hs n merged units given.
  destruct (initializeWindy_enters w mapContainer initialOptions CallsBack HL Hf Ha)
    as [log Henter].
  rewrite Henter. cbn zeta. rewrite callback_healthy by done. simpl.
  rewrite alter_last. simpl. by eexists.
Qed.

(** X19.  When the engine calls back and its store works, the promise is
    fulfilled and the hook is released: the instance is stored,
    [isLoading] and the ref are cleared, the engine's map becomes
    [leafletMap] when there is one, and the two store listeners are
    registered once.  [setError] is not called: an error stored by an
    earlier attempt stays. *)
Theorem initializeWindy_success
    (w : world) (mapContainer : nat) (initialOptions : options) :
  window_L w = true →
  window_windyInit w = Some CallsBack →
  initializationAttemptedRef (cells w) = false →
  faulty (windy w) = None →
  let n := length (calls w) in
  let c := initializeWindy env false mapContainer initialOptions in
  let w1 := exec c w in
  eval c w = Ok (FromCall n)
  ∧ calls w1 = calls w ++ [{| given := initialOptions ∪ defaultOptions env;
                              promised := Some Fulfilled |}]
  ∧ cells w1
    = {| windyInstance := true; isLoading := false; error := error (cells w);
         leafletMap := match api_map (windy w) with
                       | Some m => Some m
                       | None => leafletMap (cells w)
                       end;
         initializationAttemptedRef := false |}
  ∧ subscribed (windy w1) = subscribed (windy w) ++ ["overlay"; "level"]
  ∧ (∀ k, k ∉ ["tempUnit"; "windUnit"; "pressureUnit"; "distanceUnit";
                "graticule"; "hourFormat"] →
          store (windy w1) !! k = store (windy w) !! k).
Proof.
  intros HL Hf Ha Hs n c w1.
  destruct (initializeWindy_healthy w mapContainer initialOptions HL Hf Ha Hs)
    as [log Hrun].
  subst w1 c. unfold exec, eval. rewrite Hrun. cbn [fst snd].
  repeat split; try done.
  - simpl. by rewrite <- app_assoc.
  - intros k Hk. simpl. rewrite !lookup_putIf.
    rewrite !elem_of_cons, elem_of_nil in Hk.
    repeat (rewrite (bool_decide_eq_false_2 (_ = k))
              by (intros <-; apply Hk; repeat (first [by left | right]))).
    by rewrite !andb_false_r.
Qed.

(** X20.  The caller's options replace the defaults property by
    property, and [units] is one property: when the caller passes a
    [units] object, a unit it leaves out (or leaves empty) is not taken
    from the default units, and the engine's setting for it is not
    touched. *)
Theorem units_are_not_merged
    (w : world) (mapContainer : nat) (initialOptions : options)
    (u : gmap string string) (unit key : string) :
  window_L w = true →
  window_windyInit w = Some CallsBack →
  initializationAttemptedRef (cells w) = false →
  faulty (windy w) = None →
  initialOptions !! "units" = Some (Units u) →
  (unit, key) ∈ [("temperature", "tempUnit"); ("wind", "windUnit");
                 ("pressure", "pressureUnit"); ("distance", "distanceUnit")] →
  let w1 := exec (initializeWindy env false mapContainer initialOptions) w in
  store (windy w1) !! key
  = match u !! unit with
    | Some s => if truthy s then Some (Str s) else store (windy w) !! key
    | None => store (windy w) !! key
    end.
Proof.
  intros HL Hf Ha Hs Hu Hin w1.
  destruct (initializeWindy_healthy w mapContainer initialOptions HL Hf Ha Hs)
    as [log Hrun].
  subst w1. unfold exec. rewrite Hrun. cbn [snd windy store].
  assert (Hunits : prop (initialOptions ∪ defaultOptions env) "units" = Units u).
  { unfold prop. by rewrite (lookup_union_Some_l _ _ _ _ Hu). }
  rewrite Hunits. rewrite !lookup_putIf. simpl.
  rewrite !elem_of_cons, elem_of_nil in Hin.
  destruct Hin as [[= -> ->]|[[= -> ->]|[[= -> ->]|[[= -> ->]|[]]]]]; simpl;
    rewrite !andb_false_r, ?andb_true_r; simpl;
    by destruct (u !! _) as [[|??]|].
Qed.

(** X21.  When the engine calls back at once but its [store.set]
    throws, the promise is rejected with that error, and the hook is
    left loading with the ref set, without an instance and without a
    stored error; the store and its listeners are as before. *)
Theorem faulty_store_leaves_hook_loading
    (w : world) (mapContainer : nat) (initialOptions : options) (e : thrown) :
  window_L w = true →
  window_windyInit w = Some CallsBack →
  initializationAttemptedRef (cells w) = false →
  faulty (windy w) = Some e →
  initialOptions !! "units" = None →
  let n := length (calls w) in
  let c := initializeWindy env false mapContainer initialOptions in
  let w1 := exec c w in
  eval c w = Ok (FromCall n)
  ∧ calls w1 = calls w ++ [{| given := initialOptions ∪ defaultOptions env;
                              promised := Some (Rejected (asError "Failed to initialize Windy" e)) |}]
  ∧ isLoading (cells w1) = true
  ∧ initializationAttemptedRef (cells w1) = true
  ∧ windyInstance (cells w1) = windyInstance (cells w)
  ∧ error (cells w1) = error (cells w)
  ∧ windy w1 = windy w.
Proof.
  intros HL Hf Ha Hs Hu n c w1.
  destruct (initializeWindy_enters w mapContainer initialOptions CallsBack HL Hf Ha)
    as [log Henter].
  assert (Hunits : prop (initialOptions ∪ defaultOptions env) "units"
                   = Units {[ "temperature" := "C"; "wind" := "m/s";
                              "pressure" := "hPa"; "distance" := "km" ]}).
  { unfold prop.
    rewrite (lookup_union_r initialOptions (defaultOptions env) "units" Hu).
    exact (f_equal (default Undefined) defaultOptions_units). }
  subst w1 c. unfold exec, eval. rewrite Henter. cbn zeta.
  rewrite (callback_faulty _ _ _ e) by (by rewrite ?Hunits).
  unfold reject, say, onCalls. unfold_monad. simpl. rewrite alter_last. simpl.
  repeat split; done.
Qed.

Lemma error_kept_step i w :
  is_Some (error (cells w)) → is_Some (error (cells (step env i w))).
Proof.
  intros He. destruct i as [el o|n|L f]; simpl; [| |done].
  - unfold_hook.
    destruct (bool_decide (idOf w el ≠ "windy")); simpl.
    all: destruct (initializationAttemptedRef (cells w) || windyInstance (cells w));
      simpl; [done|].
    all: destruct (window_L w); simpl; [|done].
    all: destruct (window_windyInit w) as [[e| |]|]; simpl; try done.
    all: match goal with
         | |- context [callback ?o ?n ?w0] =>
             destruct (callback o n w0) as [[[]|e] w2] eqn:Hcb;
             apply callback_outcome in Hcb;
             destruct Hcb as (_ & _ & _ & _ & Herr & _); simpl in Herr |- *
         end.
    all: by rewrite Herr.
  - destruct (calls w !! n) as [c|]; [|done].
    destruct (callback_configures (given c) n w) as (_ & _ & _ & _ & Herr & _).
    by rewrite Herr.
Qed.

(** X22.  Nothing in the hook clears [error]: once an error is stored,
    an error is stored after every further run, also after a successful
    initialisation. *)
Theorem error_is_never_cleared (w : world) (ins : list input) :
  is_Some (error (cells w)) → is_Some (error (cells (run env ins w))).
Proof.
  intros He. induction ins as [|i ins IH] using rev_ind; [done|].
  rewrite hook_run_snoc. by apply error_kept_step.
Qed.

(** X23.  When the engine keeps the callback for later, the hook stays
    loading with a pending promise, and calls of [initializeWindy] made
    in the meantime return without reaching the engine; the callback
    then completes the initialisation and leaves the store as a
    callback made at once would have. *)
Theorem deferred_callback_completes
    (w : world) (mapContainer : nat) (initialOptions : options) (ins : list input) :
  window_L w = true →
  window_windyInit w = Some Defers →
  initializationAttemptedRef (cells w) = false →
  faulty (windy w) = None →
  forallb (λ i, negb (isCallback i)) ins = true →
  let n := length (calls w) in
  let merged := initialOptions ∪ defaultOptions env in
  let c := initializeWindy env false mapContainer initialOptions in
  let w2 := run env ins (exec c w) in
  let w3 := step env (Callback n) w2 in
  (isLoading (cells w2) = true
   ∧ calls w2 = calls w ++ [{| given := merged; promised := None |}])
  ∧ windyInstance (cells w3) = true
  ∧ isLoading (cells w3) = false
  ∧ initializationAttemptedRef (cells w3) = false
  ∧ calls w3 = calls w ++ [{| given := merged; promised := Some Fulfilled |}]
  ∧ store (windy w3)
    = store (windy (exec c (setWindow true (Some CallsBack) w))).
Proof.
  intros HL Hf Ha Hs Hins n merged c w2 w3.
  destruct (initializeWindy_enters w mapContainer initialOptions Defers HL Hf Ha)
    as [log Henter]. cbn zeta in Henter.
  destruct (initializeWindy_healthy (setWindow true (Some CallsBack) w)
              mapContainer initialOptions eq_refl eq_refl Ha Hs) as [log' Hsync].
  cbn zeta in Hsync.
  assert (Hblocked : cells w2 = cells (exec c w) ∧ calls w2 = calls (exec c w)
                     ∧ windy w2 = windy (exec c w)).
  { apply blocked_run; [|done]. subst c. unfold exec. by rewrite Henter. }
  destruct Hblocked as (Hc & Hl & Hy).
  subst c. unfold exec in Hc, Hl, Hy |- *. rewrite Henter in Hc, Hl, Hy.
  rewrite Hsync. simpl in Hc, Hl, Hy |- *.
  assert (Hn : calls w2 !! n = Some {| given := merged; promised := None |}).
  { rewrite Hl. subst n. by rewrite lookup_app_r, Nat.sub_diag by lia. }
  split; [by rewrite Hc, Hl|].
  subst w3. simpl. rewrite Hn. unfold exec.
  rewrite callback_healthy by (by rewrite Hy). simpl.
  rewrite Hl, Hy. subst n. rewrite alter_last. simpl. repeat split; done.
Qed.

End useWindyInitializerFacts.

Lemma windyInit_throw_leaves_hook_loading_witness :
  let env := Env.env Env.parseFloat {| Env.window_env := None; Env.process_env := ∅ |} in
  let w := useWindyInitializer.mounted ∅ true
             (Some (useWindyInitializer.Throws (NonError "42")))
             {| useWindyInitializer.store := ∅; useWindyInitializer.faulty := None;
                useWindyInitializer.subscribed := [];
                useWindyInitializer.api_map := Some 0%nat |} in
  useWindyInitializer.isLoading
    (useWindyInitializer.cells
       (exec (useWindyInitializer.initializeWindy env false 7 ∅) w)) = true.
Proof.
  intros env w.
  apply (proj1 (proj2 (proj2 (windyInit_throw_leaves_hook_loading env w 7 ∅
                                (NonError "42") [] eq_refl eq_refl eq_refl)))).
Defined.


Lemma missing_scripts_allow_retry_witness :
  let env := Env.env Env.parseFloat {| Env.window_env := None; Env.process_env := ∅ |} in
  let w := useWindyInitializer.mounted ∅ true None
             {| useWindyInitializer.store := ∅; useWindyInitializer.faulty := None;
                useWindyInitializer.subscribed := [];
                useWindyInitializer.api_map := Some 0%nat |} in
  useWindyInitializer.error
    (useWindyInitializer.cells
       (exec (useWindyInitializer.initializeWindy env false 7 ∅) w))
  = Some "Required scripts not loaded yet".
Proof.
  intros env w.
  apply (proj1 (proj2 (missing_scripts_allow_retry env w 7 ∅ eq_refl
                         (or_intror eq_refl)))).
Defined.

Lemma initializeWindy_success_witness :
  let env := Env.env Env.parseFloat {| Env.window_env := None; Env.process_env := ∅ |} in
  let w := useWindyInitializer.mounted {[ 7%nat := "map" ]} true
             (Some useWindyInitializer.CallsBack)
             {| useWindyInitializer.store := ∅; useWindyInitializer.faulty := None;
                useWindyInitializer.subscribed := [];
                useWindyInitializer.api_map := Some 3%nat |} in
  useWindyInitializer.cells
    (exec (useWindyInitializer.initializeWindy env false 7 ∅) w)
  = {| useWindyInitializer.windyInstance := true;
       useWindyInitializer.isLoading := false;
       useWindyInitializer.error := None;
       useWindyInitializer.leafletMap := Some 3%nat;
       useWindyInitializer.initializationAttemptedRef := false |}.
Proof.
  intros env w.
  apply (proj1 (proj2 (proj2 (initializeWindy_success env w 7 ∅
                                eq_refl eq_refl eq_refl eq_refl)))).
Defined.

Lemma units_are_not_merged_witness :
  let env := Env.env Env.parseFloat {| Env.window_env := None; Env.process_env := ∅ |} in
  let w := useWindyInitializer.mounted ∅ true (Some useWindyInitializer.CallsBack)
             {| useWindyInitializer.store := ∅; useWindyInitializer.faulty := None;
                useWindyInitializer.subscribed := [];
                useWindyInitializer.api_map := None |} in
  let initialOptions : useWindyInitializer.options :=
    {[ "units" := useWindyInitializer.Units {[ "temperature" := "F" ]} ]} in
  useWindyInitializer.store
    (useWindyInitializer.windy
       (exec (useWindyInitializer.initializeWindy env false 7 initialOptions) w))
    !! "windUnit" = None.
Proof.
  intros env w initialOptions.
  apply (units_are_not_merged env w 7 initialOptions {[ "temperature" := "F" ]}
           "wind" "windUnit" eq_refl eq_refl eq_refl eq_refl eq_refl).
  rewrite !elem_of_cons. right. by left.
Defined.

Lemma faulty_store_leaves_hook_loading_witness :
  let env := Env.env Env.parseFloat {| Env.window_env := None; Env.process_env := ∅ |} in
  let w := useWindyInitializer.mounted ∅ true (Some useWindyInitializer.CallsBack)
             {| useWindyInitializer.store := ∅;
                useWindyInitializer.faulty := Some (ErrorObj "store is read-only");
                useWindyInitializer.subscribed := [];
                useWindyInitializer.api_map := None |} in
  useWindyInitializer.isLoading
    (useWindyInitializer.cells
       (exec (useWindyInitializer.initializeWindy env false 7 ∅) w)) = true.
Proof.
  intros env w.
  assert (Hunits : (∅ : useWindyInitializer.options) !! "units" = None)
    by reflexivity.
  apply (proj1 (proj2 (proj2 (faulty_store_leaves_hook_loading env w 7 ∅
                                (ErrorObj "store is read-only")
                                eq_refl eq_refl eq_refl eq_refl Hunits)))).
Defined.

Lemma error_is_never_cleared_witness :
  let env := Env.env Env.parseFloat {| Env.window_env := None; Env.process_env := ∅ |} in
  let api := {| useWindyInitializer.store := ∅; useWindyInitializer.faulty := None;
                useWindyInitializer.subscribed := [];
                useWindyInitializer.api_map := Some 3%nat |} in
  let w := useWindyInitializer.run env [useWindyInitializer.Initialize 7 ∅]
             (useWindyInitializer.mounted ∅ false None api) in
  let w' := useWindyInitializer.run env
              [useWindyInitializer.Globals true (Some useWindyInitializer.CallsBack);
               useWindyInitializer.Initialize 7 ∅] w in
  useWindyInitializer.windyInstance (useWindyInitializer.cells w') = true
  ∧ is_Some (useWindyInitializer.error (useWindyInitializer.cells w')).
Proof.
  intros env api w w'. split; [reflexivity|].
  apply (error_is_never_cleared env w). by eexists.
Defined.

Lemma deferred_callback_completes_witness :
  let env := Env.env Env.parseFloat {| Env.window_env := None; Env.process_env := ∅ |} in
  let w := useWindyInitializer.mounted ∅ true (Some useWindyInitializer.Defers)
             {| useWindyInitializer.store := ∅; useWindyInitializer.faulty := None;
                useWindyInitializer.subscribed := [];
                useWindyInitializer.api_map := Some 3%nat |} in
  let ins := [useWindyInitializer.Initialize 7 ∅; useWindyInitializer.Initialize 8 ∅] in
  useWindyInitializer.windyInstance
    (useWindyInitializer.cells
       (useWindyInitializer.step env (useWindyInitializer.Callback 0)
          (useWindyInitializer.run env ins
             (exec (useWindyInitializer.initializeWindy env false 7 ∅) w)))) = true.
Proof.
  intros env w ins.
  apply (proj1 (proj2 (deferred_callback_completes env w 7 ∅ ins
                         eq_refl eq_refl eq_refl eq_refl eq_refl))).
Defined.

Section DataLayerFacts.

Import DataLayer.

Variable getColor : number → string.
Variable getRadius : number → number.
Variable getTooltip : DataPoint → string.

Local Abbreviation circleMarker := (circleMarker getColor getRadius getTooltip).
Local Abbreviation restyle := (restyle getColor getRadius getTooltip).
Local Abbreviation visit := (visit getColor getRadius getTooltip).
Local Abbreviation walkOver := (walkOver getColor getRadius getTooltip).
Local Abbreviation walking := (walking getColor getRadius getTooltip).
Local Abbreviation walked := (walked getColor getRadius getTooltip).
Local Abbreviation updateMarkers := (updateMarkers getColor getRadius getTooltip).
Local Abbreviation step := (step getColor getRadius getTooltip).
Local Abbreviation run := (run getColor getRadius getTooltip).
Local Abbreviation mount := (mount getColor getRadius getTooltip).
Local Abbreviation lifetime := (lifetime getColor getRadius getTooltip).
Local Abbreviation tracked := (tracked getColor getRadius getTooltip).
Local Abbreviation shown := (shown getColor getRadius getTooltip).
Local Abbreviation shows := (shows getColor getRadius getTooltip).

Lemma circleMarker_shows point : shows point (circleMarker point).
Proof. by unfold DataLayer.shows, DataLayer.circleMarker. Qed.

Lemma restyle_shows point c : is_Some (tooltip c) → shows point (restyle point c).
Proof.
  intros [t Ht]. unfold DataLayer.shows, DataLayer.restyle. simpl.
  rewrite Ht. split_and!; try done. by intros ->.
Qed.

Lemma restyle_tooltip point c : is_Some (tooltip c) → is_Some (tooltip (restyle point c)).
Proof. intros [t Ht]. unfold DataLayer.restyle. simpl. rewrite Ht. by eexists. Qed.

Lemma shows_tooltip point c : shows point c → is_Some (tooltip c).
Proof. intros (_ & _ & _ & Ht & _). by eexists. Qed.

Lemma ids_snoc (done : list DataPoint) point k :
  k ∈ id <$> (done ++ [point]) ↔ k ∈ id <$> done ∨ k = id point.
Proof. rewrite fmap_app, elem_of_app. simpl. by rewrite list_elem_of_singleton. Qed.

Lemma toLatLng_wellFormed point :
  wellFormed point → toLatLng (lat point) (lng point) = inr (lat point, lng point).
Proof. intros (_ & Hlat & Hlng). unfold toLatLng. by rewrite Hlat, Hlng. Qed.

Lemma property_wellFormed (obj : gmap string nat) point :
  wellFormed point →
  PlainObject.property obj (id point)
  = match obj !! id point with
    | Some marker => PlainObject.Own marker
    | None => PlainObject.Missing
    end.
Proof.
  intros (Hid & _). unfold PlainObject.property.
  destruct (obj !! id point); [done|]. by rewrite bool_decide_eq_false_2.
Qed.

Lemma walkOver_app st l1 l2 :
  walkOver st (l1 ++ l2)
  = match walkOver st l1 with
    | inl e => inl e
    | inr st' => walkOver st' l2
    end.
Proof.
  revert st. induction l1 as [|point l1 IH]; intros st; [done|].
  simpl. destruct (visit st point) as [e|st']; [done|]. apply IH.
Qed.

Section Walk.

Variable ref : gmap string nat.
Variable group0 : gset nat.
Variable n0 : nat.
Hypothesis ref_inj : ∀ k1 k2 marker,
  ref !! k1 = Some marker → ref !! k2 = Some marker → k1 = k2.
Hypothesis ref_old : ∀ k marker, ref !! k = Some marker → (marker < n0)%nat.

Lemma walking_start heap0 :
  (∀ k marker, ref !! k = Some marker →
     ∃ c, heap0 !! marker = Some c ∧ is_Some (tooltip c)) →
  walking ref group0 n0 []
    {| existingPoints := ref; updatedPoints := ∅; layerGroup := group0;
       heap := heap0; count := n0 |}.
Proof.
  intros Hheap. unfold DataLayer.walking. simpl. split_and!.
  - done.
  - intros k. rewrite lookup_empty. split; [by intros [? [=]]|by intros ?%elem_of_nil].
  - intros k marker. by rewrite lookup_empty.
  - intros marker ?. lia.
  - intros k1 k2 marker. by rewrite lookup_empty.
  - intros marker. split; [by left|]. intros [?|?]; [done|lia].
  - done.
  - by intros point marker ?%elem_of_nil.
  - done.
Qed.

Lemma walking_visit done st point :
  walking ref group0 n0 done st →
  id point ∉ id <$> done →
  wellFormed point →
  ∃ st', visit st point = inr st' ∧ walking ref group0 n0 (done ++ [point]) st'.
Proof.
  intros (He & Hdom & Hfrom & Hnew & Hinj & Hgroup & Hle & Hshown & Htip) Hfresh Hwf.
  assert (Hnotyet : updatedPoints st !! id point = None).
  { apply eq_None_not_Some. by rewrite Hdom. }
  assert (Hother : ∀ k, k ∈ id <$> done → k ≠ id point) by (intros k Hk ->; done).
  pose proof (He (id point)) as Hep. rewrite bool_decide_eq_false_2 in Hep by done.
  unfold DataLayer.visit.
  rewrite (property_wellFormed _ _ Hwf), (toLatLng_wellFormed _ Hwf).
  destruct (existingPoints st !! id point) as [marker|] eqn:Hex.
  - (* the point has a marker *)
    eexists. split; [reflexivity|].
    symmetry in Hep. pose proof (ref_old _ _ Hep) as Hold.
    assert (Hapart : ∀ k m, updatedPoints st !! k = Some m → m ≠ marker).
    { intros k m Hk ->. destruct (Hfrom _ _ Hk) as [Hr|[_ ?]]; [|lia].
      apply (Hother k); [apply Hdom; by eexists|by apply (ref_inj _ _ marker)]. }
    unfold DataLayer.walking. simpl. split_and!; try (intros k; split).
    + intros k. destruct (decide (k = id point)) as [->|Hk].
      * rewrite lookup_delete_eq, bool_decide_eq_true_2; [done|].
        apply ids_snoc. by right.
      * rewrite lookup_delete_ne, He by done.
        destruct (decide (k ∈ id <$> done)) as [Hin|Hin].
        -- rewrite !bool_decide_eq_true_2; [done| |done]. apply ids_snoc. by left.
        -- rewrite !bool_decide_eq_false_2; [done| |done].
           rewrite ids_snoc. by intros [?|?].
    + intros Hk. apply ids_snoc. destruct (decide (k = id point)) as [->|Hne]; [by right|].
      left. apply Hdom. by rewrite lookup_insert_ne in Hk.
    + intros [Hk| ->]%ids_snoc; [|by rewrite lookup_insert_eq].
      rewrite lookup_insert_ne by (intros <-; by apply (Hother (id point))).
      by apply Hdom.
    + intros k m. destruct (decide (k = id point)) as [->|Hne].
      * rewrite lookup_insert_eq. intros [= <-]. by left.
      * rewrite lookup_insert_ne by done. apply Hfrom.
    + intros m Hm. destruct (Hnew m Hm) as [k Hk]. exists k.
      rewrite lookup_insert_ne; [done|]. intros <-. congruence.
    + intros k1 k2 m.
      destruct (decide (k1 = id point)) as [->|H1], (decide (k2 = id point)) as [->|H2];
        rewrite ?lookup_insert_eq, ?lookup_insert_ne by done; try done.
      * intros [= <-] H. by destruct (Hapart _ _ H).
      * intros H [= <-]. by destruct (Hapart _ _ H).
      * apply Hinj.
    + apply Hgroup.
    + apply Hgroup.
    + done.
    + intros q m [Hq| ->%list_elem_of_singleton]%elem_of_app.
      * assert (Hne : id q ≠ id point) by (apply Hother, list_elem_of_fmap; eauto).
        rewrite lookup_insert_ne by done. intros Hm.
        rewrite lookup_alter_ne by (intros <-; by apply (Hapart _ _ Hm)).
        by apply Hshown.
      * rewrite lookup_insert_eq. intros [= <-].
        destruct (Htip _ _ Hex) as (c & Hc & Ht).
        rewrite lookup_alter_eq, Hc. simpl. eexists. split; [done|].
        by apply restyle_shows.
    + intros k m. destruct (decide (k = id point)) as [->|Hne];
        [by rewrite lookup_delete_eq|].
      rewrite lookup_delete_ne by done. intros Hk.
      rewrite lookup_alter_ne; [by apply (Htip k)|].
      intros <-. apply Hne. apply (ref_inj _ _ marker); [|done].
      rewrite He in Hk. by case_bool_decide.
  - (* the point is new *)
    eexists. split; [reflexivity|].
    symmetry in Hep.
    assert (Hbelow : ∀ k m, updatedPoints st !! k = Some m → (m < count st)%nat).
    { intros k m Hk. destruct (Hfrom _ _ Hk) as [Hr|[_ ?]]; [|lia].
      pose proof (ref_old _ _ Hr). lia. }
    unfold DataLayer.walking. simpl. split_and!; try (intros k; split).
    + intros k. rewrite He. destruct (decide (k = id point)) as [->|Hk].
      * rewrite bool_decide_eq_false_2 by done.
        rewrite bool_decide_eq_true_2; [done|]. apply ids_snoc. by right.
      * destruct (decide (k ∈ id <$> done)) as [Hin|Hin].
        -- rewrite !bool_decide_eq_true_2; [done| |done]. apply ids_snoc. by left.
        -- rewrite !bool_decide_eq_false_2; [done| |done].
           rewrite ids_snoc. by intros [?|?].
    + intros Hk. apply ids_snoc. destruct (decide (k = id point)) as [->|Hne]; [by right|].
      left. apply Hdom. by rewrite lookup_insert_ne in Hk.
    + intros [Hk| ->]%ids_snoc; [|by rewrite lookup_insert_eq].
      rewrite lookup_insert_ne by (intros <-; by apply (Hother (id point))).
      by apply Hdom.
    + intros k m. destruct (decide (k = id point)) as [->|Hne].
      * rewrite lookup_insert_eq. intros [= <-]. right. split; [done|lia].
      * rewrite lookup_insert_ne by done. intros Hk.
        destruct (Hfrom _ _ Hk) as [?|[? ?]]; [by left|right; split; [done|lia]].
    + intros m Hm. destruct (decide (m = count st)) as [->|Hne].
      * exists (id point). by rewrite lookup_insert_eq.
      * destruct (Hnew m) as [k Hk]; [lia|]. exists k.
        rewrite lookup_insert_ne; [done|]. intros <-. congruence.
    + intros k1 k2 m.
      destruct (decide (k1 = id point)) as [->|H1], (decide (k2 = id point)) as [->|H2];
        rewrite ?lookup_insert_eq, ?lookup_insert_ne by done; try done.
      * intros [= <-] H. pose proof (Hbelow _ _ H). lia.
      * intros H [= <-]. pose proof (Hbelow _ _ H). lia.
      * apply Hinj.
    + rewrite elem_of_union, elem_of_singleton, Hgroup.
      intros [->|[?|?]]; [right; lia|by left|right; lia].
    + rewrite elem_of_union, elem_of_singleton, Hgroup.
      intros [?|?]; [by right; left|].
      destruct (decide (k = count st)); [by left|right; right; lia].
    + lia.
    + intros q m [Hq| ->%list_elem_of_singleton]%elem_of_app.
      * assert (Hne : id q ≠ id point) by (apply Hother, list_elem_of_fmap; eauto).
        rewrite lookup_insert_ne by done. intros Hm.
        rewrite lookup_insert_ne by (pose proof (Hbelow _ _ Hm); lia).
        by apply Hshown.
      * rewrite lookup_insert_eq. intros [= <-]. rewrite lookup_insert_eq.
        eexists. split; [done|]. apply circleMarker_shows.
    + intros k m Hk. rewrite lookup_insert_ne; [by apply (Htip k)|].
      rewrite He in Hk. case_bool_decide; [done|].
      pose proof (ref_old _ _ Hk). lia.
Qed.

Lemma walking_all heap0 d :
  (∀ k marker, ref !! k = Some marker →
     ∃ c, heap0 !! marker = Some c ∧ is_Some (tooltip c)) →
  NoDup (id <$> d) →
  Forall wellFormed d →
  ∃ st,
    walkOver
      {| existingPoints := ref; updatedPoints := ∅; layerGroup := group0;
         heap := heap0; count := n0 |} d = inr st
    ∧ walking ref group0 n0 d st.
Proof.
  intros Hheap. induction d as [|point d IH] using rev_ind; intros Hd Hwf.
  - eexists. split; [done|]. by apply walking_start.
  - rewrite fmap_app in Hd. simpl in Hd.
    apply NoDup_app in Hd as (Hd & Hfresh & _).
    apply Forall_app in Hwf as [Hwf Hpoint]. rewrite Forall_singleton in Hpoint.
    destruct (IH Hd Hwf) as (st & Hst & Hwalk).
    destruct (walking_visit d st point Hwalk) as (st' & Hst' & Hwalk'); [|done|].
    { intros Hin. apply (Hfresh _ Hin). by apply list_elem_of_singleton. }
    exists st'. split; [|done]. rewrite walkOver_app, Hst. simpl. by rewrite Hst'.
Qed.

End Walk.

Local Abbreviation grouped := DataLayer.grouped.

(** What one run of the second effect does to a grouped component whose
    data has distinct ids and well-formed points. *)
Lemma updateMarkers_spec w :
  grouped w → NoDup (id <$> data w) → Forall wellFormed (data w) →
  ∃ w', updateMarkers w = inr w'
  ∧ tracked w'
  ∧ data w' = data w
  ∧ (is_Some (layerRef w) → is_Some (layerRef w'))
  ∧ (∀ k marker, pointLayersRef w' !! k = Some marker →
       pointLayersRef w !! k = Some marker
       ∨ (pointLayersRef w !! k = None ∧ (created w ≤ marker < created w')%nat))
  ∧ (∀ k marker, pointLayersRef w !! k = Some marker → k ∉ id <$> data w →
       ∀ group, layerRef w' = Some group → marker ∉ group)
  ∧ ((∀ k, k ∈ id <$> data w → is_Some (pointLayersRef w !! k)) →
     created w' = created w).
Proof.
  intros (Hcl & Hg) Hd Hwf. unfold DataLayer.updateMarkers.
  destruct (layerRef w) as [group|] eqn:Hlayer.
  2:{ destruct Hg as [Hmap Href]. rewrite Hmap. exists w. split_and!.
      - done.
      - split; [split; [done|by rewrite Hlayer]|]. split; [done|]. split; [done|].
        rewrite Hlayer. by intros [? [=]].
      - done.
      - by intros [? [=]].
      - intros k marker. by left.
      - intros k marker. by rewrite Href, lookup_empty.
      - done. }
  destruct Hg as ([map Hmap] & Hgroup & Hinj & Hold). rewrite Hmap.
  destruct (walking_all (pointLayersRef w) group (created w) Hinj
              (λ k m H, proj1 (Hold k m H)) (objects w) (data w)
              (λ k m H, proj2 (Hold k m H)) Hd Hwf) as (st & Hst & Hwalk).
  unfold DataLayer.walked. rewrite Hst. eexists. split; [reflexivity|].
  destruct Hwalk as (He & Hdom & Hfrom & Hnew & Hinj' & Hgroup' & Hle & Hshown & Htip).
  assert (Hfromdata : ∀ k, k ∈ id <$> data w → ∃ point, point ∈ data w ∧ id point = k).
  { intros k (point & -> & Hin)%list_elem_of_fmap. eauto. }
  split_and!.
  - split; [split; [by rewrite Hcl|]|]; cbn [layerRef pointLayersRef leafletMap
      objects created DataLayer.data].
    + split_and!.
      * by eexists.
      * intros marker. rewrite elem_of_difference, elem_of_map_img, Hgroup', Hgroup.
        split.
        -- intros [[[k Hk]|Hm] Hnot]; [|by apply Hnew].
           destruct (decide (k ∈ id <$> data w)) as [Hin|Hin].
           ++ apply Hdom in Hin as [m' Hm']. exists k.
              destruct (Hfrom _ _ Hm') as [?|[? _]]; congruence.
           ++ destruct Hnot. exists k. by rewrite He, bool_decide_eq_false_2.
        -- intros [k Hk]. destruct (Hfrom _ _ Hk) as [Hr|[Hr Hm]].
           ++ split; [left; eauto|]. intros [k' Hk']. rewrite He in Hk'.
              case_bool_decide as Hin; [done|].
              apply Hin. rewrite (Hinj _ _ _ Hk' Hr). apply Hdom. by eexists.
           ++ split; [by right|]. intros [k' Hk']. rewrite He in Hk'.
              case_bool_decide; [done|]. destruct (Hold _ _ Hk'). lia.
      * done.
      * intros k marker Hk. split.
        -- destruct (Hfrom _ _ Hk) as [Hr|[_ ?]]; [|lia]. destruct (Hold _ _ Hr). lia.
        -- destruct (Hfromdata k) as (point & Hin & <-); [apply Hdom; by eexists|].
           destruct (Hshown _ _ Hin Hk) as (c & Hc & Hsh).
           exists c. split; [done|]. by apply (shows_tooltip point).
    + split; [done|]. split; [done|]. intros _. split; [done|].
      intros point marker Hin Hk. by apply Hshown.
  - done.
  - intros _. by eexists.
  - intros k marker Hk. cbn [pointLayersRef created] in *. by apply Hfrom.
  - intros k marker Hk Hnot group' [= <-]. rewrite elem_of_difference, elem_of_map_img.
    intros [_ Hn]. apply Hn. exists k. by rewrite He, bool_decide_eq_false_2.
  - intros Hall. cbn [created]. destruct (decide (created w = count st)) as [|Hne]; [done|].
    destruct (Hnew (created w)) as [k Hk]; [lia|].
    destruct (Hfrom _ _ Hk) as [Hr|[Hr _]].
    + destruct (Hold _ _ Hr). lia.
    + destruct (Hall k) as [? ?]; [apply Hdom; by eexists|congruence].
Qed.


Lemma grouped_remount map w :
  grouped w → grouped (initLayer (setLeafletMap map (runCleanup w))).
Proof.
  intros (Hcl & Hg). unfold runCleanup. rewrite Hcl.
  assert (Hclean : ∀ w0, layerRef w0 = None → pointLayersRef w0 = ∅ →
                         grouped (initLayer (setLeafletMap map w0))).
  { intros w0 Hl Hr. unfold initLayer, setLeafletMap. simpl.
    destruct map as [m|]; split; simpl; try done; rewrite ?Hl, ?Hr; [|done].
    split_and!; [by eexists| |done|done].
    intros marker. split; [by intros ?%elem_of_empty|by intros [? ?]]. }
  destruct (layerRef w) as [group|] eqn:Hlayer.
  - destruct Hg as ([m Hm] & _). rewrite Hm. by apply Hclean.
  - destruct Hg as [Hm Hr]. rewrite Hm. by apply Hclean.
Qed.

Lemma tracked_step i w :
  tracked w → valid i → ∃ w', step i w = inr w' ∧ tracked w'.
Proof.
  intros [Hg (Hd & Hwf & Hs)] Hi. destruct i as [map|d|]; simpl in *.
  - case_bool_decide; [by exists w|].
    edestruct (updateMarkers_spec (initLayer (setLeafletMap map (runCleanup w))))
      as (w' & Hw' & Ht & _); [by apply grouped_remount| | |by eauto];
      unfold initLayer, setLeafletMap, runCleanup;
      by destruct map, (cleanup w), (layerRef w).
  - destruct Hi as [Hd' Hwf'].
    destruct (updateMarkers_spec (setData d w)) as (w' & Hw' & Ht & _); by eauto.
  - destruct (updateMarkers_spec w) as (w' & Hw' & Ht & _); by eauto.
Qed.

Lemma NoDup_mockData : NoDup (id <$> mockData).
Proof. unfold mockData. simpl. repeat constructor; rewrite ?elem_of_cons, ?elem_of_nil;
  intuition discriminate. Qed.

Lemma wellFormed_mockData : Forall wellFormed mockData.
Proof.
  unfold mockData. repeat constructor; simpl;
    unfold PlainObject.inherited; rewrite ?elem_of_cons, ?elem_of_nil;
    intuition discriminate.
Qed.

Lemma tracked_mount map : ∃ w, mount map = inr w ∧ tracked w.
Proof.
  unfold DataLayer.mount.
  match goal with
  | |- context [DataLayer.updateMarkers _ _ _ ?w0] =>
      destruct (updateMarkers_spec w0) as (w & Hw & Ht & _)
  end.
  - unfold initLayer. simpl. destruct map as [m|]; split; simpl; try done.
    split_and!; [by eexists| |done|done].
    intros marker. split; [by intros ?%elem_of_empty|by intros [? ?]].
  - destruct map; simpl; apply NoDup_nil_2.
  - destruct map; simpl; apply Forall_nil_2.
  - rewrite Hw. apply tracked_step; [done|].
    split; [apply NoDup_mockData|apply wellFormed_mockData].
Qed.

Lemma tracked_run ins w :
  tracked w → Forall valid ins → ∃ w', run ins w = inr w' ∧ tracked w'.
Proof.
  revert w. induction ins as [|i ins IH]; intros w Ht Hins; [by exists w|].
  apply Forall_cons in Hins as [Hi Hins].
  destruct (tracked_step i w Ht Hi) as (w1 & Hw1 & Ht1).
  destruct (IH w1 Ht1 Hins) as (w' & Hw' & Ht').
  exists w'. split; [|done]. simpl. by rewrite Hw1.
Qed.

(** Every state the component reaches on valid inputs. *)
Lemma tracked_lifetime map ins :
  Forall valid ins → ∃ w, lifetime map ins = inr w ∧ tracked w.
Proof.
  intros Hins. unfold DataLayer.lifetime.
  destruct (tracked_mount map) as (w0 & -> & Ht0). by apply tracked_run.
Qed.


Lemma layer_with_map w : grouped w → is_Some (leafletMap w) → is_Some (layerRef w).
Proof.
  intros (_ & Hg) [m Hm]. destruct (layerRef w); [by eexists|].
  destruct Hg as [Hnone _]. congruence.
Qed.

(** X24.  As long as every data array has pairwise distinct ids, none of
    them the name of a property that objects inherit, and no [NaN]
    coordinate, no effect throws, and after every change of the map or
    the data and after every re-run of the second effect the markers in
    the layer group are exactly the ones the dictionary names, one per
    id of the current data, each placed, coloured and labelled from its
    point and with the point's radius when that is truthy; and without
    a map there is no group and no marker is tracked. *)
Theorem markers_follow_data (map : option nat) (ins : list input) :
  Forall valid ins → ∃ w, lifetime map ins = inr w ∧ tracked w.
Proof.
  intros Hins. unfold DataLayer.lifetime.
  destruct (tracked_mount map) as (w0 & Hw0 & Ht0). rewrite Hw0.
  clear Hw0. revert w0 Ht0.
  induction Hins as [|i ins Hi Hins IH]; intros w Ht; [by exists w|].
  destruct (tracked_step i w Ht Hi) as (w1 & Hw1 & Ht1).
  destruct (IH w1 Ht1) as (w' & Hw' & Ht').
  exists w'. split; [|done]. simpl. by rewrite Hw1.
Qed.



(** X26.  In every state the component reaches on such inputs, running
    the second effect again on the same data does not throw and makes
    or takes away no marker: the dictionary, the layer group and the
    number of markers made stay as they are, and each marker still
    shows its point. *)
Theorem rerun_changes_nothing (map : option nat) (ins : list input) :
  Forall valid ins →
  ∃ w w', lifetime map ins = inr w
  ∧ step Rerun w = inr w'
  ∧ pointLayersRef w' = pointLayersRef w
  ∧ layerRef w' = layerRef w
  ∧ created w' = created w
  ∧ tracked w'.
Proof.
  intros Hins. destruct (tracked_lifetime map ins Hins) as (w & Hw & Ht).
  pose proof Ht as [Hg (Hd & Hwf & Hs)].
  destruct (updateMarkers_spec w Hg Hd Hwf)
    as (w' & Hw' & Ht' & Hdata & Hkeep & Hfrom & Hgone & Hsame).
  exists w, w'. split; [done|]. split; [done|].
  assert (Hcase : layerRef w = None ∨ ∃ group, layerRef w = Some group)
    by (destruct (layerRef w); eauto).
  destruct Hcase as [Hl|[group Hl]].
  { assert (Heq : w' = w).
    { unfold DataLayer.updateMarkers in Hw'. rewrite Hl in Hw'.
      destruct (leafletMap w); congruence. }
    by rewrite Heq. }
  destruct (Hs ltac:(by rewrite Hl; eexists)) as [Hdom Hobj].
  assert (Hl' : is_Some (layerRef w')) by (apply Hkeep; rewrite Hl; by eexists).
  destruct Ht' as [Hg' (Hd' & Hwf' & Hs')]. destruct (Hs' Hl') as [Hdom' _].
  rewrite Hdata in Hdom'.
  assert (Href : pointLayersRef w' = pointLayersRef w).
  { apply map_eq. intros k.
    destruct (pointLayersRef w' !! k) as [m'|] eqn:Hm'.
    - destruct (Hfrom _ _ Hm') as [?|[Hnone _]]; [done|].
      destruct (proj2 (Hdom k)) as [? ?]; [|congruence].
      apply Hdom'. by eexists.
    - destruct (pointLayersRef w !! k) as [m|] eqn:Hm; [|done].
      destruct (proj2 (Hdom' k)) as [? ?]; [|congruence].
      apply Hdom. by eexists. }
  split_and!; [done| |by apply Hsame, Hdom|by split].
  destruct Hl' as [group' Hl']. rewrite Hl', Hl. f_equal. apply set_eq. intros marker.
  destruct Hg' as (_ & Hg'). rewrite Hl' in Hg'. destruct Hg' as (_ & Hgroup' & _).
  destruct Hg as (_ & Hg). rewrite Hl in Hg. destruct Hg as (_ & Hgroup & _).
  by rewrite Hgroup', Hgroup, Href.
Qed.

(** X27.  The condition on the ids is needed.  In a state the component
    reaches on such inputs and in which it has a map, a change to data
    of well-formed points that ends with two points of the same id,
    different from the ids before them, does not throw, but the marker
    of the first of the two stays on the layer group and is no longer
    in the dictionary, so that no later run of the effect can reach
    it. *)
Theorem duplicate_id_leaves_orphan
    (map : option nat) (ins : list input) (d : list DataPoint) (p q : DataPoint) :
  Forall valid ins →
  NoDup (id <$> d) →
  Forall wellFormed (d ++ [p; q]) →
  id p ∉ id <$> d →
  id q = id p →
  ∃ w, lifetime map ins = inr w
  ∧ (is_Some (leafletMap w) →
     ∃ w' orphan group',
       step (DataChanged (d ++ [p; q])) w = inr w'
       ∧ layerRef w' = Some group'
       ∧ orphan ∈ group'
       ∧ ∀ k, pointLayersRef w' !! k ≠ Some orphan).
Proof.
  intros Hins Hd Hwf Hp Hq. destruct (tracked_lifetime map ins Hins) as (w & Hw & Ht).
  exists w. split; [done|]. intros Hmap.
  pose proof Ht as [Hgr _].
  destruct (layer_with_map w Hgr Hmap) as [group Hl].
  destruct Hgr as (Hcl & Hg). rewrite Hl in Hg.
  destruct Hg as ([m Hm] & Hgroup & Hinj & Hold).
  replace (d ++ [p; q]) with ((d ++ [p]) ++ [q]) in * by (by rewrite <- app_assoc).
  apply Forall_app in Hwf as [Hwf Hwfq]. rewrite Forall_singleton in Hwfq.
  destruct (walking_all (pointLayersRef w) group (created w) Hinj
              (λ k m H, proj1 (Hold k m H)) (objects w) (d ++ [p])
              (λ k m H, proj2 (Hold k m H))) as (st1 & Hst1 & Hwalk); [|done|].
  { rewrite fmap_app. apply NoDup_app. split; [done|]. split; [|apply NoDup_singleton].
    intros k Hk ->%list_elem_of_singleton. done. }
  destruct Hwalk as (He & Hdom & Hfrom & Hnew & Hinj' & Hgroup' & Hle & Hshown & Htip).
  assert (Hin : id p ∈ id <$> d ++ [p]) by (apply ids_snoc; by right).
  destruct (proj2 (Hdom (id p)) Hin) as [orphan Horphan].
  assert (Hnone : existingPoints st1 !! id q = None).
  { by rewrite Hq, He, bool_decide_eq_true_2. }
  assert (Hbelow : (orphan < count st1)%nat).
  { destruct (Hfrom _ _ Horphan) as [Hr|[_ ?]]; [|lia]. destruct (Hold _ _ Hr). lia. }
  assert (Hw' : step (DataChanged ((d ++ [p]) ++ [q])) w
                = inr {| leafletMap := Some m;
                         layerRef := Some (({[count st1]} ∪ layerGroup st1)
                                           ∖ map_img (existingPoints st1));
                         pointLayersRef := <[id q := count st1]> (updatedPoints st1);
                         objects := <[count st1 := circleMarker q]> (heap st1);
                         created := S (count st1);
                         data := (d ++ [p]) ++ [q];
                         cleanup := cleanup w |}).
  { simpl. unfold DataLayer.updateMarkers, setData, DataLayer.walked. simpl.
    rewrite Hm, Hl, walkOver_app, Hst1. simpl. unfold DataLayer.visit.
    by rewrite (property_wellFormed _ _ Hwfq), (toLatLng_wellFormed _ Hwfq), Hnone. }
  eexists _, orphan, _. split; [exact Hw'|]. simpl. split; [done|]. split.
  - rewrite elem_of_difference, elem_of_union, Hgroup', elem_of_map_img. split.
    + right. destruct (Hfrom _ _ Horphan) as [Hr|[_ ?]]; [left|by right].
      apply Hgroup. eauto.
    + intros [k Hk]. rewrite He in Hk. case_bool_decide as Hk'; [done|].
      destruct (Hfrom _ _ Horphan) as [Hr|[_ ?]].
      * apply Hk'. by rewrite (Hinj _ _ _ Hk Hr).
      * destruct (Hold _ _ Hk). lia.
  - intros k. destruct (decide (k = id q)) as [->|Hne].
    + rewrite lookup_insert_eq. intros [= ?]. lia.
    + rewrite lookup_insert_ne by done. intros Hk.
      apply Hne. rewrite Hq. by apply (Hinj' _ _ orphan).
Qed.

(** The walk throws at a point it cannot handle, if not before. *)
Lemma walkOver_throws st d point :
  (∀ k, k ∈ PlainObject.inherited → existingPoints st !! k = None) →
  point ∈ d →
  id point ∈ PlainObject.inherited ∨ isNaN (lat point) = true ∨ isNaN (lng point) = true →
  ∃ e, walkOver st d = inl e.
Proof.
  intros Hst Hin Hill. revert st Hst.
  induction d as [|x d IH]; intros st Hst; [by apply elem_of_nil in Hin|].
  simpl. destruct (visit st x) as [e|st'] eqn:Hv; [by eexists|].
  assert (Hst' : ∀ k, k ∈ PlainObject.inherited → existingPoints st' !! k = None).
  { intros k Hk. unfold DataLayer.visit in Hv.
    destruct (PlainObject.property (existingPoints st) (id x)); [| done |];
      destruct (toLatLng (lat x) (lng x)); try done; injection Hv as <-; simpl.
    - destruct (decide (k = id x)) as [->|Hne];
        [by rewrite lookup_delete_eq|rewrite lookup_delete_ne by done; by apply Hst].
    - by apply Hst. }
  apply elem_of_cons in Hin as [->|Hin]; [|by apply IH].
  exfalso. unfold DataLayer.visit, PlainObject.property, toLatLng in Hv.
  destruct Hill as [Hid|Hnan].
  - rewrite (Hst _ Hid), bool_decide_eq_true_2 in Hv by done. done.
  - assert (Hor : isNaN (lat x) || isNaN (lng x) = true)
      by (destruct Hnan as [-> | ->]; by rewrite ?orb_true_r).
    rewrite Hor in Hv.
    destruct (existingPoints st !! id x); [done|].
    by destruct (bool_decide (id x ∈ PlainObject.inherited)).
Qed.

(** X11.  The conditions on the points are needed as well.  In a state
    the component reaches on such inputs and in which it has a map, a
    change to data that holds a point whose id names an inherited
    property ("constructor", "toString", "__proto__", ...) or that has a
    [NaN] coordinate makes the second effect throw: what
    [existingPoints[id]] finds under such an id has no [setLatLng], and
    Leaflet refuses the coordinate. *)
Theorem ill_formed_point_throws
    (map : option nat) (ins : list input) (d : list DataPoint) (point : DataPoint) :
  Forall valid ins →
  point ∈ d →
  id point ∈ PlainObject.inherited ∨ isNaN (lat point) = true ∨ isNaN (lng point) = true →
  ∃ w, lifetime map ins = inr w
  ∧ (is_Some (leafletMap w) → ∃ e, step (DataChanged d) w = inl e).
Proof.
  intros Hins Hin Hill. destruct (tracked_lifetime map ins Hins) as (w & Hw & Ht).
  exists w. split; [done|]. intros Hmap.
  destruct Ht as [Hgr (_ & Hwf & Hs)].
  destruct (layer_with_map w Hgr Hmap) as [group Hl].
  destruct (Hs ltac:(by rewrite Hl; eexists)) as [Hdom _].
  destruct Hmap as [m Hm].
  destruct (walkOver_throws
              {| existingPoints := pointLayersRef w; updatedPoints := ∅;
                 layerGroup := group; heap := objects w; count := created w |}
              d point) as [e He]; [|done|done|].
  - intros k Hk. simpl. apply eq_None_not_Some. rewrite Hdom.
    intros (x & -> & Hx)%list_elem_of_fmap.
    rewrite Forall_forall in Hwf. by destruct (Hwf x Hx).
  - exists e. simpl. unfold DataLayer.updateMarkers, setData, DataLayer.walked. simpl.
    by rewrite Hm, Hl, He.
Qed.

End DataLayerFacts.

Lemma markers_follow_data_witness :
  let station k v := {| DataLayer.id := k; DataLayer.lat := Num 10; DataLayer.lng := Num 106;
                        DataLayer.value := v; DataLayer.name := None;
                        DataLayer.description := None |} in
  let ins := [DataLayer.MapChanged (Some 1%nat);
              DataLayer.DataChanged [station "a" (Num 1); station "b" (Num 2)];
              DataLayer.Rerun;
              DataLayer.DataChanged [station "b" NaN];
              DataLayer.MapChanged None] in
  ∃ w, DataLayer.lifetime (λ _, "red") (λ v, v) DataLayer.id None ins = inr w
       ∧ DataLayer.tracked (λ _, "red") (λ v, v) DataLayer.id w.
Proof.
  intros station ins.
  apply (markers_follow_data (λ _, "red") (λ v, v) DataLayer.id None ins).
  repeat constructor; simpl; unfold PlainObject.inherited;
    rewrite ?elem_of_cons, ?elem_of_nil; intuition discriminate.
Defined.


Lemma rerun_changes_nothing_witness :
  ∃ w w',
    DataLayer.lifetime (λ _, "red") (λ v, v) DataLayer.id (Some 1%nat) [] = inr w
    ∧ DataLayer.step (λ _, "red") (λ v, v) DataLayer.id DataLayer.Rerun w = inr w'
    ∧ DataLayer.created w' = DataLayer.created w.
Proof.
  destruct (rerun_changes_nothing (λ _, "red") (λ v, v) DataLayer.id (Some 1%nat) [])
    as (w & w' & Hw & Hw' & _ & _ & Hc & _).
  - constructor.
  - by exists w, w'.
Defined.

Lemma duplicate_id_leaves_orphan_witness :
  let station1 := {| DataLayer.id := "station1"; DataLayer.lat := Num 11;
                     DataLayer.lng := Num 107; DataLayer.value := Num 50;
                     DataLayer.name := None; DataLayer.description := None |} in
  ∃ w,
    DataLayer.lifetime (λ _, "red") (λ v, v) DataLayer.id (Some 1%nat) [] = inr w
    ∧ (is_Some (DataLayer.leafletMap w) →
       ∃ w' orphan group',
         DataLayer.step (λ _, "red") (λ v, v) DataLayer.id
           (DataLayer.DataChanged ([] ++ [station1; station1])) w = inr w'
         ∧ DataLayer.layerRef w' = Some group'
         ∧ orphan ∈ group'
         ∧ ∀ k, DataLayer.pointLayersRef w' !! k ≠ Some orphan).
Proof.
  intros station1.
  apply (duplicate_id_leaves_orphan (λ _, "red") (λ v, v) DataLayer.id (Some 1%nat) []
           [] station1 station1).
  - constructor.
  - apply NoDup_nil_2.
  - repeat constructor; simpl; unfold PlainObject.inherited;
      rewrite ?elem_of_cons, ?elem_of_nil; intuition discriminate.
  - by intros ?%elem_of_nil.
  - reflexivity.
Defined.

Lemma ill_formed_point_throws_witness :
  let point := {| DataLayer.id := "constructor"; DataLayer.lat := Num 11;
                  DataLayer.lng := Num 107; DataLayer.value := Num 50;
                  DataLayer.name := None; DataLayer.description := None |} in
  ∃ w,
    DataLayer.lifetime (λ _, "red") (λ v, v) DataLayer.id (Some 1%nat) [] = inr w
    ∧ (is_Some (DataLayer.leafletMap w) →
       ∃ e, DataLayer.step (λ _, "red") (λ v, v) DataLayer.id
              (DataLayer.DataChanged [point]) w = inl e).
Proof.
  intros point.
  apply (ill_formed_point_throws (λ _, "red") (λ v, v) DataLayer.id (Some 1%nat) []
           [point] point).
  - constructor.
  - by apply list_elem_of_singleton.
  - left. unfold PlainObject.inherited. rewrite ?elem_of_cons. by left.
Defined.

Section useMapLayersFacts.

Import useMapLayers.

Lemma layer_ids_snoc (done : list MapLayer) layer k :
  k ∈ id <$> (done ++ [layer]) ↔ k ∈ id <$> done ∨ k = id layer.
Proof. rewrite fmap_app, elem_of_app. simpl. by rewrite list_elem_of_singleton. Qed.

Section Scan.

Variable activeLayers0 : list string.
Variable baseLayer0 : string.
Variable map0 : gset object.
Variable n0 : nat.
Hypothesis map0_old : ∀ n, (n0 ≤ n)%nat → inr n ∉ map0.

Lemma scanned_start made0 :
  length made0 = n0 →
  scanned activeLayers0 baseLayer0 map0 n0 []
    {| layerMap := ∅; baseLayersOf := ∅; overlaysOf := ∅;
       newActiveLayers := activeLayers0; newBaseLayer := baseLayer0;
       onMap := map0; objects := made0 |}.
Proof.
  intros Hlen. unfold scanned. simpl. split_and!.
  - lia.
  - intros k. rewrite lookup_empty. split; [by intros [? [=]]|by intros ?%elem_of_nil].
  - intros k n. by rewrite lookup_empty.
  - intros k1 k2 n. by rewrite lookup_empty.
  - intros x ?. by left.
  - done.
  - by intros layer n ?%elem_of_nil.
  - intros k. split; [by left|].
    intros [?|(layer & Hl & _)]; [done|by apply elem_of_nil in Hl].
  - exists []. by rewrite app_nil_r.
  - by case_bool_decide.
Qed.

Lemma scanned_visit done st layer :
  scanned activeLayers0 baseLayer0 map0 n0 done st →
  id layer ∉ id <$> done →
  scanned activeLayers0 baseLayer0 map0 n0 (done ++ [layer])
    (visit activeLayers0 baseLayer0 st layer).
Proof.
  intros (Hlen & Hdom & Hrange & Hinj & Hmap & Hkeep & Hon & Hact & Hpushed & Hbase) Hfresh.
  assert (Hother : ∀ k, k ∈ id <$> done → k ≠ id layer) by (intros k Hk ->; done).
  assert (Hbelow : ∀ k n, layerMap st !! k = Some n → n ≠ length (objects st)).
  { intros k n Hk. pose proof (Hrange _ _ Hk). lia. }
  assert (Hnew : inr (length (objects st)) ∉ onMap st).
  { intros [Hin|(n & [= <-] & ?)]%Hmap; [|lia].
    apply (map0_old (length (objects st))); [lia|done]. }
  assert (Hdom' : ∀ k, is_Some (<[id layer := length (objects st)]> (layerMap st) !! k)
                       ↔ k ∈ id <$> done ++ [layer]).
  { intros k. rewrite layer_ids_snoc. destruct (decide (k = id layer)) as [->|Hne].
    - rewrite lookup_insert_eq. split; [by right|by eexists].
    - rewrite lookup_insert_ne, Hdom by done. split; [by left|by intros [?|?]]. }
  assert (Hrange' : ∀ k n, <[id layer := length (objects st)]> (layerMap st) !! k = Some n →
                           (n0 ≤ n < n0 + length (done ++ [layer]))%nat).
  { intros k n. rewrite length_app. simpl. destruct (decide (k = id layer)) as [->|Hne].
    - rewrite lookup_insert_eq. intros [= <-]. lia.
    - rewrite lookup_insert_ne by done. intros Hk. pose proof (Hrange _ _ Hk). lia. }
  assert (Hinj' : ∀ k1 k2 n,
            <[id layer := length (objects st)]> (layerMap st) !! k1 = Some n →
            <[id layer := length (objects st)]> (layerMap st) !! k2 = Some n → k1 = k2).
  { intros k1 k2 n.
    destruct (decide (k1 = id layer)) as [->|H1], (decide (k2 = id layer)) as [->|H2];
      rewrite ?lookup_insert_eq, ?lookup_insert_ne by done; try done.
    - intros [= <-] H. by destruct (Hbelow _ _ H).
    - intros H [= <-]. by destruct (Hbelow _ _ H).
    - apply Hinj. }
  assert (Hmap' : ∀ (b : bool) x,
            x ∈ (if b then {[inr (length (objects st))]} ∪ onMap st else onMap st) →
            x ∈ map0 ∨ ∃ n, x = inr n ∧ (n0 ≤ n < n0 + length (done ++ [layer]))%nat).
  { intros b x Hx. rewrite length_app. simpl.
    assert (Hx' : x = inr (length (objects st)) ∨ x ∈ onMap st).
    { destruct b; [|by right].
      apply elem_of_union in Hx as [->%elem_of_singleton|?]; [by left|by right]. }
    destruct Hx' as [->|Hx'].
    - right. eexists. split; [done|]. lia.
    - destruct (Hmap _ Hx') as [?|(n & -> & ?)]; [by left|].
      right. eexists. split; [done|]. lia. }
  assert (Hkeep' : ∀ (b : bool) x, x ∈ map0 →
            x ∈ (if b then {[inr (length (objects st))]} ∪ onMap st else onMap st)).
  { intros b x Hx. destruct b; [apply elem_of_union; right|]; by apply Hkeep. }
  assert (Hon' : ∀ (b : bool),
            (b = true ↔ if isBase layer
                        then id layer = baseLayer0 ∨ (baseLayer0 = "" ∧ visible layer = true)
                        else id layer ∈ activeLayers0 ∨ visible layer = true) →
            ∀ l n, l ∈ done ++ [layer] →
              <[id layer := length (objects st)]> (layerMap st) !! id l = Some n →
              inr n ∈ (if b then {[inr (length (objects st))]} ∪ onMap st else onMap st)
              ↔ if isBase l
                then id l = baseLayer0 ∨ (baseLayer0 = "" ∧ visible l = true)
                else id l ∈ activeLayers0 ∨ visible l = true).
  { intros b Hb l n [Hl| ->%list_elem_of_singleton]%elem_of_app.
    - assert (Hne : id l ≠ id layer) by (apply Hother, list_elem_of_fmap; eauto).
      rewrite lookup_insert_ne by done. intros Hn.
      rewrite <- (Hon _ _ Hl Hn).
      destruct b; [|done]. rewrite elem_of_union, elem_of_singleton.
      split; [|by right]. intros [[= ->]|?]; [|done]. by destruct (Hbelow _ _ Hn).
    - rewrite lookup_insert_eq. intros [= <-]. rewrite <- Hb.
      destruct b; [|by split].
      rewrite elem_of_union, elem_of_singleton. split; [done|by left]. }
  unfold visit. destruct (isBase layer) eqn:Hb.
  - unfold scanned. simpl. split_and!.
    + rewrite !length_app, Hlen. simpl. lia.
    + done.
    + done.
    + done.
    + apply Hmap'.
    + apply Hkeep'.
    + apply Hon'.
      rewrite orb_true_iff, andb_true_iff, !bool_decide_eq_true. done.
    + intros k. rewrite Hact. split.
      * intros [?|(l & Hl & ?)]; [by left|right]. exists l.
        split; [apply elem_of_app; by left|done].
      * intros [?|(l & [Hl| ->%list_elem_of_singleton]%elem_of_app & Hid & Hover & ?)];
          [by left|right; by exists l|congruence].
    + done.
    + rewrite filter_app, fmap_app, filter_cons, filter_nil, Hb, Hbase. simpl.
      destruct (visible layer) eqn:Hv; simpl;
        rewrite ?last_snoc, ?app_nil_r, ?andb_true_r, ?andb_false_r, ?orb_false_r;
        by destruct (bool_decide (baseLayer0 = "")), (bool_decide (id layer = baseLayer0)).
  - unfold scanned. simpl. split_and!.
    + rewrite !length_app, Hlen. simpl. lia.
    + done.
    + done.
    + done.
    + apply Hmap'.
    + apply Hkeep'.
    + apply Hon'.
      rewrite orb_true_iff, bool_decide_eq_true. done.
    + intros k.
      destruct (decide (id layer ∈ activeLayers0)) as [Hin|Hin].
      * rewrite bool_decide_eq_true_2 by done. simpl. rewrite Hact. split.
        -- intros [?|(l & Hl & ?)]; [by left|right]. exists l.
           split; [apply elem_of_app; by left|done].
        -- intros [?|(l & [Hl| ->%list_elem_of_singleton]%elem_of_app & Hid & Hover & ?)];
             [by left|right; by exists l|left; congruence].
      * rewrite bool_decide_eq_false_2 by done. simpl.
        destruct (visible layer) eqn:Hv; simpl.
        -- rewrite elem_of_app, list_elem_of_singleton, Hact. split.
           ++ intros [[?|(l & Hl & ?)]| ->]; [by left| |].
              ** right. exists l. split; [apply elem_of_app; by left|done].
              ** right. exists layer. split; [apply elem_of_app; right|done].
                 by apply list_elem_of_singleton.
           ++ intros [?|(l & [Hl| ->%list_elem_of_singleton]%elem_of_app & Hid & Hover & ?)].
              ** by left; left.
              ** left; right. by exists l.
              ** by right.
        -- rewrite Hact. split.
           ++ intros [?|(l & Hl & ?)]; [by left|right]. exists l.
              split; [apply elem_of_app; by left|done].
           ++ intros [?|(l & [Hl| ->%list_elem_of_singleton]%elem_of_app & Hid & Hover & ?)];
                [by left|right; by exists l|congruence].
    + destruct Hpushed as [pushed ->].
      destruct ((_ || _) && _); [exists (pushed ++ [id layer]); by rewrite app_assoc|by exists pushed].
    + rewrite filter_app, fmap_app, filter_cons, filter_nil, Hb. simpl.
      by rewrite app_nil_r.
Qed.

Lemma scanned_all made0 l :
  length made0 = n0 →
  NoDup (id <$> l) →
  scanned activeLayers0 baseLayer0 map0 n0 l
    (foldl (visit activeLayers0 baseLayer0)
       {| layerMap := ∅; baseLayersOf := ∅; overlaysOf := ∅;
          newActiveLayers := activeLayers0; newBaseLayer := baseLayer0;
          onMap := map0; objects := made0 |} l).
Proof.
  intros Hlen. induction l as [|layer l IH] using rev_ind; intros Hl.
  - by apply scanned_start.
  - rewrite foldl_app. simpl. rewrite fmap_app in Hl. simpl in Hl.
    apply NoDup_app in Hl as (Hl & Hfresh & _).
    apply scanned_visit; [by apply IH|].
    intros Hin. apply (Hfresh _ Hin). by apply list_elem_of_singleton.
Qed.

Lemma scanned_onto made0 l :
  length made0 = n0 →
  NoDup (id <$> l) →
  ∀ n, (n0 ≤ n < n0 + length l)%nat →
    ∃ k, layerMap (foldl (visit activeLayers0 baseLayer0)
                     {| layerMap := ∅; baseLayersOf := ∅; overlaysOf := ∅;
                        newActiveLayers := activeLayers0; newBaseLayer := baseLayer0;
                        onMap := map0; objects := made0 |} l) !! k = Some n.
Proof.
  intros Hlen. induction l as [|layer l IH] using rev_ind; intros Hl n Hn.
  - simpl in Hn. lia.
  - rewrite fmap_app in Hl. simpl in Hl.
    apply NoDup_app in Hl as (Hl & Hfresh & _).
    destruct (scanned_all made0 l Hlen Hl) as (Hobjects & Hdom & _).
    rewrite foldl_app. simpl. set (st := foldl _ _ l) in *.
    rewrite length_app in Hn. simpl in Hn.
    assert (Hmap : layerMap (visit activeLayers0 baseLayer0 st layer)
                   = <[id layer := length (objects st)]> (layerMap st)).
    { unfold visit. by destruct (isBase layer). }
    rewrite Hmap. destruct (decide (n = length (objects st))) as [->|Hne].
    + exists (id layer). by rewrite lookup_insert_eq.
    + destruct (IH Hl n) as [k Hk]; [lia|]. exists k.
      rewrite lookup_insert_ne; [done|]. intros <-.
      apply (Hfresh (id layer)); [|by apply list_elem_of_singleton].
      apply Hdom. by eexists.
Qed.

End Scan.


Lemma others_old (others : gset string) n : inr n ∉ (set_map inl others : gset object).
Proof. by intros (? & [=] & _)%elem_of_map. Qed.

(** The effect's run when the context gets its map. *)
Lemma mapReady_scanned l defaultActiveLayers defaultBaseLayer others :
  NoDup (id <$> l) →
  let w := step MapReady (mounted l defaultActiveLayers defaultBaseLayer others) in
  ∃ st,
    scanned (default [] defaultActiveLayers) (default "" defaultBaseLayer)
      (set_map inl others) 0 l st
    ∧ mapLayers w = onMap st
    ∧ layerInstances w = layerMap st
    ∧ activeLayers w = newActiveLayers st
    ∧ baseLayer w = newBaseLayer st
    ∧ leafletMap w = true
    ∧ layers w = l.
Proof.
  intros Hl. simpl. unfold effect. simpl. eexists. split.
  - apply (scanned_all (default [] defaultActiveLayers) (default "" defaultBaseLayer)
             (set_map inl others) 0 (λ n _, others_old others n) [] l eq_refl Hl).
  - simpl. split_and!; try done.
    + case_bool_decide as Hlen; [done|].
      match goal with
      | |- _ = newActiveLayers ?st =>
          destruct (scanned_all (default [] defaultActiveLayers)
                      (default "" defaultBaseLayer) (set_map inl others) 0
                      (λ n _, others_old others n) [] l eq_refl Hl)
            as (_ & _ & _ & _ & _ & _ & _ & _ & [pushed Hp] & _)
      end.
      rewrite Hp in Hlen |- *. rewrite length_app in Hlen.
      destruct pushed; [by rewrite app_nil_r|]. simpl in Hlen. lia.
    + by case_bool_decide.
Qed.

(** Every layer object of the effect's run is named by
    [layerInstances]. *)
Lemma mapReady_onto l defaultActiveLayers defaultBaseLayer others :
  NoDup (id <$> l) →
  let w := step MapReady (mounted l defaultActiveLayers defaultBaseLayer others) in
  length (made w) = length l
  ∧ ∀ n, (n < length l)%nat → ∃ k, layerInstances w !! k = Some n.
Proof.
  intros Hl. simpl. unfold effect. simpl. split.
  - by destruct (scanned_all (default [] defaultActiveLayers) (default "" defaultBaseLayer)
                   (set_map inl others) 0 (λ n _, others_old others n) [] l eq_refl Hl)
      as (-> & _).
  - intros n Hn.
    apply (scanned_onto (default [] defaultActiveLayers) (default "" defaultBaseLayer)
             (set_map inl others) 0 (λ n _, others_old others n) [] l eq_refl Hl).
    lia.
Qed.

(** What a call of [toggleLayer] does to the hook. *)
Lemma toggleLayer_spec layerId (w : world) :
  leafletMap w = true →
  exec (toggleLayer layerId) w
  = match layerInstances w !! layerId with
    | Some layer =>
        if bool_decide (layerId ∈ activeLayers w)
        then setActiveLayers (filter (λ id, id ≠ layerId))
               (onMapLayers (λ ls, ls ∖ {[inr layer]}) w)
        else setActiveLayers (λ prev, prev ++ [layerId])
               (onMapLayers (λ ls, {[inr layer]} ∪ ls) w)
    | None =>
        if bool_decide (layerId ∈ PlainObject.inherited)
           && bool_decide (layerId ∈ activeLayers w)
        then setActiveLayers (filter (λ id, id ≠ layerId)) w
        else w
    end.
Proof.
  intros Hready. unfold exec, toggleLayer, addTo, removeLayer, PlainObject.property.
  unfold_monad. rewrite Hready.
  destruct (layerInstances w !! layerId) as [layer|].
  - by destruct (bool_decide (layerId ∈ activeLayers w)).
  - by destruct (bool_decide (layerId ∈ PlainObject.inherited)),
         (bool_decide (layerId ∈ activeLayers w)).
Qed.



Lemma layers_run_cons i ins w : run (i :: ins) w = run ins (step i w).
Proof. done. Qed.

Lemma calls_keep_cleanup ins w :
  forallb isCall ins = true →
  leafletMap w = true →
  let w' := run ins w in
  leafletMap w' = true ∧ initializedRef w' = initializedRef w ∧ cleanup w' = cleanup w.
Proof.
  revert w. induction ins as [|i ins IH]; intros w Hins Hready; [done|].
  simpl in Hins. apply andb_prop in Hins as [Hi Hins]. rewrite layers_run_cons.
  assert (Hstep : leafletMap (step i w) = true
                  ∧ initializedRef (step i w) = initializedRef w
                  ∧ cleanup (step i w) = cleanup w).
  { destruct i as [| |layerId|layerId|layer]; try done; simpl.
    - rewrite (toggleLayer_spec layerId w Hready).
      by destruct (layerInstances w !! layerId), (bool_decide (layerId ∈ activeLayers w)),
           (bool_decide (layerId ∈ PlainObject.inherited)).
    - unfold exec, changeBaseLayer, addTo, removeLayer. unfold_monad. rewrite Hready.
      by destruct (PlainObject.property (layerInstances w) layerId),
           (PlainObject.property (layerInstances w) (baseLayer w)).
    - unfold addLayer. rewrite Hready. by destruct (addedLayer layer). }
  destruct Hstep as (H1 & H2 & H3). destruct (IH (step i w) Hins H1) as (? & ? & ?).
  split_and!; congruence.
Qed.

Lemma renders_do_nothing ins w :
  forallb (λ i, negb (isCall i)) ins = true →
  initializedRef w = true → cleanup w = None →
  let w' := run ins w in
  mapLayers w' = mapLayers w ∧ mapControls w' = mapControls w ∧ made w' = made w
  ∧ layerInstances w' = layerInstances w ∧ activeLayers w' = activeLayers w
  ∧ baseLayer w' = baseLayer w ∧ initializedRef w' = true.
Proof.
  revert w. induction ins as [|i ins IH]; intros w Hins Hinit Hcl; [done|].
  simpl in Hins. apply andb_prop in Hins as [Hi Hins]. rewrite layers_run_cons.
  assert (Hstep : mapLayers (step i w) = mapLayers w
                  ∧ mapControls (step i w) = mapControls w ∧ made (step i w) = made w
                  ∧ layerInstances (step i w) = layerInstances w
                  ∧ activeLayers (step i w) = activeLayers w
                  ∧ baseLayer (step i w) = baseLayer w
                  ∧ initializedRef (step i w) = true ∧ cleanup (step i w) = None).
  { destruct i as [|l'| | |]; try done; simpl; unfold runCleanup; rewrite Hcl;
      unfold effect; simpl; rewrite Hinit, ?orb_true_r; done. }
  destruct Hstep as (H1 & H2 & H3 & H4 & H5 & H6 & H7 & H8).
  destruct (IH (step i w) Hins H7 H8) as (? & ? & ? & ? & ? & ? & ?).
  split_and!; congruence.
Qed.

(** X30.  The ref is never reset.  For layers with distinct ids, none
    with ["__proto__"] for its id or name, and options and calls that
    do not name it either: when the [layers] prop changes after the
    layers have been made, the cleanup takes every layer object the
    effect made and the layer control off the map, whatever calls came
    before, and neither this run of the effect nor any later one makes
    a layer again, while [layerInstances], [activeLayers] and
    [baseLayer] still name the old ones. *)
Theorem layers_change_removes_layers
    (l : list MapLayer) (defaultActiveLayers : option (list string))
    (defaultBaseLayer : option string) (others : gset string)
    (calls : list input) (l' : list MapLayer) (renders : list input) :
  NoDup (id <$> l) →
  protoFree l →
  "__proto__" ∉ default [] defaultActiveLayers →
  defaultBaseLayer ≠ Some "__proto__" →
  Forall (λ i, "__proto__" ∉ named i) calls →
  forallb isCall calls = true →
  forallb (λ i, negb (isCall i)) renders = true →
  let w0 := step MapReady (mounted l defaultActiveLayers defaultBaseLayer others) in
  let w1 := run calls w0 in
  let w2 := run renders (step (LayersChanged l') w1) in
  length (made w0) = length l
  ∧ (∀ n, (n < length (made w0))%nat → inr n ∉ mapLayers w2)
  ∧ (∀ c, layerControl w0 = Some c → c ∉ mapControls w2)
  ∧ made w2 = made w1
  ∧ layerInstances w2 = layerInstances w1
  ∧ activeLayers w2 = activeLayers w1
  ∧ baseLayer w2 = baseLayer w1
  ∧ initializedRef w2 = true.
Proof.
  intros Hl [Hproto _] _ _ _ Hcalls Hrenders w0 w1 w2.
  assert (H0 : leafletMap w0 = true ∧ initializedRef w0 = true
               ∧ cleanup w0 = Some (layerInstances w0, length (@nil control))
               ∧ layerControl w0 = Some (length (@nil control))) by done.
  destruct H0 as (Hready & Hinit & Hcl & Hctl).
  destruct (mapReady_onto l defaultActiveLayers defaultBaseLayer others Hl) as (Hmade & Honto).
  fold w0 in Hmade, Honto.
  assert (Hnone : layerInstances w0 !! "__proto__" = None).
  { destruct (mapReady_scanned l defaultActiveLayers defaultBaseLayer others Hl)
      as (st & (_ & Hdom & _) & _ & Hinst & _).
    fold w0 in Hinst. rewrite Hinst. apply eq_None_not_Some. by rewrite Hdom. }
  destruct (calls_keep_cleanup calls w0 Hcalls Hready) as (Hready1 & Hinit1 & Hcl1).
  fold w1 in Hready1, Hinit1, Hcl1. rewrite Hinit in Hinit1. rewrite Hcl in Hcl1.
  assert (Hstep : mapLayers (step (LayersChanged l') w1)
                  = mapLayers w1 ∖ set_map inr (map_img (layerInstances w0) : gset nat)
                  ∧ mapControls (step (LayersChanged l') w1) = mapControls w1 ∖ {[0%nat]}
                  ∧ made (step (LayersChanged l') w1) = made w1
                  ∧ layerInstances (step (LayersChanged l') w1) = layerInstances w1
                  ∧ activeLayers (step (LayersChanged l') w1) = activeLayers w1
                  ∧ baseLayer (step (LayersChanged l') w1) = baseLayer w1
                  ∧ initializedRef (step (LayersChanged l') w1) = true
                  ∧ cleanup (step (LayersChanged l') w1) = None).
  { simpl. unfold runCleanup. rewrite Hcl1. unfold effect. simpl.
    rewrite Hinit1, orb_true_r. simpl. by rewrite (delete_id _ _ Hnone). }
  destruct Hstep as (H1 & H2 & H3 & H4 & H5 & H6 & H7 & H8).
  destruct (renders_do_nothing renders _ Hrenders H7 H8) as (R1 & R2 & R3 & R4 & R5 & R6 & R7).
  fold w2 in R1, R2, R3, R4, R5, R6, R7.
  split_and!; try congruence.
  - intros n Hn. rewrite Hmade in Hn. destruct (Honto n Hn) as [k Hk].
    rewrite R1, H1, elem_of_difference, elem_of_map.
    intros [_ Hnot]. apply Hnot. exists n. split; [done|]. apply elem_of_map_img. eauto.
  - intros c. rewrite Hctl. intros [= <-]. rewrite R2, H2, elem_of_difference.
    intros [_ Hnot]. by apply Hnot, elem_of_singleton.
Qed.

End useMapLayersFacts.



Lemma layers_change_removes_layers_witness :
  let rain := {| useMapLayers.id := "rain"; useMapLayers.name := "Rain";
                 useMapLayers.visible := true;
                 useMapLayers.type := Some useMapLayers.wms;
                 useMapLayers.geoJsonData := false |} in
  let calls := [useMapLayers.ToggleLayer "rain"; useMapLayers.ToggleLayer "rain"] in
  let w0 := useMapLayers.step useMapLayers.MapReady
              (useMapLayers.mounted [rain] None None ∅) in
  let w2 := useMapLayers.run []
              (useMapLayers.step (useMapLayers.LayersChanged [rain])
                 (useMapLayers.run calls w0)) in
  inr 0%nat ∈ useMapLayers.mapLayers (useMapLayers.run calls w0)
  ∧ inr 0%nat ∉ useMapLayers.mapLayers w2.
Proof.
  intros rain calls w0 w2.
  split; [vm_compute; reflexivity|].
  assert (Hids : NoDup (useMapLayers.id <$> [rain])) by apply NoDup_singleton.
  assert (Hfree : useMapLayers.protoFree [rain]).
  { split; simpl; rewrite ?elem_of_cons, ?elem_of_nil; intuition discriminate. }
  assert (Hcalls : Forall (λ i, "__proto__" ∉ useMapLayers.named i) calls).
  { repeat constructor; simpl; rewrite ?elem_of_cons, ?elem_of_nil; intuition discriminate. }
  refine (proj1 (proj2 (layers_change_removes_layers [rain] None None ∅ calls [rain] []
                          Hids Hfree _ _ Hcalls eq_refl eq_refl)) 0%nat _).
  - simpl. by intros ?%elem_of_nil.
  - discriminate.
  - vm_compute. lia.
Defined.
